(** * Tonic-Exercise: the resumable fetch and enrichment pipeline

    A shallow embedding of [src/analysis/analyze.py] and
    [src/analysis/fetch_issues.py], and of the programs around them
    ([src/env_setup/generate_issues.py], [src/env_setup/upload_issues.py],
    [src/analysis/visualize.py]), followed by the properties of the
    pipeline that the specification states and by further properties of
    the code.

    Conventions of the embedding.
    - Python [str] values are [string]s whose characters are ASCII code
      points; the character-level functions work on [list ascii].
    - A value that may be [None] (a missing or [null] JSON field) is an
      [option]; Python truthiness is written out ([truthy], [truthy_opt]).
    - A JSONL file is the list of its lines in append order; an absent file
      reads as the empty list, which is what every reader in the source makes
      of it (each read is guarded by [exists()]).
    - The remote tracker and the classification service are functions of the
      request and of the number of requests made so far, so that they may
      answer differently each time.
    - A [KeyboardInterrupt] is a run that stops after a given number of
      atomic steps; an append to a log and the replacement of the checkpoint
      are atomic.
    - The outcomes of [random] are arguments: a record of draws with one
      field for each call of the source. *)

From Stdlib Require Import Ascii String List Arith Bool Lia Sorted.
From stdpp Require Import base decidable option list gmap strings pretty.
Import ListNotations.
Local Open Scope string_scope.
Local Open Scope list_scope.
Local Open Scope nat_scope.

(** ** Python string primitives *)

Module PyStr.

Definition text := list ascii.

Definition code (c : ascii) : nat := nat_of_ascii c.

(** [str.isspace] on ASCII: TAB..CR, FS..US and the blank. *)
Definition is_space (c : ascii) : bool :=
  let n := code c in
  ((9 <=? n) && (n <=? 13)) || ((28 <=? n) && (n <=? 32)).

Definition is_upper (c : ascii) : bool :=
  let n := code c in (65 <=? n) && (n <=? 90).

Definition is_lower (c : ascii) : bool :=
  let n := code c in (97 <=? n) && (n <=? 122).

Definition is_digit (c : ascii) : bool :=
  let n := code c in (48 <=? n) && (n <=? 57).

Definition lower_char (c : ascii) : ascii :=
  if is_upper c then ascii_of_nat (code c + 32) else c.

(** [s.lower()] *)
Definition lower (s : text) : text := map lower_char s.

Fixpoint lstrip_by (p : ascii -> bool) (s : text) : text :=
  match s with
  | c :: s' => if p c then lstrip_by p s' else s
  | [] => []
  end.

Definition rstrip_by (p : ascii -> bool) (s : text) : text :=
  rev (lstrip_by p (rev s)).

Definition strip_by (p : ascii -> bool) (s : text) : text :=
  rstrip_by p (lstrip_by p s).

(** [s.strip()] *)
Definition strip (s : text) : text := strip_by is_space s.

Definition mem_char (chars : text) (c : ascii) : bool :=
  existsb (Ascii.eqb c) chars.

(** [s.strip(chars)] *)
Definition strip_chars (chars : text) (s : text) : text :=
  strip_by (mem_char chars) s.

(** [s.split()]: the maximal runs of non-blank characters. [cur] is the
    run being read, reversed. *)
Fixpoint split_go (cur : text) (s : text) : list text :=
  match s with
  | [] => match cur with [] => [] | _ => [rev cur] end
  | c :: s' =>
      if is_space c
      then match cur with
           | [] => split_go [] s'
           | _ => rev cur :: split_go [] s'
           end
      else split_go (c :: cur) s'
  end.

Definition split (s : text) : list text := split_go [] s.

Definition of_string (s : string) : text := list_ascii_of_string s.
Definition to_string (s : text) : string := string_of_list_ascii s.

(** Truthiness of a [str]. *)
Definition truthy (s : string) : bool :=
  match s with EmptyString => false | _ => true end.

(** Truthiness of a value that is a [str] or [None]. *)
Definition truthy_opt (o : option string) : bool :=
  match o with Some s => truthy s | None => false end.

End PyStr.

(** ** The fragment of [re] that [SRV_REGEX] uses *)

Module Re.
Import PyStr.

(** [\w] on ASCII. *)
Definition is_word (c : ascii) : bool :=
  is_lower c || is_upper c || is_digit c || Ascii.eqb c "_"%char.

(** [[a-z0-9]] under [re.IGNORECASE]. *)
Definition in_class (c : ascii) : bool :=
  is_lower c || is_upper c || is_digit c.

Definition word_opt (o : option ascii) : bool :=
  match o with Some c => is_word c | None => false end.

(** [\b] between the character before the position and the one at it. *)
Definition at_boundary (prev : option ascii) (s : text) : bool :=
  xorb (word_opt prev) (word_opt (head s)).

Inductive atom :=
| Boundary                      (* \b *)
| Lit (c : ascii)               (* a literal, compared ignoring case *)
| ClassRep (lo hi : nat).       (* [a-z0-9]{lo,hi}, greedy *)

(** The greedy bounded repetition of the class, followed by the rest of
    the pattern [k]: one more character is tried first, and the repetition
    stops where it stands (once [lo] characters are taken) when that fails. *)
Fixpoint rep (k : option ascii -> text -> option text) (lo hi : nat)
    (prev : option ascii) (s : text) {struct hi} : option text :=
  let stop := if lo =? 0 then k prev s else None in
  match hi, s with
  | S hi', x :: s' =>
      if in_class x
      then match option_map (cons x) (rep k (pred lo) hi' (Some x) s') with
           | Some r => Some r
           | None => stop
           end
      else stop
  | _, _ => stop
  end.

(** A backtracking matcher anchored at the head of [s]; [prev] is the
    character before it. The result is the matched text. *)
Fixpoint match_here (re : list atom) (prev : option ascii) (s : text)
  : option text :=
  match re with
  | [] => Some []
  | Boundary :: re' =>
      if at_boundary prev s then match_here re' prev s else None
  | Lit c :: re' =>
      match s with
      | x :: s' =>
          if Ascii.eqb (lower_char x) (lower_char c)
          then option_map (cons x) (match_here re' (Some x) s')
          else None
      | [] => None
      end
  | ClassRep lo hi :: re' => rep (match_here re') lo hi prev s
  end.

(** [finditer]: leftmost match first, the search resuming where the match
    ended. [skip] counts the characters of the last match still to pass.
    (Every pattern used here matches at least one character.) *)
Fixpoint finditer_from (re : list atom) (prev : option ascii) (s : text)
    (skip : nat) : list text :=
  match s with
  | [] => []
  | c :: s' =>
      match skip with
      | S k => finditer_from re (Some c) s' k
      | 0 =>
          match match_here re prev s with
          | Some m => m :: finditer_from re (Some c) s' (pred (length m))
          | None => finditer_from re (Some c) s' 0
          end
      end
  end.

Definition finditer (re : list atom) (s : text) : list text :=
  finditer_from re None s 0.

End Re.

(** ** Data shared by the two programs *)

(** An item of the consolidated collection, as [fetch_issues.py] builds it
    and [analyze.py] reads it: a dict with the fields key, type, summary and description. *)
Record issue := {
  key : option string;
  type_ : option string;
  summary : string;
  description : string
}.

(** ** [analyze.py] *)

Module Analyze.
Import PyStr Re.

Definition nl : string := String "010"%char EmptyString.

Definition TECH_LABELS : list string :=
  ["database"; "networking"; "authentication"; "api"; "storage"].

Definition _ALLOWED : gset string :=
  list_to_set (map (fun l => to_string (lower (of_string l))) TECH_LABELS).

Definition UNCLASSIFIED_LABEL : string := "unclassified".

(** *** Server extraction *)

(** [re.compile(r"\bsrv-[a-z0-9]{2,10}\b", flags=re.IGNORECASE)] *)
Definition SRV_REGEX : list atom :=
  [Boundary; Lit "s"; Lit "r"; Lit "v"; Lit "-"; ClassRep 2 10; Boundary]%char.

Definition extract_servers (text : string) : list string :=
  if negb (truthy text) then []
  else map (fun m => to_string (lower m)) (finditer SRV_REGEX (of_string text)).

(** *** The classifier *)

Definition TECH_PROMPT_SYSTEM : string :=
  "You are a precise, conservative classifier. " ++
  "Given an incident description, answer with EXACTLY ONE WORD that is one of the allowed labels. " ++
  "Do not add any other text.".

(** The two messages of one [chat.completions.create] call (the model name
    and the zero temperature are constants of every call). *)
Record request := { system_msg : string; user_msg : string }.

(** What one call gives: the [content] of the first choice, or an
    exception (network failure, non-2xx status, timeout, no choice). *)
Inductive completion :=
| Content (c : option string)
| Failure.

(** The service answers the [n]-th call of the process. *)
Definition service := nat -> request -> completion.

Inductive result (A : Type) :=
| Returned (a : A)
| Raised.
Arguments Returned {A} a.
Arguments Raised {A}.

Definition quoting : text := "`"%char :: "034"%char :: "'"%char :: " "%char :: [].

(** The two lines after the call in [ask_once]: [raw] is the content (the
    empty string when there is none) stripped and lower-cased; the result is
    the first element of [raw.strip(quoting).split()], or the empty string
    when [raw] is empty. *)
Definition normalize (content : option string) : result string :=
  let raw := lower (strip (of_string (default "" content))) in
  match raw with
  | [] => Returned ""
  | _ =>
      match split (strip_chars quoting raw) with
      | tok :: _ => Returned (to_string tok)
      | [] => Raised            (* IndexError *)
      end
  end.

Definition build_user_msg (text : string) : string :=
  "Allowed labels: database, networking, authentication, api, storage" ++ nl ++ nl ++
  "Rules:" ++ nl ++
  "- Reply with exactly one word from the allowed labels." ++ nl ++
  "- No punctuation, no quotes, no explanations." ++ nl ++
  "- If uncertain, pick the closest label." ++ nl ++ nl ++
  "TEXT:" ++ nl ++ text.

(** [ask_once], threading the list [sent] of the requests made so far. *)
Definition ask_once (svc : service) (user : string) (sent : list request)
  : result string * list request :=
  let req := {| system_msg := TECH_PROMPT_SYSTEM; user_msg := user |} in
  match svc (length sent) req with
  | Failure => (Raised, sent ++ [req])
  | Content c => (normalize c, sent ++ [req])
  end.

Definition allowed (label : string) : bool := bool_decide (label ∈ _ALLOWED).

(** [text and text.strip()] *)
Definition has_text (text : string) : bool :=
  truthy text && truthy (to_string (strip (of_string text))).

(** [classify_technology] with the client [svc] that its [get_client()]
    returned: the test of the text and the two attempts under the [try].
    The whole call, with [get_client()] itself, is [classify_technology_call]
    below. [time.sleep(0.6)] between the two attempts has no counterpart
    here. *)
Definition classify_technology (svc : service) (text : string)
    (sent : list request) : string * list request :=
  if negb (has_text text) then (UNCLASSIFIED_LABEL, sent)
  else
    let user := build_user_msg text in
    match ask_once svc user sent with
    | (Raised, sent1) => (UNCLASSIFIED_LABEL, sent1)
    | (Returned label, sent1) =>
        if allowed label then (label, sent1)
        else
          match ask_once svc user sent1 with
          | (Raised, sent2) => (UNCLASSIFIED_LABEL, sent2)
          | (Returned label2, sent2) =>
              (if allowed label2 then label2 else UNCLASSIFIED_LABEL, sent2)
          end
    end.

(** [get_client]: the client kept in the global [_client], or else a new
    one, kept from then on. [new_client] is what the constructor
    [OpenAI(...)] does in this process: it gives a client, or it raises, as
    it does when no API key is configured, and [_client] stays [None]. The
    result goes with the value of [_client] after the call. *)
Definition get_client (new_client : result service) (_client : option service)
  : result service * option service :=
  match _client with
  | Some client => (Returned client, Some client)
  | None =>
      match new_client with
      | Returned client => (Returned client, Some client)
      | Raised => (Raised, None)
      end
  end.

(** A call of [classify_technology]: the test of the text, then
    [get_client()], which stands before the [try], so that what it raises
    reaches the caller, then the attempts with the client. *)
Definition classify_technology_call (new_client : result service)
    (_client : option service) (text : string) (sent : list request)
  : result (string * list request) * option service :=
  if negb (has_text text) then (Returned (UNCLASSIFIED_LABEL, sent), _client)
  else
    match get_client new_client _client with
    | (Raised, kept) => (Raised, kept)
    | (Returned client, kept) =>
        (Returned (classify_technology client text sent), kept)
    end.

(** *** JSONL helpers *)

(** A line of a log: a record, or a line that [json.loads] rejects (the
    readers skip it). *)
Inductive line (A : Type) :=
| Malformed
| Parsed (obj : A).
Arguments Malformed {A}.
Arguments Parsed {A} obj.

(** A line of [technology_annotations.jsonl]. *)
Record tech_record := { tech_key : option string; label : option string }.

(** A line of [server_mentions.jsonl]. *)
Record servers_record := { srv_key : option string; servers : list string }.

Record unresolved_entry := { u_key : option string; u_summary : string }.

(** The files under [OUTPUT_DIR]; an artifact not yet written is [None]. *)
Record files := {
  TECH_PER_ISSUE : list (line tech_record);
  SERVERS_PER_ISSUE : list (line servers_record);
  TECH_COUNTS : option (list (string * nat));
  SERVER_COUNTS : option (list (string * nat));
  UNRESOLVED_JSON : option (list unresolved_entry)
}.

Definition load_processed_keys_from_jsonl {A : Type}
    (key_field : A -> option string) (lines : list (line A)) : gset string :=
  fold_left
    (fun keys ln =>
       match ln with
       | Parsed obj =>
           match key_field obj with
           | Some k => if truthy k then keys ∪ {[ k ]} else keys
           | None => keys
           end
       | Malformed => keys
       end)
    lines ∅.

Definition append_tech (obj : tech_record) (f : files) : files :=
  {| TECH_PER_ISSUE := TECH_PER_ISSUE f ++ [Parsed obj];
     SERVERS_PER_ISSUE := SERVERS_PER_ISSUE f;
     TECH_COUNTS := TECH_COUNTS f;
     SERVER_COUNTS := SERVER_COUNTS f;
     UNRESOLVED_JSON := UNRESOLVED_JSON f |}.

Definition append_servers (obj : servers_record) (f : files) : files :=
  {| TECH_PER_ISSUE := TECH_PER_ISSUE f;
     SERVERS_PER_ISSUE := SERVERS_PER_ISSUE f ++ [Parsed obj];
     TECH_COUNTS := TECH_COUNTS f;
     SERVER_COUNTS := SERVER_COUNTS f;
     UNRESOLVED_JSON := UNRESOLVED_JSON f |}.

(** *** Aggregation *)

(** A [collections.Counter]: the pairs in insertion order. *)
Definition counter := list (string * nat).

Fixpoint counter_add (k : string) (c : counter) : counter :=
  match c with
  | [] => [(k, 1)]
  | (k', n) :: c' =>
      if String.eqb k k' then (k', S n) :: c' else (k', n) :: counter_add k c'
  end.

(** [Counter.update(iterable)] *)
Definition counter_update (elems : list string) (c : counter) : counter :=
  fold_left (fun c e => counter_add e c) elems c.

(** [x] goes before the first pair whose count does not exceed its own. *)
Fixpoint insert_desc (x : string * nat) (l : list (string * nat))
  : list (string * nat) :=
  match l with
  | [] => [x]
  | y :: l' => if snd x <? snd y then y :: insert_desc x l' else x :: y :: l'
  end.

(** [Counter.most_common()]: a stable sort by descending count. *)
Definition most_common (c : counter) : list (string * nat) :=
  fold_right insert_desc [] c.

(** The body of the loop over [TECH_PER_ISSUE]. *)
Definition count_label (c : counter) (ln : line tech_record) : counter :=
  match ln with
  | Parsed obj =>
      match label obj with
      | Some l => if truthy l then counter_update [l] c else c
      | None => c
      end
  | Malformed => c
  end.

Definition tech_counter_of (lines : list (line tech_record)) : counter :=
  fold_left count_label lines [].

(** The body of the loop over [SERVERS_PER_ISSUE], on the counter and
    [keys_with_servers]. *)
Definition count_servers (acc : counter * gset (option string))
    (ln : line servers_record) : counter * gset (option string) :=
  match ln with
  | Parsed obj =>
      match servers obj with
      | [] => acc
      | _ => (counter_update (servers obj) (fst acc), snd acc ∪ {[ srv_key obj ]})
      end
  | Malformed => acc
  end.

Definition servers_fold (lines : list (line servers_record))
  : counter * gset (option string) :=
  fold_left count_servers lines ([], ∅).

(** The list comprehension at the end of [aggregate_outputs]. *)
Definition unresolved_of (keys_with_servers : gset (option string))
    (issues_all : list issue) : list unresolved_entry :=
  map (fun i => {| u_key := key i; u_summary := summary i |})
      (filter (fun i => key i ∉ keys_with_servers) issues_all).

Definition aggregate_outputs (issues_all : list issue) (f : files) : files :=
  let tech_counter := tech_counter_of (TECH_PER_ISSUE f) in
  let server_counter := fst (servers_fold (SERVERS_PER_ISSUE f)) in
  let keys_with_servers := snd (servers_fold (SERVERS_PER_ISSUE f)) in
  {| TECH_PER_ISSUE := TECH_PER_ISSUE f;
     SERVERS_PER_ISSUE := SERVERS_PER_ISSUE f;
     TECH_COUNTS := Some (most_common tech_counter);
     SERVER_COUNTS := Some (most_common server_counter);
     UNRESOLVED_JSON := Some (unresolved_of keys_with_servers issues_all) |}.

(** *** Main function *)

(** [key in processed_complete], for a key that may be [None]. *)
Definition key_in (k : option string) (keys : gset string) : bool :=
  match k with Some k => bool_decide (k ∈ keys) | None => false end.

(** The [for] loop of [main]. [budget] is the number of appends the loop
    completes before a [KeyboardInterrupt] or an exception stops it; a run
    that is not stopped has a budget of at least twice the number of
    items. *)
Fixpoint enrich_loop (svc : service) (processed_complete : gset string)
    (issues : list issue) (budget : nat) (f : files) (sent : list request)
  : files * list request :=
  match issues with
  | [] => (f, sent)
  | i :: rest =>
      if key_in (key i) processed_complete
      then enrich_loop svc processed_complete rest budget f sent
      else
        let text :=
          to_string (strip (of_string (summary i ++ nl ++ description i)%string)) in
        match budget with
        | 0 => (f, sent)
        | S b =>
            let f1 :=
              append_servers
                {| srv_key := key i; servers := extract_servers text |} f in
            let '(lbl, sent1) := classify_technology svc text sent in
            match b with
            | 0 => (f1, sent1)
            | S b' =>
                enrich_loop svc processed_complete rest b'
                  (append_tech {| tech_key := key i; label := Some lbl |} f1)
                  sent1
            end
        end
  end.

(** [issues_all[:ISSUE_LIMIT] if ISSUE_LIMIT > 0 else issues_all] *)
Definition limited (ISSUE_LIMIT : Z) (issues_all : list issue) : list issue :=
  if (0 <? ISSUE_LIMIT)%Z then take (Z.to_nat ISSUE_LIMIT) issues_all
  else issues_all.

(** [main], once the collection [issues_all] is read from the input file:
    the loop, stopped or not, is always followed by the aggregation. *)
Definition main (ISSUE_LIMIT : Z) (svc : service) (budget : nat)
    (issues_all : list issue) (f : files) : files :=
  let issues := limited ISSUE_LIMIT issues_all in
  let processed_tech := load_processed_keys_from_jsonl tech_key (TECH_PER_ISSUE f) in
  let processed_servers :=
    load_processed_keys_from_jsonl srv_key (SERVERS_PER_ISSUE f) in
  let processed_complete := processed_tech ∩ processed_servers in
  let f' := fst (enrich_loop svc processed_complete issues budget f []) in
  aggregate_outputs issues_all f'.

End Analyze.

(** ** [fetch_issues.py] *)

Module FetchIssues.
Import PyStr.

Definition nl : string := String "010"%char EmptyString.

(** *** The rich-text description *)

Inductive adf_child :=
| AdfText (text : option string)   (* type text, with its text if any *)
| AdfHardBreak                     (* type hardBreak *)
| AdfOtherChild.

Inductive adf_node :=
| AdfParagraph (content : list adf_child)
| AdfOtherNode.

Definition paragraph_text (content : list adf_child) : string :=
  fold_left
    (fun paragraph child =>
       match child with
       | AdfText t => (paragraph ++ default "" t)%string
       | AdfHardBreak => (paragraph ++ nl)%string
       | AdfOtherChild => paragraph
       end)
    content "".

Definition strip_str (s : string) : string := to_string (strip (of_string s)).

(** [adf] is the content of the document; a missing, [null] or empty
    document is [None]. *)
Definition adf_to_text (adf : option (list adf_node)) : string :=
  match adf with
  | None => ""
  | Some nodes =>
      let lines :=
        omap (fun node =>
                match node with
                | AdfParagraph content => Some (strip_str (paragraph_text content))
                | AdfOtherNode => None
                end) nodes in
      strip_str (String.concat (nl ++ nl)%string lines)
  end.

(** *** The remote search endpoint *)

(** An element of the [issues] array of a response. *)
Record raw_issue := {
  raw_key : option string;
  issuetype_name : option string;
  raw_summary : option string;
  raw_description : option (list adf_node)
}.

Record page := {
  issues : list raw_issue;
  nextPageToken : option string;
  isLast : option bool
}.

(** The JSON body of a request; [req_token] is present only when the
    token variable is truthy. *)
Record payload := {
  req_jql : string;
  maxResults : nat;
  req_token : option string
}.

Inductive error :=
| HTTPError (status : nat)   (* [raise_for_status] on a 4xx or 5xx *)
| OtherError.                (* timeout, connection error, undecodable body *)

Inductive response :=
| Fails (e : error)
| Answers (data : page).

(** The endpoint answers the [n]-th request of the run. *)
Definition remote := nat -> payload -> response.

(** *** The files *)

Record checkpoint := {
  ck_jql : string;
  ck_page_size : nat;
  ck_nextPageToken : option string;
  ck_saved_unique : nat;
  ck_page_index : nat;
  ck_isLast : bool
}.

(** A line of the partial log. *)
Inductive log_line :=
| Unparsable
| Obj (issue_obj : issue).

(** [checkpoint_file] is [None] when the file is missing or unreadable:
    [read_checkpoint] makes the empty dict of both. *)
Record disk := {
  partial : list log_line;
  checkpoint_file : option checkpoint;
  out_json : option (list issue)
}.

Definition read_checkpoint (d : disk) : option checkpoint := checkpoint_file d.

Definition write_checkpoint (data : checkpoint) (d : disk) : disk :=
  {| partial := partial d; checkpoint_file := Some data; out_json := out_json d |}.

Definition load_saved_keys (lines : list log_line) : gset string * nat :=
  fold_left
    (fun '(saved_keys, count) ln =>
       match ln with
       | Obj obj =>
           if truthy_opt (key obj)
           then (saved_keys ∪ {[ default "" (key obj) ]}, S count)
           else (saved_keys, count)
       | Unparsable => (saved_keys, count)
       end)
    lines (∅, 0).

Definition append_issue (issue_obj : issue) (d : disk) : disk :=
  {| partial := partial d ++ [Obj issue_obj];
     checkpoint_file := checkpoint_file d;
     out_json := out_json d |}.

Definition items_of (lines : list log_line) : list issue :=
  omap (fun ln => match ln with Obj obj => Some obj | Unparsable => None end) lines.

Definition materialize_json_from_jsonl (d : disk) : disk * nat :=
  let items := items_of (partial d) in
  ({| partial := partial d;
      checkpoint_file := checkpoint_file d;
      out_json := Some items |}, length items).

(** *** The resumable fetcher *)

Inductive exit_reason :=
| EmptyPage       (* the first [break]: no issues in the response *)
| LastPage.       (* the second [break]: the response has isLast set *)

(** Where the loop stands. *)
Inductive control :=
| AtRequest                                  (* at the top of [while True] *)
| InPage (data : page) (rest : list raw_issue) (new_in_page : nat)
| Exited (why : exit_reason)
| Propagates (e : error).

(** The variables of [fetch_all_basic_resumable] and the files. [sent] and
    [consumed] are not in the source: they record the requests made and
    the issues the [for] loop has taken, in order. *)
Record state := {
  on_disk : disk;
  token : option string;
  page_index : nat;
  saved_keys : gset string;
  pc : control;
  sent : list payload;
  consumed : list raw_issue
}.

Definition to_obj (i : raw_issue) : issue :=
  {| key := raw_key i;
     type_ := issuetype_name i;
     summary := default "" (raw_summary i);
     description := adf_to_text (raw_description i) |}.

Definition payload_of (jql : string) (page_size : nat) (tok : option string)
  : payload :=
  {| req_jql := jql; maxResults := page_size;
     req_token := if truthy_opt tok then tok else None |}.

Section Run.
Variable api : remote.
Variables (jql : string) (page_size : nat).

(** One atomic step: a request, one iteration of the [for] loop, or the
    end of a page with its checkpoint. *)
Definition step (st : state) : state :=
  match pc st with
  | AtRequest =>
      let body := payload_of jql page_size (token st) in
      match api (length (sent st)) body with
      | Fails (HTTPError status) =>
          match token st with
          | Some _ =>
              {| on_disk := on_disk st; token := None; page_index := page_index st;
                 saved_keys := saved_keys st; pc := AtRequest;
                 sent := sent st ++ [body]; consumed := consumed st |}
          | None =>
              {| on_disk := on_disk st; token := token st; page_index := page_index st;
                 saved_keys := saved_keys st; pc := Propagates (HTTPError status);
                 sent := sent st ++ [body]; consumed := consumed st |}
          end
      | Fails OtherError =>
          {| on_disk := on_disk st; token := token st; page_index := page_index st;
             saved_keys := saved_keys st; pc := Propagates OtherError;
             sent := sent st ++ [body]; consumed := consumed st |}
      | Answers data =>
          {| on_disk := on_disk st; token := token st; page_index := page_index st;
             saved_keys := saved_keys st;
             pc := match issues data with
                   | [] => Exited EmptyPage
                   | _ => InPage data (issues data) 0
                   end;
             sent := sent st ++ [body]; consumed := consumed st |}
      end
  | InPage data (i :: rest) new_in_page =>
      let obj := to_obj i in
      match key obj with
      | Some k =>
          if negb (truthy k) || bool_decide (k ∈ saved_keys st)
          then
            {| on_disk := on_disk st; token := token st; page_index := page_index st;
               saved_keys := saved_keys st; pc := InPage data rest new_in_page;
               sent := sent st; consumed := consumed st ++ [i] |}
          else
            {| on_disk := append_issue obj (on_disk st); token := token st;
               page_index := page_index st;
               saved_keys := saved_keys st ∪ {[ k ]};
               pc := InPage data rest (S new_in_page);
               sent := sent st; consumed := consumed st ++ [i] |}
      | None =>
          {| on_disk := on_disk st; token := token st; page_index := page_index st;
             saved_keys := saved_keys st; pc := InPage data rest new_in_page;
             sent := sent st; consumed := consumed st ++ [i] |}
      end
  | InPage data [] new_in_page =>
      let page_index' := S (page_index st) in
      let token' := nextPageToken data in
      {| on_disk :=
           write_checkpoint
             {| ck_jql := jql; ck_page_size := page_size;
                ck_nextPageToken := token';
                ck_saved_unique := size (saved_keys st);
                ck_page_index := page_index';
                ck_isLast := default false (isLast data) |}
             (on_disk st);
         token := token'; page_index := page_index';
         saved_keys := saved_keys st;
         pc := if default false (isLast data) then Exited LastPage else AtRequest;
         sent := sent st; consumed := consumed st |}
  | Exited _ | Propagates _ => st
  end.

Fixpoint run (n : nat) (st : state) : state :=
  match n with
  | 0 => st
  | S n' => run n' (step st)
  end.

(** The state on entry to the loop. *)
Definition start (try_use_checkpoint_token : bool) (d : disk) : state :=
  let (keys, _) := load_saved_keys (partial d) in
  {| on_disk := d;
     token := match read_checkpoint d with
              | Some c => if try_use_checkpoint_token then ck_nextPageToken c else None
              | None => None
              end;
     page_index := 0;
     saved_keys := keys;
     pc := AtRequest;
     sent := [];
     consumed := [] |}.

(** The function after [steps] atomic steps: it has returned when [pc] is
    [Exited], it has raised when [pc] is [Propagates], and otherwise a
    [KeyboardInterrupt] has stopped it there. *)
Definition fetch_all_basic_resumable (try_use_checkpoint_token : bool)
    (steps : nat) (d : disk) : state :=
  run steps (start try_use_checkpoint_token d).

(** [fetch_and_save]: the collection is materialized only when the fetch
    returns; an interrupt exits with status 130 and an error propagates. *)
Definition fetch_and_save (steps : nat) (d : disk) : state :=
  let st := fetch_all_basic_resumable true steps d in
  match pc st with
  | Exited _ =>
      {| on_disk := fst (materialize_json_from_jsonl (on_disk st));
         token := token st; page_index := page_index st;
         saved_keys := saved_keys st; pc := pc st;
         sent := sent st; consumed := consumed st |}
  | _ => st
  end.
End Run.

End FetchIssues.

(** ** [env_setup/generate_issues.py] *)

Module GenerateIssues.
Import PyStr.

(** *** The outcomes of the random generator

    Every call of [random] takes its outcome from a record of draws, one
    field for each call of the source, so that a function of this module
    applied to some draws is one possible run of the Python function. *)

(** [random.choice(seq)]: [IndexError] on an empty sequence. *)
Definition choice {A : Type} (seq : list A) (r : nat) : option A :=
  seq !! (r mod length seq).

(** [random.randint(a, b)], for [a <= b]. *)
Definition randint (a b : nat) (r : nat) : nat := a + r mod (b - a + 1).

(** [random.choices(population, k=k)]; [picks i] is the outcome of the
    draw of index [i]. *)
Definition choices {A : Type} (population : list A) (k : nat) (picks : nat -> nat)
  : option (list A) :=
  mapM (fun i => choice population (picks i)) (seq 0 k).

(** [random.random() < p]; the outcome [u] and the bound [p] are counted in
    hundredths, [u] rounded down. *)
Definition below (u p : nat) : bool := u <? p.

(** *** The fragment of [str.format] and of [str.replace] in use *)

Inductive piece :=
| Txt (s : string)          (* literal text *)
| Field (name : string).    (* a replacement field, in braces *)

Definition flush (lit : string) (ps : list piece) : list piece :=
  match lit with
  | EmptyString => ps
  | _ => Txt lit :: ps
  end.

(** The literal texts and the replacement fields of a format string;
    [field] is the name being read inside braces, [lit] the literal text
    being read outside. A brace without its partner is a [ValueError]. *)
Fixpoint parse_go (field : option string) (lit : string) (s : string)
  : option (list piece) :=
  match s with
  | EmptyString =>
      match field with
      | None => Some (flush lit [])
      | Some _ => None
      end
  | String c s' =>
      match field with
      | None =>
          if Ascii.eqb c "{" then flush lit <$> parse_go (Some "") "" s'
          else if Ascii.eqb c "}" then None
          else parse_go None (lit ++ String c "")%string s'
      | Some f =>
          if Ascii.eqb c "}" then cons (Field f) <$> parse_go None "" s'
          else parse_go (Some (f ++ String c "")%string) lit s'
      end
  end.

Definition parse (template : string) : option (list piece) :=
  parse_go None "" template.

(** [template.format(server=..., server2=..., db_name=...)]; a field of
    another name is a [KeyError]. *)
Definition format (template : string) (server server2 db_name : string)
  : option string :=
  pieces ← parse template;
  texts ← mapM (fun p =>
                  match p with
                  | Txt s => Some s
                  | Field f =>
                      if String.eqb f "server" then Some server
                      else if String.eqb f "server2" then Some server2
                      else if String.eqb f "db_name" then Some db_name
                      else None
                  end) pieces;
  Some (String.concat "" texts).

Fixpoint starts_with (old s : text) : bool :=
  match old, s with
  | [], _ => true
  | x :: old', y :: s' => Ascii.eqb x y && starts_with old' s'
  | _ :: _, [] => false
  end.

(** The occurrences of [old] are taken from the left and do not overlap;
    [skip] counts the characters of the last occurrence still to pass. *)
Fixpoint replace_go (old new : text) (skip : nat) (s : text) : text :=
  match s with
  | [] => []
  | c :: s' =>
      match skip with
      | S k => replace_go old new k s'
      | 0 =>
          if starts_with old s
          then new ++ replace_go old new (pred (length old)) s'
          else c :: replace_go old new 0 s'
      end
  end.

(** [s.replace(old, new)]; an empty [old] occurs before each character and
    at the end. *)
Definition replace (old new : string) (s : string) : string :=
  match of_string old with
  | [] => to_string (of_string new ++ flat_map (fun c => c :: of_string new) (of_string s))
  | o => to_string (replace_go o (of_string new) 0 (of_string s))
  end.

(** *** The generator *)

Definition TECHNOLOGY_TEMPLATES : list (string * list string) :=
  [ ("database",
     [ "Database {db_name} on {server} is experiencing slow query performance";
       "{server} PostgreSQL connection pool exhausted";
       "MySQL replication lag on {server} exceeds 10 seconds";
       "Oracle backup failed on {server} - tablespace full";
       "{server} MongoDB replica set member unreachable" ]);
    ("networking",
     [ "Network connectivity issues between {server} and {server2}";
       "{server} experiencing packet loss to gateway";
       "VPN tunnel down affecting {server}";
       "Firewall blocking port 443 on {server}";
       "{server} DNS resolution failures" ]);
    ("authentication",
     [ "LDAP authentication failing on {server}";
       "Users unable to login to {server} - Active Directory timeout";
       "{server} Kerberos ticket expiration issues";
       "SSO integration broken on {server}";
       "Failed login attempts from {server} exceed threshold" ]);
    ("api",
     [ "{server} REST API returning 500 errors";
       "API rate limiting triggered on {server}";
       "{server} GraphQL endpoint timeout";
       "Webhook delivery failures from {server}";
       "{server} API gateway health check failing" ]);
    ("storage",
     [ "Disk space critically low on {server} - 95% full";
       "{server} NFS mount unresponsive";
       "S3 bucket access denied from {server}";
       "{server} RAID array degraded - drive failure";
       "Backup volume on {server} out of space" ]) ].

Definition PREFIX_VARIANTS : list string :=
  ["srv"; "SRV"; "Srv"; "sRv"; "srV"; "SRv"; "SrV"; "sRV"].

(** [string.ascii_lowercase + string.digits] *)
Definition chars : string := "abcdefghijklmnopqrstuvwxyz0123456789".

(** The draws of one suffix: its length, and its characters. *)
Record suffix_draw := {
  length_r : nat;
  chars_r : nat -> nat
}.

(** The body of the loop of [generate_server_pool], which lines 61 and 62
    of [random_server_name] repeat. *)
Definition random_suffix (d : suffix_draw) : option string :=
  let suffix_length := randint 2 10 (length_r d) in
  to_string <$> choices (of_string chars) suffix_length (chars_r d).

Definition generate_server_pool (size : nat) (draws : nat -> suffix_draw)
  : option (gset string) :=
  fold_left
    (fun servers i =>
       servers ← servers;
       suffix ← random_suffix (draws i);
       Some (servers ∪ {[ suffix ]}))
    (seq 0 size) (Some ∅).

(** The module constant, computed when the module is loaded. *)
Definition SERVER_POOL (draws : nat -> suffix_draw) : option (list string) :=
  elements <$> generate_server_pool 200 draws.

(** The draws of one server name. *)
Record name_draw := {
  prefix_r : nat;
  u_pool : nat;
  pool_r : nat;
  fresh_suffix : suffix_draw
}.

Definition random_server_name (pool : list string) (d : name_draw) : option string :=
  prefix ← choice PREFIX_VARIANTS (prefix_r d);
  if below (u_pool d) 90
  then suffix ← choice pool (pool_r d); Some (prefix ++ "-" ++ suffix)%string
  else suffix ← random_suffix (fresh_suffix d); Some (prefix ++ "-" ++ suffix)%string.

(** The draws of one description. *)
Record description_draw := {
  tech_r : nat;
  template_r : nat;
  server_d : name_draw;
  server2_d : name_draw;
  db_r : nat;
  u_xyz : nat;
  u_drop : nat;
  drop_d : name_draw
}.

Definition lookup_templates (tech : string) : option (list string) :=
  snd <$> List.find (fun kv => String.eqb (fst kv) tech) TECHNOLOGY_TEMPLATES.

Definition generate_description (pool : list string) (d : description_draw)
  : option (string * string) :=
  tech ← choice (map fst TECHNOLOGY_TEMPLATES) (tech_r d);
  templates ← lookup_templates tech;
  template ← choice templates (template_r d);
  server ← random_server_name pool (server_d d);
  server2 ← random_server_name pool (server2_d d);
  db_name ← choice ["customers"; "orders"; "analytics"; "inventory"] (db_r d);
  text ← format template server server2 db_name;
  let text := if below (u_xyz d) 5 then replace "srv-" "xyz-" text else text in
  text ← (if below (u_drop d) 5
          then name ← random_server_name pool (drop_d d); Some (replace name "" text)
          else Some text);
  Some (tech, text).

End GenerateIssues.

(** ** [env_setup/upload_issues.py] *)

Module UploadIssues.
Import PyStr FetchIssues.

Definition is_nl (c : ascii) : bool := Ascii.eqb c "010".

(** [para.split(newline)]; [cur] is the line being read. *)
Fixpoint split_lines_go (cur : string) (s : string) : list string :=
  match s with
  | EmptyString => [cur]
  | String c s' =>
      if is_nl c
      then cur :: split_lines_go "" s'
      else split_lines_go (cur ++ String c "")%string s'
  end.

Definition split_lines (s : string) : list string := split_lines_go "" s.

(** [text.split(two newlines)]: the separators are taken from the left and
    do not overlap. *)
Fixpoint split_paragraphs_go (cur : string) (s : string) : list string :=
  match s with
  | EmptyString => [cur]
  | String c rest =>
      match rest with
      | String c' s' =>
          if is_nl c && is_nl c'
          then cur :: split_paragraphs_go "" s'
          else split_paragraphs_go (cur ++ String c "")%string rest
      | EmptyString => split_paragraphs_go (cur ++ String c "")%string rest
      end
  end.

Definition split_paragraphs (s : string) : list string := split_paragraphs_go "" s.

(** The nodes that line [i] of [n] lines adds: its text unless it is empty,
    and a break unless it is the last line. *)
Definition line_nodes (n i : nat) (line : string) : list adf_child :=
  (if truthy line then [AdfText (Some line)] else [])
  ++ (if i <? n - 1 then [AdfHardBreak] else []).

Definition paragraph_nodes (para : string) : list adf_child :=
  let lines := split_lines para in
  let nodes := concat (imap (line_nodes (length lines)) lines) in
  match nodes with
  | [] => [AdfText (Some "")]
  | _ => nodes
  end.

(** The [content] of the document that [adf_from_text] returns. *)
Definition adf_from_text (text : string) : list adf_node :=
  let content :=
    map (fun para => AdfParagraph (paragraph_nodes para)) (split_paragraphs text) in
  match content with
  | [] => [AdfParagraph [AdfText (Some "")]]
  | _ => content
  end.

(** *** The bulk upload *)

(** An element of the [issueUpdates] array of a request. *)
Record issue_update := {
  project_key : string;
  update_issuetype : string;
  update_summary : string;
  update_description : list adf_node
}.

(** What a request to the bulk endpoint gives: an answer, with its status
    code and the length of the [issues] array of its body where the body has
    one; or an exception, of [requests.post] or of the decoding of the
    body. *)
Inductive bulk_answer :=
| Answer (status_code : nat) (issues : option nat)
| PostRaises.

(** The endpoint: the answer to the request of each index. *)
Definition bulk_service := nat -> list issue_update -> bulk_answer.

(** How the loop stands: it returned, it left by [break] after an answer of
    another status, an exception went through, or it is still going when
    the run is interrupted. *)
Inductive outcome :=
| Finished
| Broke (status_code : nat)
| Failed
| Going.

Record upload_state := {
  created : nat;
  posted : list (list issue_update);
  how : outcome
}.

Section Bulk.
Variable PROJECT_KEY : string.
Variable pool : list string.                      (* [SERVER_POOL] *)
Variable draws : nat -> nat -> GenerateIssues.description_draw.
Variable service : bulk_service.
Variables total batch_size : nat.

(** The batch of the request of index [request_no]; [draws request_no i]
    are the draws of its issue [i]. *)
Definition make_batch (created : nat) (request_no : nat) : option (list issue_update) :=
  mapM (fun i =>
          generated ← GenerateIssues.generate_description pool (draws request_no i);
          Some {| project_key := PROJECT_KEY;
                  update_issuetype := "Task";
                  update_summary := ("Ticket " ++ pretty (created + i + 1))%string;
                  update_description := adf_from_text (snd generated) |})
       (seq 0 batch_size).

(** [create_bulk_issues], interrupted after [fuel] requests at the latest. *)
Fixpoint create_bulk_issues_from (fuel : nat) (created : nat)
    (posted : list (list issue_update)) : upload_state :=
  if created <? total
  then
    match fuel with
    | 0 => {| created := created; posted := posted; how := Going |}
    | S fuel' =>
        match make_batch created (length posted) with
        | None => {| created := created; posted := posted; how := Failed |}
        | Some batch =>
            match service (length posted) batch with
            | PostRaises =>
                {| created := created; posted := posted ++ [batch]; how := Failed |}
            | Answer status_code issues =>
                if status_code =? 201
                then create_bulk_issues_from fuel' (created + default 0 issues)
                       (posted ++ [batch])
                else {| created := created; posted := posted ++ [batch];
                        how := Broke status_code |}
            end
        end
    end
  else {| created := created; posted := posted; how := Finished |}.

Definition create_bulk_issues (fuel : nat) : upload_state :=
  create_bulk_issues_from fuel 0 [].

End Bulk.

End UploadIssues.

(** ** [analysis/visualize.py] *)

Module Visualize.
Import PyStr.

(** A line of a file of counts: white space only, text that [json.loads]
    rejects, or an object, with the values of its keys server, technology
    and count where it has them. *)
Inductive count_line :=
| BlankLine
| NotJson
| CountObject (server technology : option string) (count : option nat).

(** A [dict] from labels to counts, in insertion order. *)
Definition dict := list (string * nat).

(** [d[k] = v]: a key already present keeps its place. *)
Fixpoint dict_set (k : string) (v : nat) (d : dict) : dict :=
  match d with
  | [] => [(k, v)]
  | (k', v') :: d' =>
      if String.eqb k k' then (k', v) :: d' else (k', v') :: dict_set k v d'
  end.

(** The body of the loop of [read_jsonl_counts]; [None] is an exception. *)
Definition read_line (data : option dict) (ln : count_line) : option dict :=
  data ← data;
  match ln with
  | BlankLine => Some data
  | NotJson => None
  | CountObject (Some server) _ count => c ← count; Some (dict_set server c data)
  | CountObject None (Some technology) count =>
      c ← count; Some (dict_set technology c data)
  | CountObject None None _ => Some data
  end.

(** A file that does not exist is [None], and so is the [FileNotFoundError]
    raised for it. *)
Definition read_jsonl_counts (file : option (list count_line)) : option dict :=
  lines ← file;
  fold_left read_line lines (Some []).

(** [sorted(items, key=lambda x: x[1], reverse=True)]: the stable sort by
    descending count that [Counter.most_common] is. *)
Definition sorted_by_count (items : list (string * nat)) : list (string * nat) :=
  fold_right Analyze.insert_desc [] items.

(** [dict(pairs)] *)
Definition to_dict (pairs : list (string * nat)) : dict :=
  fold_left (fun d kv => dict_set (fst kv) (snd kv) d) pairs [].

(** The bars of the two charts, each with its label, in the order in which
    [barh] and [bar] receive them. *)
Record charts := {
  server_bars : list (string * nat);
  technology_bars : list (string * nat)
}.

Definition main (top_n : nat) (server_file tech_file : option (list count_line))
  : option charts :=
  server_counts ← read_jsonl_counts server_file;
  tech_counts ← read_jsonl_counts tech_file;
  let top_servers := to_dict (take top_n (sorted_by_count server_counts)) in
  let tech_counts_sorted := to_dict (sorted_by_count tech_counts) in
  Some {| server_bars := rev top_servers; technology_bars := tech_counts_sorted |}.

End Visualize.

(** ** The extraction on Unicode text

    [SRV_REGEX] is a [str] pattern: its [\b] follows the Unicode notion of
    a word character and its [re.IGNORECASE] the Unicode simple case
    mapping. Modules [Re] and [Analyze] above have the extraction on ASCII
    text, which is what the generator and the examples of the specification
    give it; this module has it on every text, a text being the list of its
    code points. The two agree on ASCII text. *)

Module Unicode.

Definition ustr := list N.

Definition is_upper (c : N) : bool := (65 <=? c)%N && (c <=? 90)%N.
Definition is_lower (c : N) : bool := (97 <=? c)%N && (c <=? 122)%N.
Definition is_digit (c : N) : bool := (48 <=? c)%N && (c <=? 57)%N.

(** The four characters beyond ASCII that [re.IGNORECASE] takes for an
    ASCII letter: U+0130 and U+0131 for [i], U+017F for [s], U+212A for
    [k]. The first and the last have that letter for lower case; the other
    two are in the table of equivalences of [sre]. *)
Definition special (c : N) : bool :=
  (c =? 304)%N || (c =? 305)%N || (c =? 383)%N || (c =? 8490)%N.

(** The ASCII character that [c] is taken for when case is ignored, or [c]
    itself: a character matches a literal or a range of ASCII characters
    under [re.IGNORECASE] when this one does. *)
Definition fold (c : N) : N :=
  if is_upper c then (c + 32)%N
  else if (c =? 304)%N || (c =? 305)%N then 105%N
  else if (c =? 383)%N then 115%N
  else if (c =? 8490)%N then 107%N
  else c.

(** [[a-z0-9]] under [re.IGNORECASE]. *)
Definition in_class (c : N) : bool := is_lower (fold c) || is_digit (fold c).

Inductive atom :=
| Boundary                      (* \b *)
| Lit (c : N)                   (* a literal, compared ignoring case *)
| ClassRep (lo hi : nat).       (* [a-z0-9]{lo,hi}, greedy *)

(** The greedy bounded repetition of the class, followed by the rest of
    the pattern [k]. *)
Fixpoint rep (k : option N -> ustr -> option ustr) (lo hi : nat)
    (prev : option N) (s : ustr) {struct hi} : option ustr :=
  let stop := if (lo =? 0)%nat then k prev s else None in
  match hi, s with
  | S hi', x :: s' =>
      if in_class x
      then match option_map (cons x) (rep k (pred lo) hi' (Some x) s') with
           | Some r => Some r
           | None => stop
           end
      else stop
  | _, _ => stop
  end.

(** [str.lower] on a character that a match can hold: U+0130 becomes [i]
    and a combining dot, U+212A becomes [k], U+0131 and U+017F are in
    lower case already. *)
Definition lower_char (c : N) : list N :=
  if is_upper c then [(c + 32)%N]
  else if (c =? 304)%N then [105%N; 775%N]
  else if (c =? 8490)%N then [107%N]
  else [c].

Definition lower (s : ustr) : ustr := flat_map lower_char s.

Section Table.

(** The Unicode database of the interpreter: [alnum_beyond c] tells whether
    [c], a code point beyond ASCII other than the four above, which are
    letters, is alphanumeric ([str.isalnum]). *)
Variable alnum_beyond : N -> bool.

(** [\w] of a [str] pattern: an alphanumeric character or the underscore. *)
Definition is_word (c : N) : bool :=
  if (c <? 128)%N
  then is_lower c || is_upper c || is_digit c || (c =? 95)%N
  else special c || alnum_beyond c.

Definition word_opt (o : option N) : bool :=
  match o with Some c => is_word c | None => false end.

(** [\b] between the character before the position and the one at it. *)
Definition at_boundary (prev : option N) (s : ustr) : bool :=
  xorb (word_opt prev) (word_opt (head s)).

(** A backtracking matcher anchored at the head of [s]; [prev] is the
    character before it. The result is the matched text. *)
Fixpoint match_here (re : list atom) (prev : option N) (s : ustr)
  : option ustr :=
  match re with
  | [] => Some []
  | Boundary :: re' =>
      if at_boundary prev s then match_here re' prev s else None
  | Lit c :: re' =>
      match s with
      | x :: s' =>
          if (fold x =? fold c)%N
          then option_map (cons x) (match_here re' (Some x) s')
          else None
      | [] => None
      end
  | ClassRep lo hi :: re' => rep (match_here re') lo hi prev s
  end.

(** [finditer]: leftmost match first, the search resuming where the match
    ended. [skip] counts the characters of the last match still to pass. *)
Fixpoint finditer_from (re : list atom) (prev : option N) (s : ustr)
    (skip : nat) : list ustr :=
  match s with
  | [] => []
  | c :: s' =>
      match skip with
      | S k => finditer_from re (Some c) s' k
      | 0 =>
          match match_here re prev s with
          | Some m => m :: finditer_from re (Some c) s' (pred (length m))
          | None => finditer_from re (Some c) s' 0
          end
      end
  end.

Definition finditer (re : list atom) (s : ustr) : list ustr :=
  finditer_from re None s 0.

(** The pattern: [s], [r], [v] and [-] between two boundaries, with the
    class repeated 2 to 10 times. *)
Definition SRV_REGEX : list atom :=
  [Boundary; Lit 115; Lit 114; Lit 118; Lit 45; ClassRep 2 10; Boundary].

Definition extract_servers (text : ustr) : list ustr :=
  match text with
  | [] => []
  | _ => map lower (finditer SRV_REGEX text)
  end.

End Table.

End Unicode.

(** * Vocabulary of the properties

    The predicates in which the properties are stated, and the concrete
    services, endpoints and files on which they are tried. *)

Import PyStr Re Analyze FetchIssues.

(** ** Strings *)

(** What stands after a token of [split]: nothing, or a blank. *)
Definition ends_token (post : text) : Prop :=
  match post with [] => True | c :: _ => is_space c = true end.

(** ** The classifier *)

(** The request that [classify_technology] makes for [text], the same at
    both attempts. *)
Definition request_for (text : string) : request :=
  {| system_msg := TECH_PROMPT_SYSTEM; user_msg := build_user_msg text |}.

(** The double quote. *)
Definition dq : ascii := "034"%char.

(** A character that the normalization may drop at either end. *)
Definition trimmed (c : ascii) : bool := is_space c || mem_char quoting c.

(** The label of the second attempt, as [classify_technology] reads it. *)
Definition second_label (c : completion) : string :=
  match c with
  | Failure => UNCLASSIFIED_LABEL
  | Content c2 =>
      match normalize c2 with
      | Returned t2 => if allowed t2 then t2 else UNCLASSIFIED_LABEL
      | Raised => UNCLASSIFIED_LABEL
      end
  end.

(** A service that always answers with the given text. *)
Definition always_says (answer : string) : service :=
  fun _ _ => Content (Some answer).

(** A service whose first call fails and whose later calls answer
    [database]. *)
Definition fails_once : service :=
  fun n _ => match n with 0 => Failure | S _ => Content (Some "database") end.

(** The text [Database] between double quotes, with a space on each side. *)
Definition quoted_database : string :=
  String " " (String dq ("Database" ++ String dq " ")).

(** C5 in the words of the specification: when the first request fails,
    a second request is made, and the fallback label is returned only if
    that one fails too. *)
Definition retried_after_failure (svc : service) (text : string) : Prop :=
  svc 0 (request_for text) = Failure ->
  let '(lbl, sent) := classify_technology svc text [] in
  sent = [request_for text; request_for text]
  /\ (lbl = UNCLASSIFIED_LABEL -> svc 1 (request_for text) = Failure).

(** ** The frequency tables and the logs *)

(** The count recorded for [name] in a counter or in a frequency table. *)
Definition count_in (name : string) (table : list (string * nat)) : nat :=
  match List.find (fun p => String.eqb name (fst p)) table with
  | Some p => snd p
  | None => 0
  end.

(** The same for an artifact, which counts nothing while it is not written. *)
Definition count_of (name : string) (artifact : option (list (string * nat))) : nat :=
  match artifact with Some table => count_in name table | None => 0 end.

(** [l] is a label that the aggregator counts, and it is [name]. *)
Definition is_label (name : string) (l : option string) : bool :=
  match l with Some l => truthy l && String.eqb name l | None => false end.

(** Records for the key [k]. *)
Definition tech_db (k : string) : tech_record :=
  {| tech_key := Some k; label := Some "database" |}.

Definition srv_ab (k : string) : servers_record :=
  {| srv_key := Some k; servers := ["srv-ab"] |}.

(** Logs holding one record each for the key A. *)
Definition one_each : files :=
  {| TECH_PER_ISSUE := [Parsed (tech_db "A")];
     SERVERS_PER_ISSUE := [Parsed (srv_ab "A")];
     TECH_COUNTS := None; SERVER_COUNTS := None; UNRESOLVED_JSON := None |}.

(** Every classification record has an extraction record with its key. *)
Definition covered (f : files) : Prop :=
  forall r, In (Parsed r) (TECH_PER_ISSUE f) ->
    exists r', In (Parsed r') (SERVERS_PER_ISSUE f) /\ srv_key r' = tech_key r.

(** One run of [main]: the cap, the service, the point where the loop is
    stopped, and the collection read. *)
Record enrichment_run := {
  run_limit : Z;
  run_service : service;
  run_budget : nat;
  run_collection : list issue
}.

(** Runs one after the other on the same output directory. *)
Definition enrichment_runs (runs : list enrichment_run) (f : files) : files :=
  fold_left
    (fun f r => main (run_limit r) (run_service r) (run_budget r) (run_collection r) f)
    runs f.

(** The output directory before the first run. *)
Definition fresh : files :=
  {| TECH_PER_ISSUE := []; SERVERS_PER_ISSUE := [];
     TECH_COUNTS := None; SERVER_COUNTS := None; UNRESOLVED_JSON := None |}.

(** An item of the collection with the key [k]. *)
Definition item (k summary description : string) : issue :=
  {| key := Some k; type_ := Some "Bug"; summary := summary; description := description |}.

(** The entry of the unresolved report for an item. *)
Definition entry_of (i : issue) : unresolved_entry :=
  {| u_key := key i; u_summary := summary i |}.

(** A collection of three items; the text of the second names no server. *)
Definition three_items : list issue :=
  [item "A" "db down" "on srv-ab"; item "B" "login fails" ""; item "C" "disk full" "srv-zz again"].

(** ** The partial log and the fetch runs *)

(** The keys of the records of a partial log, in order. *)
Definition log_keys (lines : list log_line) : list (option string) :=
  map key (items_of lines).

(** A partial log as the fetcher leaves it: every record has a usable key
    and no key is recorded twice. *)
Definition log_ok (lines : list log_line) : Prop :=
  Forall (fun o => truthy_opt (key o) = true) (items_of lines)
  /\ NoDup (log_keys lines).

(** [saved_keys] is the set of the keys of the log. *)
Definition inv (st : state) : Prop :=
  log_ok (partial (on_disk st))
  /\ forall k, k ∈ saved_keys st <-> In (Some k) (log_keys (partial (on_disk st))).

(** The issues taken so far are all in the log, when they have a key. *)
Definition all_logged (seen : list raw_issue) (lines : list log_line) : Prop :=
  forall i k, In i seen -> raw_key i = Some k -> truthy k = true ->
              In (Some k) (log_keys lines).

(** The pages that the endpoint has answered to the requests [l], the first
    of which is the [n]-th of the run. *)
Fixpoint answered (api : remote) (n : nat) (l : list payload) : list page :=
  match l with
  | [] => []
  | body :: l' =>
      match api n body with
      | Answers data => data :: answered api (S n) l'
      | Fails _ => answered api (S n) l'
      end
  end.

(** The issues of the current page that the [for] loop has not taken yet. *)
Definition pending (st : state) : list raw_issue :=
  match pc st with
  | InPage _ rest _ => rest
  | _ => []
  end.

(** The loop takes the issues of the answered pages in order: what it has
    taken and what is left of the current page make up all of them. *)
Definition delivered (api : remote) (st : state) : Prop :=
  flat_map issues (answered api 0 (sent st)) = consumed st ++ pending st.

(** One run of [fetch_and_save]: the endpoint as it answers during the
    run, the query, the page size, and the number of steps after which the
    run is interrupted if it has not ended before. *)
Record fetch_run := {
  run_api : remote;
  run_jql : string;
  run_page_size : nat;
  run_steps : nat
}.

(** The state in which the run [r], begun on the files [d], ends. *)
Definition fetch_once (r : fetch_run) (d : disk) : state :=
  fetch_and_save (run_api r) (run_jql r) (run_page_size r) (run_steps r) d.

(** Runs one after the other on the same files; [seen] gathers the issues
    that the loops have taken. *)
Fixpoint fetch_runs (runs : list fetch_run) (d : disk) (seen : list raw_issue)
  : disk * list raw_issue :=
  match runs with
  | [] => (d, seen)
  | r :: runs' =>
      let st := fetch_once r d in
      fetch_runs runs' (on_disk st) (seen ++ consumed st)
  end.

(** Equality of keys is decidable. *)
Definition key_eq_dec (x y : option string) : {x = y} + {x <> y} := decide (x = y).

(** An issue as the endpoint returns it, with the key [k]. *)
Definition ticket (k : string) : raw_issue :=
  {| raw_key := Some k; issuetype_name := Some "Bug";
     raw_summary := Some "db down";
     raw_description := Some [AdfParagraph [AdfText (Some "srv-ab is down")]] |}.

(** An endpoint with two pages, [A; B] then [C], that rejects any cursor
    other than the one it gave. *)
Definition two_pages : remote :=
  fun _ body =>
    match req_token body with
    | None =>
        Answers {| issues := [ticket "A"; ticket "B"];
                   nextPageToken := Some "t1"; isLast := Some false |}
    | Some t =>
        if String.eqb t "t1"
        then Answers {| issues := [ticket "C"]; nextPageToken := None; isLast := Some true |}
        else Fails (HTTPError 400)
    end.

(** A run against [api], interrupted after [steps] steps at the latest. *)
Definition run_of (api : remote) (steps : nat) : fetch_run :=
  {| run_api := api; run_jql := "project = TON ORDER BY created DESC";
     run_page_size := 2; run_steps := steps |}.

(** No file yet. *)
Definition cold : disk :=
  {| partial := []; checkpoint_file := None; out_json := None |}.





(** A log that holds A and a checkpoint whose cursor the endpoint no
    longer accepts. *)
Definition resumed : disk :=
  {| partial := [Obj (to_obj (ticket "A"))];
     checkpoint_file :=
       Some {| ck_jql := "project = TON"; ck_page_size := 2;
               ck_nextPageToken := Some "stale"; ck_saved_unique := 1;
               ck_page_index := 1; ck_isLast := false |};
     out_json := None |}.

(** An endpoint that rejects every request. *)
Definition rejecting : remote := fun _ _ => Fails (HTTPError 400).

(** ** Whole-token matches *)

(** A letter or a digit. *)
Definition is_alnum (c : ascii) : bool := is_lower c || is_upper c || is_digit c.

(** The recognized shape in the words of the specification: the literal
    prefix and the separator, in either case, then 2 to 10 letters or
    digits. *)
Definition server_shape (tok : text) : Prop :=
  exists prefix suffix,
    tok = prefix ++ suffix
    /\ lower prefix = of_string "srv-"
    /\ Forall (fun c => is_alnum c = true) suffix
    /\ 2 <= length suffix <= 10.

(** [tok] is a whole-token match at the head of [s], [prev] being the
    character before: it has the shape and a word boundary on each side. *)
Definition whole_token (prev : option ascii) (s tok : text) : Prop :=
  exists post,
    s = tok ++ post
    /\ server_shape tok
    /\ at_boundary prev s = true
    /\ at_boundary (last tok) post = true.

(** The matches taken from left to right, the search resuming after each
    match. *)
Inductive scan : option ascii -> text -> list text -> Prop :=
| scan_end prev : scan prev [] []
| scan_skip prev c s out :
    (forall tok, ~ whole_token prev (c :: s) tok) ->
    scan (Some c) s out ->
    scan prev (c :: s) out
| scan_take prev s tok post out :
    s = tok ++ post ->
    whole_token prev s tok ->
    scan (last tok) post out ->
    scan prev s (tok :: out).

(** The number of class characters at the head of [s], up to [hi]. *)
Fixpoint run_length (hi : nat) (s : text) : nat :=
  match hi, s with
  | S hi', x :: s' => if in_class x then S (run_length hi' s') else 0
  | _, _ => 0
  end.

(** The end of [SRV_REGEX]: a word boundary and nothing more. *)
Definition boundary_only (prev : option ascii) (s : text) : option text :=
  match_here [Boundary] prev s.

(** The four characters are the literal prefix and the separator, in either
    case. *)
Definition prefix_ok (x1 x2 x3 x4 : ascii) : bool :=
  Ascii.eqb (lower_char x1) "s" && Ascii.eqb (lower_char x2) "r"
  && Ascii.eqb (lower_char x3) "v" && Ascii.eqb (lower_char x4) "-".

(** The character before the position that follows [a], [prev] being the
    character before [a]. *)
Definition last_or (prev : option ascii) (a : text) : option ascii :=
  match last a with Some c => Some c | None => prev end.

(** The canonical form of a match. *)
Definition canonical (m : text) : string := to_string (lower m).

(** * Vocabulary of the further properties *)

(** ** Labels and server names *)

(** One of the five technology labels, or the fallback label. *)
Definition known_label (l : string) : Prop :=
  In l (TECH_LABELS ++ [UNCLASSIFIED_LABEL]).

(** A lower-case letter or a digit. *)
Definition is_lower_alnum (c : ascii) : bool := is_lower c || is_digit c.

(** The canonical form of a server name: [srv-] and 2 to 10 lower-case
    letters or digits. *)
Definition canonical_name (s : string) : Prop :=
  exists suffix,
    s = ("srv-" ++ to_string suffix)%string
    /\ Forall (fun c => is_lower_alnum c = true) suffix
    /\ 2 <= length suffix <= 10.

(** ** The frequency tables as a whole *)

(** The counts of a table do not increase from one row to the next. *)
Definition descending (t : list (string * nat)) : Prop :=
  StronglySorted (fun a b => snd b <= snd a) t.

(** The sum of the counts of a table. *)
Definition total (t : list (string * nat)) : nat := list_sum (map snd t).

(** A line of the classification log that the aggregator counts: a record
    with a non-empty label. *)
Definition counts_label (ln : line tech_record) : bool :=
  match ln with Parsed r => truthy_opt (label r) | Malformed => false end.

(** The number of server names that a line of the extraction log lists. *)
Definition mentions_of (ln : line servers_record) : nat :=
  match ln with Parsed r => length (servers r) | Malformed => 0 end.

(** ** The enrichment loop as a whole *)

(** The text that the loop of [main] builds for an item. *)
Definition working_text (i : issue) : string :=
  to_string (strip (of_string (summary i ++ Analyze.nl ++ description i)%string)).

(** The line that the loop appends to the extraction log for an item. *)
Definition extraction_record (i : issue) : line servers_record :=
  Parsed {| srv_key := key i; servers := extract_servers (working_text i) |}.

(** The items that the loop does not skip, in order. *)
Definition pending_items (done : gset string) (issues : list issue) : list issue :=
  List.filter (fun i => negb (key_in (key i) done)) issues.

(** A line of the classification log for the item [i], with a known label. *)
Definition labelled (ln : line tech_record) (i : issue) : Prop :=
  exists l, ln = Parsed {| tech_key := key i; label := Some l |} /\ known_label l.

(** [processed_complete] as [main] computes it from the two logs. *)
Definition complete_keys (f : files) : gset string :=
  load_processed_keys_from_jsonl tech_key (TECH_PER_ISSUE f)
  ∩ load_processed_keys_from_jsonl srv_key (SERVERS_PER_ISSUE f).


(** An item whose key is missing. *)
Definition keyless (summary description : string) : issue :=
  {| key := None; type_ := None; summary := summary; description := description |}.

(** ** The partial log as a whole *)

(** The issues of [l] that the fetcher appends when the log holds the keys
    [known]: those with a usable key that is neither in [known] nor the key
    of an issue of [l] before them. *)
Fixpoint first_seen (known : list (option string)) (l : list raw_issue)
  : list raw_issue :=
  match l with
  | [] => []
  | i :: l' =>
      if truthy_opt (raw_key i) && negb (bool_decide (raw_key i ∈ known))
      then i :: first_seen (known ++ [raw_key i]) l'
      else first_seen known l'
  end.

(** The log line that the fetcher writes for an issue. *)
Definition log_line_of (i : raw_issue) : log_line := Obj (to_obj i).

(** The log is what it was at the start followed by the lines of the issues
    taken that were seen for the first time. *)
Definition log_follows (d : disk) (st : state) : Prop :=
  partial (on_disk st)
  = partial d ++ map log_line_of (first_seen (log_keys (partial d)) (consumed st)).

(** [saved_keys] holds the usable keys of the log, whatever else the log
    holds. *)
Definition keys_agree (st : state) : Prop :=
  forall k, truthy k = true ->
    (k ∈ saved_keys st <-> In (Some k) (log_keys (partial (on_disk st)))).

(** ** What the fetcher reads back and checkpoints *)

(** A record of the partial log with a usable key. *)
Definition usable (o : issue) : bool := truthy_opt (key o).



(** An endpoint whose every request times out. *)
Definition timing_out : remote := fun _ _ => Fails OtherError.

(** ** Rich text *)

(** The separator of paragraphs. *)
Definition blank_line : string := (FetchIssues.nl ++ FetchIssues.nl)%string.

(** The paragraphs of a text, each without the white space at its ends. *)
Definition trimmed_paragraphs (t : string) : list string :=
  map strip_str (UploadIssues.split_paragraphs t).

(** A text of two paragraphs, the first of two lines. *)
Definition two_paragraphs : string :=
  ("disk full" ++ FetchIssues.nl ++ "on srv-ab1" ++ blank_line ++ "seen again")%string.

(** ** Generated server names *)

(** What a suffix of the pool is: 2 to 10 lower-case letters or digits. *)
Definition good_suffix (s : string) : Prop :=
  Forall (fun c => is_lower_alnum c = true) (of_string s)
  /\ 2 <= length (of_string s) <= 10.

(** A pool of such suffixes, one at least. *)
Definition good_pool (pool : list string) : Prop :=
  pool <> [] /\ Forall good_suffix pool.

(** Draws for the examples. *)
Definition suffix_draws (n : nat) : GenerateIssues.suffix_draw :=
  {| GenerateIssues.length_r := n; GenerateIssues.chars_r := fun i => 7 * i + n |}.

Definition name_draws (p u r : nat) : GenerateIssues.name_draw :=
  {| GenerateIssues.prefix_r := p; GenerateIssues.u_pool := u;
     GenerateIssues.pool_r := r; GenerateIssues.fresh_suffix := suffix_draws 3 |}.

(** ** Generated descriptions *)

(** A formatted template, seen from the extraction: literal text around the
    mentions of the first and of the second server name. *)
Inductive part :=
| Ctx (lit : text)
| Mention (second : bool).

Definition to_part (db_name : string) (p : GenerateIssues.piece) : option part :=
  match p with
  | GenerateIssues.Txt s => Some (Ctx (of_string s))
  | GenerateIssues.Field f =>
      if String.eqb f "server" then Some (Mention false)
      else if String.eqb f "server2" then Some (Mention true)
      else if String.eqb f "db_name" then Some (Ctx (of_string db_name))
      else None
  end.

(** The text that [format] puts in the place of a piece. *)
Definition field_text (server server2 db_name : string) (p : GenerateIssues.piece)
  : option string :=
  match p with
  | GenerateIssues.Txt s => Some s
  | GenerateIssues.Field f =>
      if String.eqb f "server" then Some server
      else if String.eqb f "server2" then Some server2
      else if String.eqb f "db_name" then Some db_name
      else None
  end.

Definition part_text (n1 n2 : text) (p : part) : text :=
  match p with
  | Ctx lit => lit
  | Mention second => if second then n2 else n1
  end.

Definition fill (n1 n2 : text) (ps : list part) : text :=
  flat_map (part_text n1 n2) ps.

Definition mention_order (ps : list part) : list bool :=
  omap (fun p => match p with Mention b => Some b | Ctx _ => None end) ps.

Definition mentions (n1 n2 : text) (ps : list part) : list text :=
  map (fun second : bool => if second then n2 else n1) (mention_order ps).

(** The first character of the parts, a mention standing for its first
    letter. *)
Fixpoint next_char (ps : list part) : option ascii :=
  match ps with
  | [] => None
  | Ctx [] :: rest => next_char rest
  | Ctx (c :: _) :: _ => Some c
  | Mention _ :: _ => Some "s"%char
  end.

Definition is_r (o : option ascii) : bool :=
  match o with
  | Some x => Ascii.eqb (lower_char x) "r"
  | None => false
  end.

(** Whether a match could start at [c], [next] being the character after. *)
Definition starts (c : ascii) (next : option ascii) : bool :=
  Ascii.eqb (lower_char c) "s" && is_r next.

(** No match starts inside [a], [next] being the character after [a]. *)
Fixpoint quiet (next : option ascii) (a : text) : bool :=
  match a with
  | [] => true
  | c :: a' =>
      negb (starts c (match a' with x :: _ => Some x | [] => next end))
      && quiet next a'
  end.

(** The literal texts are quiet and each mention stands between characters
    that are not word characters; [prev_word] tells whether the character
    before is one. *)
Fixpoint placed (prev_word : bool) (ps : list part) : bool :=
  match ps with
  | [] => true
  | Ctx lit :: rest =>
      quiet (next_char rest) lit
      && placed (match last lit with Some c => is_word c | None => prev_word end) rest
  | Mention _ :: rest =>
      negb prev_word && negb (word_opt (next_char rest)) && placed true rest
  end.

Definition opt_space (o : option ascii) : bool :=
  match o with Some c => is_space c | None => false end.

(** Whether the parts end with white space, [prev] telling it of what is
    before them. *)
Fixpoint last_space (prev : bool) (ps : list part) : bool :=
  match ps with
  | [] => prev
  | Ctx lit :: rest =>
      last_space (match last lit with Some c => is_space c | None => prev end) rest
  | Mention _ :: rest => last_space false rest
  end.

Definition plain_part (p : part) : bool :=
  match p with
  | Ctx lit => forallb (fun c => negb (UploadIssues.is_nl c)) lit
  | Mention _ => true
  end.

(** One line of text, with no white space at its ends. *)
Definition tidy (ps : list part) : bool :=
  negb (opt_space (next_char ps)) && negb (last_space false ps) && forallb plain_part ps.

(** The first server alone, or the first and then the second. *)
Definition order_ok (order : list bool) : bool :=
  match order with
  | [false] | [false; true] => true
  | _ => false
  end.

Definition template_check (db_name template : string) : bool :=
  match GenerateIssues.parse template with
  | Some pieces =>
      match mapM (to_part db_name) pieces with
      | Some ps => placed false ps && tidy ps && order_ok (mention_order ps)
      | None => false
      end
  | None => false
  end.

Definition db_names : list string := ["customers"; "orders"; "analytics"; "inventory"].

(** Every technology has templates, and each of them passes the check with
    each data base name. *)
Definition all_checked : bool :=
  forallb
    (fun kv : string * list string =>
       match GenerateIssues.lookup_templates (fst kv) with
       | Some (t :: ts) =>
           forallb (fun t => forallb (fun db => template_check db t) db_names) (t :: ts)
       | _ => false
       end)
    GenerateIssues.TECHNOLOGY_TEMPLATES.

(** The generator draws neither of the two alterations of the text. *)
Definition unaltered (d : GenerateIssues.description_draw) : Prop :=
  5 <= GenerateIssues.u_xyz d /\ 5 <= GenerateIssues.u_drop d.

(** Draws for the examples: the first template of networking. *)
Definition description_draws : GenerateIssues.description_draw :=
  {| GenerateIssues.tech_r := 6; GenerateIssues.template_r := 5;
     GenerateIssues.server_d := name_draws 1 10 3;
     GenerateIssues.server2_d := name_draws 2 95 0;
     GenerateIssues.db_r := 2;
     GenerateIssues.u_xyz := 50; GenerateIssues.u_drop := 50;
     GenerateIssues.drop_d := name_draws 0 0 0 |}.

Definition small_pool : list string := ["ab1"; "zz9"].

(** An issue as the search endpoint returns it, its description being the
    document uploaded for the text generated from these draws. *)
Definition uploaded_ticket : raw_issue :=
  {| raw_key := Some "TON-7"; issuetype_name := Some "Task";
     raw_summary := Some "Ticket 7";
     raw_description :=
       Some (UploadIssues.adf_from_text
               "Network connectivity issues between SRV-zz9 and Srv-dkry5") |}.

(** ** The files of counts as [visualize.py] reads them *)

(** The lines that [aggregate_outputs] writes for a table of servers, and
    for a table of technologies. *)
Definition server_lines (table : list (string * nat)) : list Visualize.count_line :=
  map (fun row => Visualize.CountObject (Some (fst row)) None (Some (snd row))) table.

Definition technology_lines (table : list (string * nat)) : list Visualize.count_line :=
  map (fun row => Visualize.CountObject None (Some (fst row)) (Some (snd row))) table.

(** ** The bulk upload *)

(** The summary of the issue of number [n]. *)
Definition ticket_summary (n : nat) : string := ("Ticket " ++ pretty n)%string.

(** An endpoint that creates every issue of every batch. *)
Definition obliging : UploadIssues.bulk_service :=
  fun _ batch => UploadIssues.Answer 201 (Some (length batch)).

(** An endpoint that answers as if all were well and creates nothing. *)
Definition idle : UploadIssues.bulk_service :=
  fun _ _ => UploadIssues.Answer 201 None.

(** The same draws for every issue. *)
Definition same_draws : nat -> nat -> GenerateIssues.description_draw :=
  fun _ _ => description_draws.

(** ** The first alteration of a generated description *)

Definition srv_dash : text := of_string "srv-".
Definition xyz_dash : text := of_string "xyz-".

(** A name that the replacement of [srv-] leaves as it is: one that does
    not start with these four characters, in lower case. *)
Definition kept (n : text) : bool := negb (GenerateIssues.starts_with srv_dash n).

(** A name after the replacement. *)
Definition altered (n : text) : text :=
  if GenerateIssues.starts_with srv_dash n then xyz_dash ++ drop 4 n else n.

Definition is_dash (o : option ascii) : bool :=
  match o with Some c => Ascii.eqb c "-" | None => false end.

(** No mention is followed by a dash. *)
Fixpoint undashed (ps : list part) : bool :=
  match ps with
  | [] => true
  | Ctx _ :: rest => undashed rest
  | Mention _ :: rest => negb (is_dash (next_char rest)) && undashed rest
  end.

(** What a match, and an occurrence of [srv-], both need at the head of
    [s]: two word characters after the first character, then a dash. *)
Definition could_start (s : text) : bool :=
  match s with
  | _ :: x2 :: x3 :: x4 :: _ => is_word x2 && is_word x3 && Ascii.eqb x4 "-"
  | _ => false
  end.

Definition template_check_xyz (db_name template : string) : bool :=
  match GenerateIssues.parse template with
  | Some pieces =>
      match mapM (to_part db_name) pieces with
      | Some ps => placed false ps && undashed ps && order_ok (mention_order ps)
      | None => false
      end
  | None => false
  end.

Definition all_checked_xyz : bool :=
  forallb
    (fun kv : string * list string =>
       match GenerateIssues.lookup_templates (fst kv) with
       | Some (t :: ts) =>
           forallb (fun t => forallb (fun db => template_check_xyz db t) db_names) (t :: ts)
       | _ => false
       end)
    GenerateIssues.TECHNOLOGY_TEMPLATES.

(** Of the names put in a text, those that the replacement leaves, as
    [extract_servers] returns them. *)
Definition survivors (names : list string) : list string :=
  map (fun s => canonical (of_string s))
      (List.filter (fun s => kept (of_string s)) names).

(** The first alteration is drawn, the second is not. *)
Definition xyz_only (d : GenerateIssues.description_draw) : Prop :=
  GenerateIssues.u_xyz d < 5 /\ 5 <= GenerateIssues.u_drop d.

(** Draws for the examples: the first template of networking, the first
    name with the prefix in lower case, the second with another, and the
    first alteration. *)
Definition xyz_draws : GenerateIssues.description_draw :=
  {| GenerateIssues.tech_r := 6; GenerateIssues.template_r := 5;
     GenerateIssues.server_d := name_draws 0 10 3;
     GenerateIssues.server2_d := name_draws 2 95 0;
     GenerateIssues.db_r := 2;
     GenerateIssues.u_xyz := 3; GenerateIssues.u_drop := 50;
     GenerateIssues.drop_d := name_draws 0 0 0 |}.

(** ** The extraction on Unicode text *)

(** The code points of an ASCII text. *)
Definition codes (s : string) : Unicode.ustr := map N_of_ascii (of_string s).

(** A character of ASCII. *)
Definition ascii7 (c : ascii) : bool := (N_of_ascii c <? 128)%N.

(** The pattern of module [Re], its literals as code points. *)
Definition atom_codes (a : Re.atom) : Unicode.atom :=
  match a with
  | Re.Boundary => Unicode.Boundary
  | Re.Lit c => Unicode.Lit (N_of_ascii c)
  | Re.ClassRep lo hi => Unicode.ClassRep lo hi
  end.

(** The literals of a pattern are ASCII. *)
Definition ascii_atom (a : Re.atom) : Prop :=
  match a with
  | Re.Lit c => ascii7 c = true
  | _ => True
  end.

(** The recognized shape on Unicode text: four characters taken for [s],
    [r], [v] and the separator when case is ignored, then 2 to 10
    characters of the class. *)
Definition u_server_shape (tok : Unicode.ustr) : Prop :=
  exists prefix suffix,
    tok = prefix ++ suffix
    /\ map Unicode.fold prefix = [115; 114; 118; 45]%N
    /\ Forall (fun c => Unicode.in_class c = true) suffix
    /\ 2 <= length suffix <= 10.

(** [tok] is a whole-token match at the head of [s], [prev] being the
    character before: it has the shape and a word boundary on each side. *)
Definition u_whole_token (alnum : N -> bool) (prev : option N)
    (s tok : Unicode.ustr) : Prop :=
  exists post,
    s = tok ++ post
    /\ u_server_shape tok
    /\ Unicode.at_boundary alnum prev s = true
    /\ Unicode.at_boundary alnum (last tok) post = true.

(** The matches taken from left to right, the search resuming after each
    match. *)
Inductive u_scan (alnum : N -> bool)
  : option N -> Unicode.ustr -> list Unicode.ustr -> Prop :=
| u_scan_end prev : u_scan alnum prev [] []
| u_scan_skip prev c s out :
    (forall tok, ~ u_whole_token alnum prev (c :: s) tok) ->
    u_scan alnum (Some c) s out ->
    u_scan alnum prev (c :: s) out
| u_scan_take prev s tok post out :
    s = tok ++ post ->
    u_whole_token alnum prev s tok ->
    u_scan alnum (last tok) post out ->
    u_scan alnum prev s (tok :: out).

Fixpoint u_run_length (hi : nat) (s : Unicode.ustr) : nat :=
  match hi, s with
  | S hi', x :: s' => if Unicode.in_class x then S (u_run_length hi' s') else 0
  | _, _ => 0
  end.

Definition u_boundary_only (alnum : N -> bool) (prev : option N) (s : Unicode.ustr)
  : option Unicode.ustr :=
  Unicode.match_here alnum [Unicode.Boundary] prev s.

Definition u_prefix_ok (x1 x2 x3 x4 : N) : bool :=
  (Unicode.fold x1 =? 115)%N && (Unicode.fold x2 =? 114)%N
  && (Unicode.fold x3 =? 118)%N && (Unicode.fold x4 =? 45)%N.

Definition u_last_or (prev : option N) (a : Unicode.ustr) : option N :=
  match last a with Some c => Some c | None => prev end.


(** A part of the Unicode database, for the examples: the letters of
    Latin-1 and nothing beyond. *)
Definition latin1_letters : N -> bool :=
  fun c =>
    ((c =? 170) || (c =? 181) || (c =? 186)
     || ((192 <=? c) && (c <=? 214)) || ((216 <=? c) && (c <=? 246))
     || ((248 <=? c) && (c <=? 255)))%N.

(** The long s and the dotted capital I, and a text with each. *)
Definition long_s : N := 383%N.
Definition dotted_I : N := 304%N.
Definition e_acute : N := 233%N.

(** The code points of a text of the ASCII model. *)
Definition code_points (s : text) : Unicode.ustr := map N_of_ascii s.

(** A text of ASCII characters, and a character before it that is one, if
    any. *)
Definition ascii_text (s : text) : Prop := Forall (fun c => ascii7 c = true) s.

Definition ascii_opt (o : option ascii) : Prop :=
  match o with Some c => ascii7 c = true | None => True end.

(** * Properties *)

(** ** Strings *)

Section StringFacts.

Lemma to_of_string (s : string) : to_string (of_string s) = s.
Proof. apply string_of_list_ascii_of_string. Qed.

Lemma of_to_string (s : text) : of_string (to_string s) = s.
Proof. apply list_ascii_of_string_of_list_ascii. Qed.

Lemma lower_char_not_upper (c : ascii) : is_upper (lower_char c) = false.
Proof.
  destruct c as [b0 b1 b2 b3 b4 b5 b6 b7].
  destruct b0, b1, b2, b3, b4, b5, b6, b7; reflexivity.
Qed.

Lemma lower_char_space (c : ascii) : is_space (lower_char c) = is_space c.
Proof.
  destruct c as [b0 b1 b2 b3 b4 b5 b6 b7].
  destruct b0, b1, b2, b3, b4, b5, b6, b7; reflexivity.
Qed.

Lemma lower_no_upper (s : text) :
  Forall (fun c => is_upper c = false) (lower s).
Proof.
  unfold lower. induction s as [|c s IH]; simpl; constructor; auto.
  apply lower_char_not_upper.
Qed.

(** [lstrip_by] removes a prefix of characters that satisfy [p]. *)
Lemma lstrip_by_split (p : ascii -> bool) (s : text) :
  exists pre, s = pre ++ lstrip_by p s /\ Forall (fun c => p c = true) pre.
Proof.
  induction s as [|c s [pre [Heq Hpre]]]; simpl.
  - exists []. split; [reflexivity | constructor].
  - destruct (p c) eqn:Hc.
    + exists (c :: pre). split; [simpl; congruence | constructor; assumption].
    + exists []. split; [reflexivity | constructor].
Qed.

Lemma lstrip_by_head (p : ascii -> bool) (s : text) (c : ascii) (t : text) :
  lstrip_by p s = c :: t -> p c = false.
Proof.
  induction s as [|x s IH]; simpl; [discriminate|].
  destruct (p x) eqn:Hx; [assumption|].
  intros [= -> _]. assumption.
Qed.

Lemma rstrip_by_split (p : ascii -> bool) (s : text) :
  exists post, s = rstrip_by p s ++ post /\ Forall (fun c => p c = true) post.
Proof.
  unfold rstrip_by.
  destruct (lstrip_by_split p (rev s)) as [pre [Heq Hpre]].
  exists (rev pre). split.
  - rewrite <- rev_app_distr, <- Heq, rev_involutive. reflexivity.
  - apply Forall_rev. assumption.
Qed.

(** [strip_by] removes a prefix and a suffix of characters that satisfy
    [p], and nothing in between. *)
Lemma strip_by_split (p : ascii -> bool) (s : text) :
  exists pre post,
    s = pre ++ strip_by p s ++ post
    /\ Forall (fun c => p c = true) pre
    /\ Forall (fun c => p c = true) post.
Proof.
  unfold strip_by.
  destruct (lstrip_by_split p s) as [pre [Heq Hpre]].
  destruct (rstrip_by_split p (lstrip_by p s)) as [post [Heq' Hpost]].
  exists pre, post. split; [|split; assumption].
  rewrite <- Heq'. assumption.
Qed.

Lemma split_go_first (s : text) : forall cur tok rest,
  split_go cur s = tok :: rest ->
  exists pre body post,
    s = pre ++ body ++ post
    /\ tok = rev cur ++ body
    /\ Forall (fun c => is_space c = false) body
    /\ ends_token post
    /\ (cur = [] -> Forall (fun c => is_space c = true) pre)
    /\ (cur <> [] -> pre = []).
Proof.
  induction s as [|c s IH]; intros cur tok rest; simpl.
  - destruct cur as [|x cur]; [discriminate|].
    intros [= <- _]. exists [], [], [].
    split_and!; simpl; rewrite ?app_nil_r; auto; intros; congruence.
  - destruct (is_space c) eqn:Hc.
    + destruct cur as [|x cur].
      * intros H.
        destruct (IH _ _ _ H) as (pre & body & post & Hs & Ht & Hb & He & Hp & _).
        exists (c :: pre), body, post.
        split_and!; simpl; auto; congruence.
      * intros [= <- _]. exists [], [], (c :: s).
        split_and!; simpl; rewrite ?app_nil_r; auto; intros; congruence.
    + intros H.
      destruct (IH _ _ _ H) as (pre & body & post & Hs & Ht & Hb & He & _ & Hp).
      rewrite (Hp ltac:(discriminate)) in Hs. simpl in Hs, Ht.
      exists [], (c :: body), post.
      split_and!; simpl; auto; try congruence.
      rewrite Ht, <- app_assoc. reflexivity.
Qed.

(** The first element of [split]: blanks before it, no blank inside it,
    and the end of the text or a blank after it. *)
Lemma split_first (s tok : text) (rest : list text) :
  split s = tok :: rest ->
  exists pre post,
    s = pre ++ tok ++ post
    /\ Forall (fun c => is_space c = true) pre
    /\ Forall (fun c => is_space c = false) tok
    /\ ends_token post.
Proof.
  intros H. destruct (split_go_first _ _ _ _ H) as (pre & body & post & -> & -> & Hb & He & Hp & _).
  exists pre, post. simpl. auto.
Qed.

Lemma split_go_nonempty (s : text) : forall cur,
  Forall (fun t => t <> []) (split_go cur s) /\ (cur <> [] -> split_go cur s <> []).
Proof.
  induction s as [|c s IH]; intros cur; simpl.
  - destruct cur as [|x cur]; split; try constructor; try congruence; auto.
    intros E. apply (f_equal (@length _)) in E. simpl in E. rewrite length_app in E. simpl in E. lia.
  - destruct (is_space c).
    + destruct cur as [|x cur].
      * split; [apply IH | congruence].
      * split; [|discriminate]. constructor; [|apply IH].
        intros E. apply (f_equal (@length _)) in E. simpl in E. rewrite length_app in E. simpl in E. lia.
    + split; [apply IH|]. intros _. apply IH. discriminate.
Qed.

End StringFacts.

(** ** The classifier *)

Section Classifier.

Lemma length_snoc {A : Type} (l : list A) (x : A) : length (l ++ [x]) = S (length l).
Proof. rewrite length_app. simpl. lia. Qed.

Lemma ask_once_failure (svc : service) (user : string) (sent : list request) :
  svc (length sent) {| system_msg := TECH_PROMPT_SYSTEM; user_msg := user |} = Failure ->
  ask_once svc user sent
  = (Raised, sent ++ [{| system_msg := TECH_PROMPT_SYSTEM; user_msg := user |}]).
Proof. intros H. unfold ask_once. rewrite H. reflexivity. Qed.

Lemma ask_once_content (svc : service) (user : string) (sent : list request) c :
  svc (length sent) {| system_msg := TECH_PROMPT_SYSTEM; user_msg := user |} = Content c ->
  ask_once svc user sent
  = (normalize c, sent ++ [{| system_msg := TECH_PROMPT_SYSTEM; user_msg := user |}]).
Proof. intros H. unfold ask_once. rewrite H. reflexivity. Qed.

(** A first attempt that raises ends the call: one request, the fallback. *)
Lemma classify_first_raises (svc : service) (text : string) (sent : list request) :
  has_text text = true ->
  svc (length sent) (request_for text) = Failure ->
  classify_technology svc text sent = (UNCLASSIFIED_LABEL, sent ++ [request_for text]).
Proof.
  intros Ht Hf. unfold classify_technology. rewrite Ht. simpl.
  rewrite (ask_once_failure _ _ _ Hf). reflexivity.
Qed.

(** A first answer that is an allowed label is returned at once. *)
Lemma classify_first_allowed (svc : service) (text : string) (sent : list request) c tok :
  has_text text = true ->
  svc (length sent) (request_for text) = Content c ->
  normalize c = Returned tok ->
  allowed tok = true ->
  classify_technology svc text sent = (tok, sent ++ [request_for text]).
Proof.
  intros Ht Hc Hn Ha. unfold classify_technology. rewrite Ht. simpl.
  rewrite (ask_once_content _ _ _ _ Hc), Hn, Ha. reflexivity.
Qed.

(** A first answer outside the allowed set is followed by one more request,
    the same one, and the second answer decides. *)
Lemma classify_first_rejected (svc : service) (text : string) (sent : list request) c tok :
  has_text text = true ->
  svc (length sent) (request_for text) = Content c ->
  normalize c = Returned tok ->
  allowed tok = false ->
  classify_technology svc text sent
  = (second_label (svc (S (length sent)) (request_for text)),
     sent ++ [request_for text; request_for text]).
Proof.
  intros Ht Hc Hn Ha. unfold classify_technology. rewrite Ht. simpl.
  rewrite (ask_once_content _ _ _ _ Hc), Hn, Ha.
  unfold ask_once. rewrite length_snoc.
  fold (request_for text).
  replace (sent ++ [request_for text; request_for text])
    with ((sent ++ [request_for text]) ++ [request_for text])
    by (rewrite <- app_assoc; reflexivity).
  destruct (svc (S (length sent)) (request_for text)) as [c2|]; simpl; [|reflexivity].
  destruct (normalize c2) as [t2|]; reflexivity.
Qed.

Lemma normalize_shape (content : option string) (tok : string) :
  normalize content = Returned tok ->
  let raw := lower (strip (of_string (default "" content))) in
  (raw = [] /\ tok = "")
  \/ (exists pre post,
        raw = pre ++ of_string tok ++ post
        /\ tok <> ""
        /\ Forall (fun c => trimmed c = true) pre
        /\ (ends_token post \/ Forall (fun c => mem_char quoting c = true) post)
        /\ Forall (fun c => is_space c = false /\ is_upper c = false) (of_string tok)).
Proof.
  intros H raw. unfold normalize in H. fold raw in H.
  assert (Hup : Forall (fun c => is_upper c = false) raw) by apply lower_no_upper.
  destruct raw as [|r0 raw'] eqn:Hraw.
  { left. split; [reflexivity | congruence]. }
  right. rewrite <- Hraw in *.
  destruct (split (strip_chars quoting raw)) as [|t rest] eqn:Hsplit; [discriminate|].
  injection H as <-.
  destruct (strip_by_split (mem_char quoting) raw) as (pre1 & post1 & Hr & Hpre1 & Hpost1).
  destruct (split_first _ _ _ Hsplit) as (pre2 & post2 & Hs & Hpre2 & Htok & Hpost2).
  fold (strip_chars quoting raw) in Hr. rewrite Hs in Hr.
  exists (pre1 ++ pre2), (post2 ++ post1). rewrite of_to_string.
  split_and!.
  - rewrite Hr. rewrite <- !app_assoc. reflexivity.
  - intros E. apply (f_equal of_string) in E. rewrite of_to_string in E. simpl in E.
    pose proof (proj1 (split_go_nonempty (strip_chars quoting raw) [])) as Hne.
    fold (split (strip_chars quoting raw)) in Hne. rewrite Hsplit in Hne.
    inversion Hne; subst. congruence.
  - apply Forall_app. split.
    + eapply Forall_impl; [eassumption|]. intros c Hc. unfold trimmed. rewrite Hc. apply orb_true_r.
    + eapply Forall_impl; [eassumption|]. intros c Hc. unfold trimmed. rewrite Hc. reflexivity.
  - destruct post2 as [|p post2]; [right; assumption | left; assumption].
  - rewrite Hr in Hup.
    apply Forall_app in Hup as [_ Hup]. apply Forall_app in Hup as [Hup _].
    apply Forall_app in Hup as [_ Hup]. apply Forall_app in Hup as [Hup _].
    rewrite Forall_forall in *. intros c Hc. split; auto.
Qed.

End Classifier.

Section ClassifierClaims.

(** C3, as stated, fails: the response [Database.] is normalized to
    [database.], the full stop kept, which is not the allowed label
    [database]; [classify_technology] then asks a second time and, the
    answer being the same, returns the fallback label. *)
Lemma normalize_database_dot_counterexample :
  normalize (Some "Database.") <> Returned "database"
  /\ classify_technology (always_says "Database.") "db is down" []
     = (UNCLASSIFIED_LABEL, [request_for "db is down"; request_for "db is down"]).
Proof. split; [discriminate | reflexivity]. Qed.

(** C3, amended: the normalization strips blanks from both ends,
    lower-cases, strips backticks, quotes and spaces from both ends, and
    keeps the first blank-delimited token; other punctuation stays. So the
    token returned has no blank and no upper-case letter, only trimmed
    characters stand before it, and a blank, the end, or quoting characters
    only stand after it. The response [Database.] gives [database.], which
    is not allowed, so a second request is made and the fallback label is
    returned when the answer is the same; the response [Database] between
    double quotes and spaces gives [database], returned at the first
    attempt. *)
Theorem normalize_trims_quoting_not_punctuation :
  (forall content tok,
      normalize content = Returned tok ->
      let raw := lower (strip (of_string (default "" content))) in
      (raw = [] /\ tok = "")
      \/ (exists pre post,
            raw = pre ++ of_string tok ++ post
            /\ tok <> ""
            /\ Forall (fun c => trimmed c = true) pre
            /\ (ends_token post \/ Forall (fun c => mem_char quoting c = true) post)
            /\ Forall (fun c => is_space c = false /\ is_upper c = false) (of_string tok)))
  /\ normalize (Some "Database.") = Returned "database."
  /\ allowed "database." = false
  /\ (forall svc text sent,
        has_text text = true ->
        svc (length sent) (request_for text) = Content (Some "Database.") ->
        classify_technology svc text sent
        = (second_label (svc (S (length sent)) (request_for text)),
           sent ++ [request_for text; request_for text])
        /\ second_label (Content (Some "Database.")) = UNCLASSIFIED_LABEL)
  /\ normalize (Some quoted_database) = Returned "database"
  /\ (forall svc text sent,
        has_text text = true ->
        svc (length sent) (request_for text) = Content (Some quoted_database) ->
        classify_technology svc text sent = ("database", sent ++ [request_for text])).
Proof.
  split_and!.
  - apply normalize_shape.
  - reflexivity.
  - reflexivity.
  - intros svc text sent Ht Hc. split; [|reflexivity].
    eapply classify_first_rejected; eauto; reflexivity.
  - reflexivity.
  - intros svc text sent Ht Hc.
    eapply classify_first_allowed; eauto; reflexivity.
Qed.

Lemma normalize_trims_quoting_not_punctuation_witness :
  classify_technology (always_says "Database.") "db is down" []
  = (UNCLASSIFIED_LABEL, [request_for "db is down"; request_for "db is down"])
  /\ classify_technology (always_says quoted_database) "db is down" []
     = ("database", [request_for "db is down"])
  /\ exists pre post,
       lower (strip (of_string quoted_database)) = pre ++ of_string "database" ++ post
       /\ Forall (fun c => trimmed c = true) pre.
Proof.
  destruct normalize_trims_quoting_not_punctuation as (Hshape & _ & _ & Hdot & _ & Hq).
  split_and!.
  - apply (Hdot (always_says "Database.") "db is down" []); reflexivity.
  - apply (Hq (always_says quoted_database) "db is down" []); reflexivity.
  - destruct (Hshape (Some quoted_database) "database" eq_refl)
      as [[Hraw _] | (pre & post & Hraw & _ & Hpre & _)].
    + discriminate Hraw.
    + exists pre, post. split; assumption.
Defined.

(** C5, as stated, fails: with a service whose first call raises and whose
    second call would answer [database], one request is made and the
    fallback label is returned. *)
Lemma no_retry_after_failure_counterexample :
  ~ retried_after_failure fails_once "db is down".
Proof.
  unfold retried_after_failure. intros H.
  specialize (H eq_refl). vm_compute in H. destruct H as [H _]. discriminate H.
Qed.

(** C5, amended: a first request that fails with a transport or remote
    error is not retried: the fallback label is returned after that single
    request. The one retry, with the same request, is made only when the
    first response is normalized to a token outside the allowed set, and
    then the fallback label is returned unless the second response is an
    allowed label. *)
Theorem classify_failure_is_not_retried (svc : service) (text : string)
    (sent : list request) :
  has_text text = true ->
  (svc (length sent) (request_for text) = Failure ->
   classify_technology svc text sent
   = (UNCLASSIFIED_LABEL, sent ++ [request_for text]))
  /\ (forall c tok,
        svc (length sent) (request_for text) = Content c ->
        normalize c = Returned tok ->
        allowed tok = false ->
        classify_technology svc text sent
        = (second_label (svc (S (length sent)) (request_for text)),
           sent ++ [request_for text; request_for text])).
Proof.
  intros Ht. split.
  - intros Hf. apply classify_first_raises; assumption.
  - intros c tok Hc Hn Ha. eapply classify_first_rejected; eauto.
Qed.

Lemma classify_failure_is_not_retried_witness :
  classify_technology fails_once "db is down" []
  = (UNCLASSIFIED_LABEL, [request_for "db is down"])
  /\ classify_technology (always_says "banana") "db is down" []
     = (UNCLASSIFIED_LABEL, [request_for "db is down"; request_for "db is down"]).
Proof.
  split.
  - apply (proj1 (classify_failure_is_not_retried fails_once "db is down" [] eq_refl)).
    reflexivity.
  - apply (proj2 (classify_failure_is_not_retried (always_says "banana") "db is down" []
                    eq_refl) (Some "banana") "banana");
      reflexivity.
Defined.

End ClassifierClaims.

(** ** Counters and the frequency tables *)

Section Counters.

Lemma count_in_cons (name : string) (p : string * nat) (t : list (string * nat)) :
  count_in name (p :: t) = if String.eqb name (fst p) then snd p else count_in name t.
Proof. unfold count_in. simpl. destruct (String.eqb name (fst p)); reflexivity. Qed.

Lemma count_in_counter_add (k name : string) (c : counter) :
  count_in name (counter_add k c)
  = count_in name c + (if String.eqb name k then 1 else 0).
Proof.
  induction c as [|[k' n] c IH]; simpl.
  - rewrite count_in_cons. simpl. destruct (String.eqb name k); reflexivity.
  - destruct (String.eqb k k') eqn:Hk; rewrite !count_in_cons; simpl.
    + apply String.eqb_eq in Hk. subst k'.
      destruct (String.eqb name k); lia.
    + destruct (String.eqb name k') eqn:Hn; [|apply IH].
      apply String.eqb_eq in Hn. subst k'.
      rewrite String.eqb_sym, Hk. lia.
Qed.

Lemma count_in_counter_update (elems : list string) : forall (name : string) (c : counter),
  count_in name (counter_update elems c)
  = count_in name c + count_occ string_dec elems name.
Proof.
  unfold counter_update.
  induction elems as [|e elems IH]; intros name c; simpl; [lia|].
  rewrite IH, count_in_counter_add.
  destruct (string_dec e name) as [->|Hne].
  - rewrite String.eqb_refl. lia.
  - destruct (String.eqb name e) eqn:E; [|lia].
    apply String.eqb_eq in E. congruence.
Qed.

Lemma In_keys_counter_add (k x : string) (c : counter) :
  In x (map fst (counter_add k c)) <-> x = k \/ In x (map fst c).
Proof.
  induction c as [|[k' n] c IH]; simpl.
  - intuition.
  - destruct (String.eqb k k') eqn:Hk; simpl.
    + apply String.eqb_eq in Hk. subst k'. intuition.
    + rewrite IH. intuition.
Qed.

Lemma NoDup_keys_counter_add (k : string) (c : counter) :
  List.NoDup (map fst c) -> List.NoDup (map fst (counter_add k c)).
Proof.
  induction c as [|[k' n] c IH]; simpl; intros Hnd.
  - constructor; [intros []| constructor].
  - inversion Hnd as [|? ? Hnotin Hnd']; subst.
    destruct (String.eqb k k') eqn:Hk; simpl.
    + constructor; assumption.
    + constructor; [|apply IH; assumption].
      rewrite In_keys_counter_add. intros [->|Hin]; [|contradiction].
      rewrite String.eqb_refl in Hk. discriminate.
Qed.

Lemma NoDup_keys_counter_update (elems : list string) : forall c : counter,
  List.NoDup (map fst c) -> List.NoDup (map fst (counter_update elems c)).
Proof.
  unfold counter_update.
  induction elems as [|e elems IH]; intros c Hnd; simpl; [assumption|].
  apply IH, NoDup_keys_counter_add, Hnd.
Qed.

Lemma In_insert_desc (x y : string * nat) (l : list (string * nat)) :
  In y (insert_desc x l) <-> y = x \/ In y l.
Proof.
  induction l as [|z l IH]; simpl; [intuition|].
  destruct (snd x <? snd z); simpl; [rewrite IH|]; intuition.
Qed.

Lemma In_most_common (y : string * nat) (c : counter) :
  In y (most_common c) <-> In y c.
Proof.
  unfold most_common. induction c as [|x c IH]; simpl; [reflexivity|].
  rewrite In_insert_desc, IH. intuition.
Qed.

Lemma count_in_absent (name : string) (t : list (string * nat)) :
  ~ In name (map fst t) -> count_in name t = 0.
Proof.
  induction t as [|p t IH]; simpl; intros Hn; [reflexivity|].
  rewrite count_in_cons.
  destruct (String.eqb name (fst p)) eqn:E.
  - apply String.eqb_eq in E. exfalso. apply Hn. left. congruence.
  - apply IH. intros Hin. apply Hn. right. assumption.
Qed.

Lemma count_in_insert_desc (name : string) (x : string * nat) (l : list (string * nat)) :
  ~ In (fst x) (map fst l) ->
  count_in name (insert_desc x l) = count_in name (x :: l).
Proof.
  induction l as [|y l IH]; simpl; intros Hx; [reflexivity|].
  destruct (snd x <? snd y); [|reflexivity].
  rewrite !count_in_cons.
  destruct (String.eqb name (fst y)) eqn:Ey.
  - destruct (String.eqb name (fst x)) eqn:Ex; [|reflexivity].
    apply String.eqb_eq in Ey, Ex. exfalso. apply Hx. left. congruence.
  - rewrite IH by (intros Hin; apply Hx; right; assumption).
    rewrite count_in_cons. reflexivity.
Qed.

(** Sorting a counter keeps the count of every name. *)
Lemma count_in_most_common (name : string) (c : counter) :
  List.NoDup (map fst c) -> count_in name (most_common c) = count_in name c.
Proof.
  induction c as [|x c IH]; simpl; intros Hnd; [reflexivity|].
  inversion Hnd as [|? ? Hnotin Hnd']; subst.
  change (most_common (x :: c)) with (insert_desc x (most_common c)).
  rewrite count_in_insert_desc.
  - rewrite !count_in_cons, IH by assumption. reflexivity.
  - intros Hin. apply Hnotin.
    apply in_map_iff in Hin as [y [Hy Hin]].
    apply (proj1 (In_most_common _ _)) in Hin.
    apply in_map_iff. exists y. split; assumption.
Qed.

Lemma NoDup_keys_fold_count_label (lines : list (line tech_record)) : forall c : counter,
  List.NoDup (map fst c) -> List.NoDup (map fst (fold_left count_label lines c)).
Proof.
  induction lines as [|ln lines IH]; intros c Hnd; cbn [fold_left]; [assumption|].
  apply IH. unfold count_label. destruct ln as [|obj]; [assumption|].
  destruct (label obj) as [l|]; [|assumption].
  destruct (truthy l); [|assumption].
  apply NoDup_keys_counter_update, Hnd.
Qed.

Lemma NoDup_keys_fold_count_servers (lines : list (line servers_record)) :
  forall acc : counter * gset (option string),
  List.NoDup (map fst (fst acc)) ->
  List.NoDup (map fst (fst (fold_left count_servers lines acc))).
Proof.
  induction lines as [|ln lines IH]; intros acc Hnd; cbn [fold_left]; [assumption|].
  apply IH. unfold count_servers. destruct ln as [|obj]; [assumption|].
  destruct (servers obj) as [|s ss] eqn:Hs; [assumption|]. cbn [fst].
  apply NoDup_keys_counter_update, Hnd.
Qed.

End Counters.

(** ** The aggregator *)

Section Aggregator.

Lemma tech_counter_of_snoc (lines : list (line tech_record)) (ln : line tech_record) :
  tech_counter_of (lines ++ [ln]) = count_label (tech_counter_of lines) ln.
Proof. unfold tech_counter_of. rewrite fold_left_app. reflexivity. Qed.

Lemma servers_fold_snoc (lines : list (line servers_record)) (ln : line servers_record) :
  servers_fold (lines ++ [ln]) = count_servers (servers_fold lines) ln.
Proof. unfold servers_fold. rewrite fold_left_app. reflexivity. Qed.

Lemma NoDup_keys_tech_counter (lines : list (line tech_record)) :
  List.NoDup (map fst (tech_counter_of lines)).
Proof. apply NoDup_keys_fold_count_label. constructor. Qed.

Lemma NoDup_keys_server_counter (lines : list (line servers_record)) :
  List.NoDup (map fst (fst (servers_fold lines))).
Proof. apply NoDup_keys_fold_count_servers. constructor. Qed.

(** [keys_with_servers] holds the keys of the records that list a server. *)
Lemma keys_with_servers_fold (lines : list (line servers_record)) :
  forall (acc : counter * gset (option string)) (k : option string),
  k ∈ snd (fold_left count_servers lines acc)
  <-> k ∈ snd acc
      \/ exists obj, In (Parsed obj) lines /\ srv_key obj = k /\ servers obj <> [].
Proof.
  induction lines as [|ln lines IH]; intros acc k; cbn [fold_left].
  - split; [auto | intros [H | (obj & [] & _)]; assumption].
  - rewrite IH. split.
    + intros [Hk | (obj & Hin & Hkey & Hs)].
      * destruct ln as [|obj]; [left; assumption|].
        unfold count_servers in Hk.
        destruct (servers obj) as [|s ss] eqn:Hs; [left; assumption|].
        cbn [snd] in Hk. apply elem_of_union in Hk as [Hk | Hk]; [left; assumption|].
        apply elem_of_singleton in Hk. right. exists obj.
        split_and!; [left; reflexivity | congruence | congruence].
      * right. exists obj. split_and!; [right; assumption | assumption | assumption].
    + intros [Hk | (obj & [Heq | Hin] & Hkey & Hs)].
      * left. destruct ln as [|obj]; [assumption|]. unfold count_servers.
        destruct (servers obj); [assumption|]. cbn [snd].
        apply elem_of_union. left. assumption.
      * left. subst ln. unfold count_servers.
        destruct (servers obj) as [|s ss] eqn:Hso; [congruence|].
        cbn [snd]. apply elem_of_union. right. apply elem_of_singleton. congruence.
      * right. exists obj. auto.
Qed.

Lemma keys_with_servers_spec (lines : list (line servers_record)) (k : option string) :
  k ∈ snd (servers_fold lines)
  <-> exists obj, In (Parsed obj) lines /\ srv_key obj = k /\ servers obj <> [].
Proof.
  unfold servers_fold. rewrite keys_with_servers_fold. cbn [snd].
  split; [intros [H | H]; [set_solver | assumption] | auto].
Qed.

(** An item is listed in the unresolved report exactly when no record of
    the extraction log with its key lists a server. *)
Lemma unresolved_of_spec (keys : gset (option string)) (issues_all : list issue)
    (e : unresolved_entry) :
  In e (unresolved_of keys issues_all)
  <-> exists i, In i issues_all /\ (key i ∉ keys)
                /\ e = {| u_key := key i; u_summary := summary i |}.
Proof.
  unfold unresolved_of. rewrite in_map_iff. split.
  - intros (i & <- & Hin). apply list_elem_of_In, list_elem_of_filter in Hin as [Hk Hin].
    exists i. split_and!; [apply list_elem_of_In; assumption | assumption | reflexivity].
  - intros (i & Hin & Hk & ->). exists i. split; [reflexivity|].
    apply list_elem_of_In, list_elem_of_filter. split; [assumption|].
    apply list_elem_of_In; assumption.
Qed.

Lemma count_in_count_label (name : string) (c : counter) (r : tech_record) :
  count_in name (count_label c (Parsed r))
  = count_in name c + (if is_label name (label r) then 1 else 0).
Proof.
  unfold count_label, is_label. destruct (label r) as [l|]; [|lia].
  destruct (truthy l); [|simpl; lia].
  rewrite count_in_counter_update. simpl.
  destruct (string_dec l name) as [->|Hne].
  - rewrite String.eqb_refl. reflexivity.
  - destruct (String.eqb name l) eqn:E; [|reflexivity].
    apply String.eqb_eq in E. congruence.
Qed.

Lemma count_in_count_servers (name : string) (acc : counter * gset (option string))
    (r : servers_record) :
  count_in name (fst (count_servers acc (Parsed r)))
  = count_in name (fst acc) + count_occ string_dec (servers r) name.
Proof.
  unfold count_servers. destruct (servers r) as [|s ss] eqn:Hs; [simpl; lia|].
  cbn [fst]. rewrite count_in_counter_update. reflexivity.
Qed.

End Aggregator.

Section AggregatorClaims.

(** C8: the aggregator is a function of the two logs and the collection.
    Run on its own result it changes nothing, so a second run in a row
    writes the same three artifacts; what the three artifacts held before
    the run has no influence on what they hold after it; the logs are left
    as they were; and every run writes all three artifacts. *)
Theorem aggregate_outputs_idempotent (issues_all : list issue) (f : files) :
  aggregate_outputs issues_all (aggregate_outputs issues_all f)
  = aggregate_outputs issues_all f
  /\ (forall tc sc u,
        aggregate_outputs issues_all
          {| TECH_PER_ISSUE := TECH_PER_ISSUE f;
             SERVERS_PER_ISSUE := SERVERS_PER_ISSUE f;
             TECH_COUNTS := tc; SERVER_COUNTS := sc; UNRESOLVED_JSON := u |}
        = aggregate_outputs issues_all f)
  /\ TECH_PER_ISSUE (aggregate_outputs issues_all f) = TECH_PER_ISSUE f
  /\ SERVERS_PER_ISSUE (aggregate_outputs issues_all f) = SERVERS_PER_ISSUE f
  /\ TECH_COUNTS (aggregate_outputs issues_all f)
     = Some (most_common (tech_counter_of (TECH_PER_ISSUE f)))
  /\ SERVER_COUNTS (aggregate_outputs issues_all f)
     = Some (most_common (fst (servers_fold (SERVERS_PER_ISSUE f))))
  /\ UNRESOLVED_JSON (aggregate_outputs issues_all f)
     = Some (unresolved_of (snd (servers_fold (SERVERS_PER_ISSUE f))) issues_all).
Proof. destruct f. split_and!; reflexivity. Qed.

(** C2, as stated, fails: a second record for the key A in each log raises
    the count of its label and of its server from one to two. *)
Lemma duplicate_record_changes_counts_counterexample :
  In (Parsed (tech_db "A")) (TECH_PER_ISSUE one_each)
  /\ In (Parsed (srv_ab "A")) (SERVERS_PER_ISSUE one_each)
  /\ TECH_COUNTS (aggregate_outputs [] one_each) = Some [("database", 1)]
  /\ TECH_COUNTS (aggregate_outputs [] (append_tech (tech_db "A") one_each))
     = Some [("database", 2)]
  /\ SERVER_COUNTS (aggregate_outputs [] one_each) = Some [("srv-ab", 1)]
  /\ SERVER_COUNTS (aggregate_outputs [] (append_servers (srv_ab "A") one_each))
     = Some [("srv-ab", 2)].
Proof. split_and!; try reflexivity; left; reflexivity. Qed.

(** C2, amended: appending again a record that the extraction log already
    holds leaves the unresolved report as it was, and appending to the
    classification log never touches it: the report depends on the set of
    keys with a server only. The two frequency tables count log lines, not
    keys: a record appended to the classification log adds one to the count
    of its label, and a record appended to the extraction log adds to the
    count of each server the number of times the record lists it, whether
    or not the key already has a record. *)
Theorem duplicate_records_spare_unresolved_only (issues_all : list issue) (f : files) :
  (forall r,
      In (Parsed r) (SERVERS_PER_ISSUE f) ->
      UNRESOLVED_JSON (aggregate_outputs issues_all (append_servers r f))
      = UNRESOLVED_JSON (aggregate_outputs issues_all f))
  /\ (forall r,
        UNRESOLVED_JSON (aggregate_outputs issues_all (append_tech r f))
        = UNRESOLVED_JSON (aggregate_outputs issues_all f))
  /\ (forall r name,
        count_of name (TECH_COUNTS (aggregate_outputs issues_all (append_tech r f)))
        = count_of name (TECH_COUNTS (aggregate_outputs issues_all f))
          + (if is_label name (label r) then 1 else 0))
  /\ (forall r name,
        count_of name (SERVER_COUNTS (aggregate_outputs issues_all (append_servers r f)))
        = count_of name (SERVER_COUNTS (aggregate_outputs issues_all f))
          + count_occ string_dec (servers r) name).
Proof.
  split_and!.
  - intros r Hin. simpl. f_equal. f_equal.
    rewrite servers_fold_snoc. unfold count_servers.
    destruct (servers r) as [|s ss] eqn:Hs; [reflexivity|]. cbn [snd].
    assert (Hk : srv_key r ∈ snd (servers_fold (SERVERS_PER_ISSUE f))).
    { apply keys_with_servers_spec. exists r. split_and!; [assumption | reflexivity | congruence]. }
    apply set_eq. intros k. rewrite elem_of_union, elem_of_singleton.
    split; [intros [H | ->]; assumption | auto].
  - intros r. reflexivity.
  - intros r name. simpl.
    rewrite tech_counter_of_snoc.
    rewrite !count_in_most_common.
    + apply count_in_count_label.
    + apply NoDup_keys_tech_counter.
    + rewrite <- tech_counter_of_snoc. apply NoDup_keys_tech_counter.
  - intros r name. simpl.
    rewrite servers_fold_snoc.
    rewrite !count_in_most_common.
    + apply count_in_count_servers.
    + apply NoDup_keys_server_counter.
    + rewrite <- servers_fold_snoc. apply NoDup_keys_server_counter.
Qed.

Lemma duplicate_records_spare_unresolved_only_witness :
  UNRESOLVED_JSON
    (aggregate_outputs [] (append_servers (srv_ab "A") one_each))
  = UNRESOLVED_JSON (aggregate_outputs [] one_each).
Proof.
  apply (proj1 (duplicate_records_spare_unresolved_only [] one_each) (srv_ab "A")).
  left. reflexivity.
Defined.

End AggregatorClaims.

(** ** The enrichment loop *)

Section Enrichment.

Lemma covered_append_servers (r : servers_record) (f : files) :
  covered f -> covered (append_servers r f).
Proof.
  intros Hc t Ht. destruct (Hc t Ht) as (r' & Hin & Hk).
  exists r'. split; [|assumption]. simpl. apply in_or_app. left. assumption.
Qed.

Lemma covered_append_both (k : option string) (ss : list string) (l : option string)
    (f : files) :
  covered f ->
  covered (append_tech {| tech_key := k; label := l |}
             (append_servers {| srv_key := k; servers := ss |} f)).
Proof.
  intros Hc t Ht. simpl in Ht. apply in_app_or in Ht as [Ht | [Ht | []]].
  - destruct (Hc t Ht) as (r' & Hin & Hk).
    exists r'. split; [|assumption]. simpl. apply in_or_app. left. assumption.
  - injection Ht as <-. exists {| srv_key := k; servers := ss |}.
    split; [|reflexivity]. simpl. apply in_or_app. right. left. reflexivity.
Qed.

Lemma enrich_loop_covered (svc : service) (done : gset string) (issues : list issue) :
  forall budget f sent,
    covered f -> covered (fst (enrich_loop svc done issues budget f sent)).
Proof.
  induction issues as [|i rest IH]; intros budget f sent Hc; simpl; [assumption|].
  destruct (key_in (key i) done); [apply IH; assumption|].
  destruct budget as [|b]; [assumption|].
  destruct (classify_technology svc _ sent) as [lbl sent1].
  destruct b as [|b'].
  - apply covered_append_servers. assumption.
  - apply IH. apply covered_append_both. assumption.
Qed.

(** The loop only appends, and an extraction record it appends has the key
    of one of the items it was given. *)
Lemma enrich_loop_servers (svc : service) (done : gset string) (issues : list issue) :
  forall budget f sent r,
    In (Parsed r) (SERVERS_PER_ISSUE (fst (enrich_loop svc done issues budget f sent))) ->
    In (Parsed r) (SERVERS_PER_ISSUE f)
    \/ exists i, In i issues /\ srv_key r = key i.
Proof.
  induction issues as [|i rest IH]; intros budget f sent r; simpl; [auto|].
  destruct (key_in (key i) done).
  { intros H. destruct (IH _ _ _ _ H) as [Hin | (j & Hj & Hk)]; [auto|].
    right. exists j. auto. }
  destruct budget as [|b]; [auto|].
  destruct (classify_technology svc _ sent) as [lbl sent1].
  destruct b as [|b']; simpl.
  - intros H. apply in_app_or in H as [H | [H | []]]; [auto|].
    injection H as <-. right. exists i. auto.
  - intros H. destruct (IH _ _ _ _ H) as [Hin | (j & Hj & Hk)].
    + simpl in Hin. apply in_app_or in Hin as [Hin | [Hin | []]]; [auto|].
      injection Hin as <-. right. exists i. auto.
    + right. exists j. auto.
Qed.

Lemma enrich_loop_artifacts (svc : service) (done : gset string) (issues : list issue) :
  forall budget f sent,
    let f' := fst (enrich_loop svc done issues budget f sent) in
    TECH_COUNTS f' = TECH_COUNTS f
    /\ SERVER_COUNTS f' = SERVER_COUNTS f
    /\ UNRESOLVED_JSON f' = UNRESOLVED_JSON f.
Proof.
  induction issues as [|i rest IH]; intros budget f sent; simpl; [auto|].
  destruct (key_in (key i) done); [apply IH|].
  destruct budget as [|b]; [auto|].
  destruct (classify_technology svc _ sent) as [lbl sent1].
  destruct b as [|b']; simpl; [auto|].
  destruct (IH b' (append_tech {| tech_key := key i; label := Some lbl |}
                     (append_servers
                        {| srv_key := key i;
                           servers := extract_servers
                             (to_string (strip (of_string (summary i ++ Analyze.nl ++ description i)%string))) |} f))
               sent1) as (H1 & H2 & H3).
  simpl in *. auto.
Qed.

(** The set of keys that [load_processed_keys_from_jsonl] reads. *)
Lemma load_processed_keys_fold {A : Type} (key_field : A -> option string)
    (lines : list (line A)) :
  forall (acc : gset string) (k : string),
  k ∈ fold_left
        (fun keys ln =>
           match ln with
           | Parsed obj =>
               match key_field obj with
               | Some k => if truthy k then keys ∪ {[ k ]} else keys
               | None => keys
               end
           | Malformed => keys
           end) lines acc
  <-> k ∈ acc
      \/ exists obj, In (Parsed obj) lines /\ key_field obj = Some k /\ truthy k = true.
Proof.
  induction lines as [|ln lines IH]; intros acc k; cbn [fold_left].
  - split; [auto | intros [H | (obj & [] & _)]; assumption].
  - rewrite IH. split.
    + intros [Hk | (obj & Hin & Hkey & Ht)].
      * destruct ln as [|obj]; [left; assumption|].
        destruct (key_field obj) as [k'|] eqn:Hk'; [|left; assumption].
        destruct (truthy k') eqn:Ht; [|left; assumption].
        apply elem_of_union in Hk as [Hk | Hk]; [left; assumption|].
        apply elem_of_singleton in Hk. subst k'. right. exists obj.
        split_and!; [left; reflexivity | assumption | assumption].
      * right. exists obj. split_and!; [right; assumption | assumption | assumption].
    + intros [Hk | (obj & [Heq | Hin] & Hkey & Ht)].
      * left. destruct ln as [|obj]; [assumption|].
        destruct (key_field obj) as [k'|]; [|assumption].
        destruct (truthy k'); [|assumption].
        apply elem_of_union. left. assumption.
      * left. subst ln. rewrite Hkey, Ht.
        apply elem_of_union. right. apply elem_of_singleton. reflexivity.
      * right. exists obj. auto.
Qed.

Lemma load_processed_keys_spec {A : Type} (key_field : A -> option string)
    (lines : list (line A)) (k : string) :
  k ∈ load_processed_keys_from_jsonl key_field lines
  <-> exists obj, In (Parsed obj) lines /\ key_field obj = Some k /\ truthy k = true.
Proof.
  unfold load_processed_keys_from_jsonl. rewrite load_processed_keys_fold.
  split; [intros [H | H]; [|assumption] | auto].
  apply not_elem_of_empty in H. contradiction.
Qed.

Lemma main_covered (limit : Z) (svc : service) (budget : nat) (issues_all : list issue)
    (f : files) :
  covered f -> covered (main limit svc budget issues_all f).
Proof.
  intros Hc. unfold main.
  pose proof (enrich_loop_covered svc
                (load_processed_keys_from_jsonl tech_key (TECH_PER_ISSUE f)
                 ∩ load_processed_keys_from_jsonl srv_key (SERVERS_PER_ISSUE f))
                (limited limit issues_all) budget f [] Hc) as H.
  intros r Hr. apply (H r Hr).
Qed.

End Enrichment.

Section EnrichmentClaims.

Lemma enrichment_runs_covered (runs : list enrichment_run) :
  forall f, covered f -> covered (enrichment_runs runs f).
Proof.
  unfold enrichment_runs.
  induction runs as [|r runs IH]; intros f Hc; simpl; [assumption|].
  apply IH, main_covered, Hc.
Qed.

(** C9: after any number of runs of [main] from an empty output directory,
    each stopped after any number of appends, every key read from the
    classification log is read from the extraction log too, and every
    classification record has an extraction record with its key. A run
    stopped after one append leaves a key in the extraction log only. *)
Theorem classification_keys_within_extraction_keys (runs : list enrichment_run) :
  let f := enrichment_runs runs fresh in
  load_processed_keys_from_jsonl tech_key (TECH_PER_ISSUE f)
  ⊆ load_processed_keys_from_jsonl srv_key (SERVERS_PER_ISSUE f)
  /\ covered f
  /\ (let f1 := main 0 (always_says "database") 1 [item "A" "db down" "srv-ab"] fresh in
      "A" ∈ load_processed_keys_from_jsonl srv_key (SERVERS_PER_ISSUE f1)
      /\ "A" ∉ load_processed_keys_from_jsonl tech_key (TECH_PER_ISSUE f1)).
Proof.
  intros f.
  assert (Hc : covered f).
  { apply enrichment_runs_covered. intros r []. }
  split_and!; [|assumption|].
  - intros k Hk. apply load_processed_keys_spec in Hk as (t & Hin & Hkey & Ht).
    destruct (Hc t Hin) as (r' & Hin' & Hk').
    apply load_processed_keys_spec. exists r'.
    split_and!; [assumption | congruence | assumption].
  - split.
    + apply load_processed_keys_spec.
      exists {| srv_key := Some "A"; servers := ["srv-ab"] |}.
      split_and!; [left; reflexivity | reflexivity | reflexivity].
    + intros H. apply load_processed_keys_spec in H as (t & [] & _).
Qed.

Lemma limited_capped (limit : Z) (issues_all : list issue) (j : issue) :
  (0 < limit)%Z ->
  In j (limited limit issues_all) ->
  exists m, issues_all !! m = Some j /\ m < Z.to_nat limit.
Proof.
  intros Hpos Hin. unfold limited in Hin.
  destruct (0 <? limit)%Z eqn:E; [|apply Z.ltb_ge in E; lia].
  apply list_elem_of_In, elem_of_take in Hin. assumption.
Qed.

(** C10: with a cap of C items, 0 < C, the aggregator at the end of the run
    is given the whole collection; an item at a position from C on, whose
    key has no record in the extraction log before the run and is not the
    key of an item below the cap, has no extraction record after the run
    and is listed in the unresolved report, whatever the point where the
    loop was stopped. *)
Theorem capped_run_lists_items_beyond_cap (limit : Z) (svc : service) (budget : nat)
    (issues_all : list issue) (f : files) (n : nat) (i : issue) :
  (0 < limit)%Z ->
  Z.to_nat limit < length issues_all ->
  issues_all !! n = Some i ->
  Z.to_nat limit <= n ->
  (forall r, In (Parsed r) (SERVERS_PER_ISSUE f) -> srv_key r <> key i) ->
  (forall m j, m < Z.to_nat limit -> issues_all !! m = Some j -> key j <> key i) ->
  let f' := main limit svc budget issues_all f in
  UNRESOLVED_JSON f'
  = Some (unresolved_of (snd (servers_fold (SERVERS_PER_ISSUE f'))) issues_all)
  /\ (forall r, In (Parsed r) (SERVERS_PER_ISSUE f') -> srv_key r <> key i)
  /\ exists report, UNRESOLVED_JSON f' = Some report /\ In (entry_of i) report.
Proof.
  intros Hpos Hlt Hn Hge Hlog Hkeys f'.
  assert (Hnone : forall r, In (Parsed r) (SERVERS_PER_ISSUE f') -> srv_key r <> key i).
  { intros r Hr. unfold f', main in Hr. simpl in Hr.
    apply enrich_loop_servers in Hr as [Hr | (j & Hj & Hk)].
    - apply Hlog. assumption.
    - rewrite Hk. apply limited_capped in Hj as (m & Hm & Hlim); [|assumption].
      eapply Hkeys; eassumption. }
  split_and!; [reflexivity | assumption |].
  eexists. split; [reflexivity|].
  apply unresolved_of_spec. exists i. split_and!; [| |reflexivity].
  - apply list_elem_of_In. eapply list_elem_of_lookup_2. eassumption.
  - intros Hk. apply keys_with_servers_spec in Hk as (r & Hr & Hkey & _).
    apply (Hnone r); assumption.
Qed.

Lemma capped_run_lists_items_beyond_cap_witness :
  exists report,
    UNRESOLVED_JSON (main 2 (always_says "database") 4 three_items fresh) = Some report
    /\ In (entry_of (item "C" "disk full" "srv-zz again")) report.
Proof.
  apply (capped_run_lists_items_beyond_cap 2 (always_says "database") 4 three_items
           fresh 2 (item "C" "disk full" "srv-zz again")).
  - reflexivity.
  - simpl. lia.
  - reflexivity.
  - simpl. lia.
  - intros r [].
  - intros m j Hm Hj.
    destruct m as [|[|m]]; simpl in Hm, Hj; [| |lia];
      injection Hj as <-; discriminate.
Defined.

End EnrichmentClaims.

(** ** The fetch loop *)

Section FetchInvariant.

Lemma items_of_snoc (lines : list log_line) (o : issue) :
  items_of (lines ++ [Obj o]) = items_of lines ++ [o].
Proof. unfold items_of. rewrite omap_app. reflexivity. Qed.

Lemma log_keys_snoc (lines : list log_line) (o : issue) :
  log_keys (lines ++ [Obj o]) = log_keys lines ++ [key o].
Proof. unfold log_keys. rewrite items_of_snoc, map_app. reflexivity. Qed.

Lemma NoDup_snoc {A : Type} (l : list A) (x : A) :
  NoDup l -> ~ In x l -> NoDup (l ++ [x]).
Proof.
  intros Hnd Hx. apply NoDup_app. split_and!; [assumption | | apply NoDup_singleton].
  intros y Hy Hy'. apply list_elem_of_singleton in Hy'. subst y.
  apply Hx, list_elem_of_In, Hy.
Qed.

Lemma load_saved_keys_fold (lines : list log_line) :
  forall (acc : gset string * nat) (k : string),
  k ∈ fst (fold_left
             (fun '(saved_keys, count) ln =>
                match ln with
                | Obj obj =>
                    if truthy_opt (key obj)
                    then (saved_keys ∪ {[ default "" (key obj) ]}, S count)
                    else (saved_keys, count)
                | Unparsable => (saved_keys, count)
                end) lines acc)
  <-> k ∈ fst acc
      \/ exists o, In o (items_of lines) /\ key o = Some k /\ truthy k = true.
Proof.
  induction lines as [|ln lines IH]; intros [keys count] k; cbn [fold_left].
  - split; [auto | intros [H | (o & [] & _)]; assumption].
  - rewrite IH. destruct ln as [|obj]; cbn [items_of omap].
    + reflexivity.
    + change (omap _ lines) with (items_of lines).
      destruct (key obj) as [k'|] eqn:Hk'; cbn [truthy_opt default from_option id].
      * destruct (truthy k') eqn:Ht; cbn [fst].
        -- rewrite elem_of_union, elem_of_singleton. split.
           ++ intros [[H | ->] | (o & Hin & Hkey & Hto)]; [auto | |].
              ** right. exists obj. split_and!; [left; reflexivity | assumption | assumption].
              ** right. exists o. split_and!; [right; assumption | assumption | assumption].
           ++ intros [H | (o & [<- | Hin] & Hkey & Hto)]; [auto | |].
              ** left. right. congruence.
              ** right. exists o. auto.
        -- split.
           ++ intros [H | (o & Hin & Hkey & Hto)]; [auto|].
              right. exists o. split_and!; [right; assumption | assumption | assumption].
           ++ intros [H | (o & [<- | Hin] & Hkey & Hto)]; [auto | |].
              ** congruence.
              ** right. exists o. auto.
      * split.
        -- intros [H | (o & Hin & Hkey & Hto)]; [auto|].
           right. exists o. split_and!; [right; assumption | assumption | assumption].
        -- intros [H | (o & [<- | Hin] & Hkey & Hto)]; [auto | |].
           ++ congruence.
           ++ right. exists o. auto.
Qed.

Lemma load_saved_keys_spec (lines : list log_line) (k : string) :
  log_ok lines ->
  k ∈ fst (load_saved_keys lines) <-> In (Some k) (log_keys lines).
Proof.
  intros [Hall _]. unfold load_saved_keys. rewrite load_saved_keys_fold. cbn [fst].
  unfold log_keys. rewrite in_map_iff. split.
  - intros [H | (o & Hin & Hkey & _)]; [apply not_elem_of_empty in H; contradiction|].
    exists o. auto.
  - intros (o & Hkey & Hin). right. exists o. split_and!; [assumption | assumption |].
    rewrite Forall_forall in Hall. specialize (Hall o (proj2 (list_elem_of_In _ _) Hin)).
    rewrite Hkey in Hall. exact Hall.
Qed.

Lemma start_inv (use : bool) (d : disk) : log_ok (partial d) -> inv (start use d).
Proof.
  intros Hok. unfold inv, start.
  destruct (load_saved_keys (partial d)) as [keys count] eqn:Hload. cbn.
  split; [assumption|]. intros k.
  rewrite <- load_saved_keys_spec by assumption. rewrite Hload. reflexivity.
Qed.

Section Steps.
Variable api : remote.
Variables (jql : string) (page_size : nat).

Local Abbreviation step := (step api jql page_size).
Local Abbreviation run := (run api jql page_size).

(** What a step does to the log: nothing, or the append of an issue whose
    usable key was not in [saved_keys]. *)
Lemma step_log (st : state) :
  (partial (on_disk (step st)) = partial (on_disk st)
   /\ saved_keys (step st) = saved_keys st)
  \/ exists data i rest n k,
       pc st = InPage data (i :: rest) n
       /\ raw_key i = Some k /\ truthy k = true /\ (k ∉ saved_keys st)
       /\ partial (on_disk (step st)) = partial (on_disk st) ++ [Obj (to_obj i)]
       /\ saved_keys (step st) = saved_keys st ∪ {[ k ]}.
Proof.
  unfold FetchIssues.step.
  destruct (pc st) as [|data [|i rest] n|why|e] eqn:Hpc.
  - left. destruct (api _ _) as [[status|]|data]; [destruct (token st)| |]; auto.
  - left. auto.
  - cbn [key to_obj]. destruct (raw_key i) as [k|] eqn:Hk; [|left; auto].
    destruct (truthy k) eqn:Ht; cbn [negb orb]; [|left; auto].
    destruct (bool_decide (k ∈ saved_keys st)) eqn:Hin; [left; auto|].
    right. exists data, i, rest, n, k.
    apply bool_decide_eq_false in Hin. split_and!; auto.
  - left. auto.
  - left. auto.
Qed.

Lemma step_consumed (st : state) :
  consumed (step st) = consumed st
  \/ exists data i rest n,
       pc st = InPage data (i :: rest) n /\ consumed (step st) = consumed st ++ [i].
Proof.
  unfold FetchIssues.step.
  destruct (pc st) as [|data [|i rest] n|why|e] eqn:Hpc.
  - left. destruct (api _ _) as [[status|]|data]; [destruct (token st)| |]; auto.
  - left. auto.
  - right. exists data, i, rest, n. split; [reflexivity|].
    cbn [key to_obj]. destruct (raw_key i) as [k|]; [|reflexivity].
    destruct (negb (truthy k) || bool_decide (k ∈ saved_keys st)); reflexivity.
  - left. auto.
  - left. auto.
Qed.

Lemma step_inv (st : state) : inv st -> inv (step st).
Proof.
  intros [[Hall Hnd] Hkeys].
  destruct (step_log st) as [[Hp Hs] | (data & i & rest & n & k & Hpc & Hk & Ht & Hnew & Hp & Hs)].
  - unfold inv, log_ok. rewrite Hp, Hs. auto.
  - unfold inv, log_ok. rewrite Hp, Hs, items_of_snoc, log_keys_snoc.
    cbn [key to_obj]. rewrite Hk. split_and!.
    + apply Forall_app. split; [assumption|].
      constructor; [|constructor]. cbn. rewrite Hk. exact Ht.
    + apply NoDup_snoc; [assumption|]. intros Hin. apply Hnew, Hkeys, Hin.
    + intros k'. rewrite elem_of_union, elem_of_singleton, in_app_iff, Hkeys.
      cbn. split; [intros [H | ->]; auto | intros [H | [[= ->] | []]]; auto].
Qed.

Lemma step_all_logged (st : state) (seen : list raw_issue) :
  inv st ->
  all_logged (seen ++ consumed st) (partial (on_disk st)) ->
  all_logged (seen ++ consumed (step st)) (partial (on_disk (step st))).
Proof.
  intros [[Hall Hnd] Hkeys] Hlog.
  assert (Hmono : forall k, In (Some k) (log_keys (partial (on_disk st))) ->
                            In (Some k) (log_keys (partial (on_disk (step st))))).
  { intros k Hin.
    destruct (step_log st) as [[Hp _] | (data & i & rest & n & k' & _ & _ & _ & _ & Hp & _)];
      rewrite Hp; [assumption|].
    rewrite log_keys_snoc. apply in_or_app. left. assumption. }
  destruct (step_consumed st) as [Hc | (data & i & rest & n & Hpc & Hc)]; rewrite Hc.
  - intros j k Hj Hk Ht. apply Hmono. eapply Hlog; eassumption.
  - intros j k Hj Hk Ht. rewrite app_assoc in Hj.
    apply in_app_or in Hj as [Hj | [<- | []]].
    + apply Hmono. eapply Hlog; eassumption.
    + destruct (step_log st) as [[Hp Hs] | (data' & i' & rest' & n' & k' & Hpc' & Hk' & _ & _ & Hp & _)].
      * rewrite Hp. apply Hkeys. rewrite <- Hs.
        unfold FetchIssues.step. rewrite Hpc. cbn [key to_obj]. rewrite Hk, Ht. cbn [negb orb].
        destruct (bool_decide (k ∈ saved_keys st)) eqn:Hin.
        -- cbn. apply bool_decide_eq_true in Hin. exact Hin.
        -- cbn. apply elem_of_union. right. apply elem_of_singleton. reflexivity.
      * rewrite Hpc in Hpc'. injection Hpc' as _ <- _ _.
        rewrite Hp, log_keys_snoc. apply in_or_app. right. left.
        cbn. congruence.
Qed.

Lemma run_inv (n : nat) : forall st, inv st -> inv (run n st).
Proof.
  induction n as [|n IH]; intros st Hinv; simpl; [assumption|].
  apply IH, step_inv, Hinv.
Qed.

Lemma run_all_logged (n : nat) : forall st seen,
  inv st ->
  all_logged (seen ++ consumed st) (partial (on_disk st)) ->
  all_logged (seen ++ consumed (run n st)) (partial (on_disk (run n st))).
Proof.
  induction n as [|n IH]; intros st seen Hinv Hlog; simpl; [assumption|].
  apply IH; [apply step_inv, Hinv | apply step_all_logged; assumption].
Qed.

Lemma answered_snoc (l : list payload) (body : payload) : forall n,
  answered api n (l ++ [body])
  = answered api n l
    ++ match api (n + length l) body with Answers data => [data] | Fails _ => [] end.
Proof.
  induction l as [|b l IH]; intros n; simpl.
  - rewrite Nat.add_0_r. destruct (api n body); reflexivity.
  - rewrite IH. replace (S n + length l) with (n + S (length l)) by lia.
    destruct (api n b); reflexivity.
Qed.

Lemma step_delivered (st : state) : delivered api st -> delivered api (step st).
Proof.
  unfold delivered, pending, FetchIssues.step.
  destruct (pc st) as [|data [|i rest] n|why|e] eqn:Hpc; intros H.
  - rewrite app_nil_r in H.
    destruct (api (length (sent st)) _) as [[status|]|data] eqn:Hresp;
      [destruct (token st)| |]; cbn [sent consumed pc];
      rewrite answered_snoc, flat_map_app, H; cbn [Nat.add]; rewrite Hresp; cbn;
      rewrite ?app_nil_r; try reflexivity.
    destruct (issues data); rewrite ?app_nil_r; reflexivity.
  - cbn. destruct (isLast data) as [[|]|]; cbn; exact H.
  - cbn [key to_obj]. destruct (raw_key i) as [k|]; [|cbn; rewrite H, <- app_assoc; reflexivity].
    destruct (negb (truthy k) || bool_decide (k ∈ saved_keys st)); cbn;
      rewrite H, <- app_assoc; reflexivity.
  - rewrite Hpc. exact H.
  - rewrite Hpc. exact H.
Qed.

Lemma run_delivered (n : nat) : forall st, delivered api st -> delivered api (run n st).
Proof.
  induction n as [|n IH]; intros st H; simpl; [assumption|].
  apply IH, step_delivered, H.
Qed.


End Steps.

End FetchInvariant.

Section FetchClaims.

Lemma fetch_and_save_log (api : remote) (jql : string) (page_size steps : nat) (d : disk) :
  partial (on_disk (fetch_and_save api jql page_size steps d))
  = partial (on_disk (fetch_all_basic_resumable api jql page_size true steps d))
  /\ consumed (fetch_and_save api jql page_size steps d)
     = consumed (fetch_all_basic_resumable api jql page_size true steps d).
Proof.
  unfold fetch_and_save.
  destruct (pc (fetch_all_basic_resumable api jql page_size true steps d)); auto.
Qed.

Lemma fetch_once_ok (r : fetch_run) (d : disk) (seen : list raw_issue) :
  log_ok (partial d) ->
  all_logged seen (partial d) ->
  log_ok (partial (on_disk (fetch_once r d)))
  /\ all_logged (seen ++ consumed (fetch_once r d)) (partial (on_disk (fetch_once r d))).
Proof.
  intros Hok Hlog. unfold fetch_once.
  destruct (fetch_and_save_log (run_api r) (run_jql r) (run_page_size r) (run_steps r) d)
    as [-> ->].
  unfold fetch_all_basic_resumable.
  pose proof (start_inv true d Hok) as Hinv.
  split.
  - apply run_inv. assumption.
  - apply run_all_logged; [assumption|].
    assert (Hc : consumed (start true d) = []).
    { unfold start. destruct (load_saved_keys (partial d)). reflexivity. }
    assert (Hf : on_disk (start true d) = d).
    { unfold start. destruct (load_saved_keys (partial d)). reflexivity. }
    rewrite Hc, Hf, app_nil_r. assumption.
Qed.

Lemma fetch_runs_ok (runs : list fetch_run) : forall d seen,
  log_ok (partial d) ->
  all_logged seen (partial d) ->
  log_ok (partial (fst (fetch_runs runs d seen)))
  /\ all_logged (snd (fetch_runs runs d seen)) (partial (fst (fetch_runs runs d seen))).
Proof.
  induction runs as [|r runs IH]; intros d seen Hok Hlog; simpl; [auto|].
  destruct (fetch_once_ok r d seen Hok Hlog) as [Hok' Hlog'].
  apply IH; assumption.
Qed.

(** A run that returns leaves in [out_json] the collection of its log. *)
Lemma fetch_once_materializes (r : fetch_run) (d : disk) (why : exit_reason) :
  pc (fetch_once r d) = Exited why ->
  out_json (on_disk (fetch_once r d)) = Some (items_of (partial (on_disk (fetch_once r d)))).
Proof.
  unfold fetch_once, fetch_and_save.
  destruct (pc (fetch_all_basic_resumable _ _ _ true _ d)) eqn:Hpc;
    intros H; try (rewrite Hpc in H; discriminate).
  reflexivity.
Qed.

Lemma fetch_once_delivered (r : fetch_run) (d : disk) :
  delivered (run_api r) (fetch_once r d).
Proof.
  assert (H : delivered (run_api r)
                (fetch_all_basic_resumable (run_api r) (run_jql r) (run_page_size r)
                   true (run_steps r) d)).
  { apply run_delivered. unfold delivered, pending, start.
    destruct (load_saved_keys (partial d)). reflexivity. }
  unfold fetch_once, fetch_and_save.
  destruct (pc (fetch_all_basic_resumable _ _ _ true _ d)) eqn:Hpc; try exact H.
  unfold delivered, pending in *. cbn. rewrite Hpc in H. exact H.
Qed.

(** C1: for every sequence of runs on the same files, begun with an empty
    partial log and whatever checkpoint, each run interrupted after any
    number of steps or not at all, and whatever the endpoint answers
    (rejections of the cursor included), materialization after the last
    run gives a collection in which no key occurs twice and in which the
    key of every issue that a loop has taken, when it is usable, occurs
    exactly once. The issues that the loop of a run has taken are those of
    the pages that the endpoint has answered, in order, short of the rest of
    a page that an interrupt has cut off. A run that returns writes the
    collection of its log. *)
Theorem collection_has_each_key_once (runs : list fetch_run) (ck : option checkpoint) :
  let d0 := {| partial := []; checkpoint_file := ck; out_json := None |} in
  let d := fst (fetch_runs runs d0 []) in
  let seen := snd (fetch_runs runs d0 []) in
  exists items,
    out_json (fst (materialize_json_from_jsonl d)) = Some items
    /\ NoDup (map key items)
    /\ (forall i k, In i seen -> raw_key i = Some k -> truthy k = true ->
                    count_occ key_eq_dec (map key items) (Some k) = 1)
    /\ (forall r d1,
          flat_map issues (answered (run_api r) 0 (sent (fetch_once r d1)))
          = consumed (fetch_once r d1) ++ pending (fetch_once r d1))
    /\ (forall r d1 why, pc (fetch_once r d1) = Exited why ->
                         out_json (on_disk (fetch_once r d1))
                         = out_json (fst (materialize_json_from_jsonl (on_disk (fetch_once r d1))))).
Proof.
  intros d0 d seen.
  assert (Hok0 : log_ok (partial d0)) by (split; constructor).
  assert (Hlog0 : all_logged [] (partial d0)) by (intros i k []).
  destruct (fetch_runs_ok runs d0 [] Hok0 Hlog0) as [[Hall Hnd] Hlog].
  fold d in Hall, Hnd, Hlog. fold seen in Hlog.
  exists (items_of (partial d)). split_and!.
  - reflexivity.
  - exact Hnd.
  - intros i k Hi Hk Ht.
    apply NoDup_ListNoDup in Hnd.
    apply (proj1 (NoDup_count_occ' key_eq_dec _) Hnd).
    eapply Hlog; eassumption.
  - intros r d1. apply fetch_once_delivered.
  - intros r d1 why Hpc. rewrite (fetch_once_materializes r d1 why Hpc). reflexivity.
Qed.

(** A first run interrupted after it has appended A, then a full run. *)
Lemma collection_has_each_key_once_witness :
  exists items,
    out_json (fst (materialize_json_from_jsonl
                     (fst (fetch_runs [run_of two_pages 2; run_of two_pages 20] cold []))))
    = Some items
    /\ count_occ key_eq_dec (map key items) (Some "A") = 1
    /\ out_json (on_disk (fetch_once (run_of two_pages 20) cold)) = Some items.
Proof.
  destruct (collection_has_each_key_once [run_of two_pages 2; run_of two_pages 20] None)
    as (items & Hout & _ & Hseen & _ & Hret).
  exists items. split_and!.
  - exact Hout.
  - apply (Hseen (ticket "A") "A"); [left; reflexivity | reflexivity | reflexivity].
  - rewrite (Hret (run_of two_pages 20) cold LastPage eq_refl).
    rewrite <- Hout. reflexivity.
Defined.

(** *** The checkpoint at exit *)






(** *** A rejected request *)

Lemma run_propagates (api : remote) (jql : string) (page_size : nat) (n : nat) :
  forall st e, pc st = Propagates e -> run api jql page_size n st = st.
Proof.
  induction n as [|n IH]; intros st e Hpc; simpl; [reflexivity|].
  assert (Hs : step api jql page_size st = st) by (unfold step; rewrite Hpc; reflexivity).
  rewrite Hs. eapply IH. eassumption.
Qed.

Lemma log_keys_app (l1 l2 : list log_line) :
  log_keys (l1 ++ l2) = log_keys l1 ++ log_keys l2.
Proof. unfold log_keys, items_of. rewrite omap_app, map_app. reflexivity. Qed.




End FetchClaims.

(** ** Server extraction *)

Section Extraction.

Lemma in_class_word (c : ascii) : in_class c = true -> is_word c = true.
Proof. unfold in_class, is_word. intros ->. reflexivity. Qed.

Lemma run_length_le (hi : nat) : forall s, run_length hi s <= hi.
Proof.
  induction hi as [|hi IH]; intros s; simpl; [lia|].
  destruct s as [|x s]; [lia|]. destruct (in_class x); [|lia].
  specialize (IH s). lia.
Qed.

Lemma run_length_le_length (hi : nat) : forall s, run_length hi s <= length s.
Proof.
  induction hi as [|hi IH]; intros s; simpl; [lia|].
  destruct s as [|x s]; [simpl; lia|]. destruct (in_class x); simpl; [|lia].
  specialize (IH s). lia.
Qed.

Lemma run_length_class (hi : nat) : forall s,
  Forall (fun c => in_class c = true) (take (run_length hi s) s).
Proof.
  induction hi as [|hi IH]; intros s; simpl; [rewrite take_0; constructor|].
  destruct s as [|x s]; [constructor|].
  destruct (in_class x) eqn:Hx; simpl; [|constructor].
  constructor; [assumption | apply IH].
Qed.

Lemma run_length_exact (suffix : text) : forall hi post,
  Forall (fun c => in_class c = true) suffix ->
  length suffix <= hi ->
  word_opt (head post) = false ->
  run_length hi (suffix ++ post) = length suffix.
Proof.
  induction suffix as [|x suffix IH]; intros hi post Hall Hlen Hpost; simpl.
  - destruct hi as [|hi]; simpl; [reflexivity|].
    destruct post as [|p post]; [reflexivity|].
    simpl in Hpost. destruct (in_class p) eqn:Hp; [|reflexivity].
    apply in_class_word in Hp. congruence.
  - simpl in Hlen. destruct hi as [|hi]; [lia|]. simpl.
    inversion Hall as [|? ? Hx Hall']; subst. rewrite Hx.
    rewrite IH; [reflexivity | assumption | lia | assumption].
Qed.

Lemma boundary_only_word (prev : option ascii) (s : text) :
  word_opt prev = true ->
  boundary_only prev s = if negb (word_opt (head s)) then Some [] else None.
Proof.
  intros Hprev. unfold boundary_only, match_here, at_boundary. rewrite Hprev.
  destruct (word_opt (head s)); reflexivity.
Qed.

Lemma rep_unfold (k : option ascii -> text -> option text) (lo hi : nat)
    (prev : option ascii) (s : text) :
  rep k lo hi prev s
  = let stop := if lo =? 0 then k prev s else None in
    match hi, s with
    | S hi', x :: s' =>
        if in_class x
        then match option_map (cons x) (rep k (pred lo) hi' (Some x) s') with
             | Some r => Some r
             | None => stop
             end
        else stop
    | _, _ => stop
    end.
Proof. destruct hi; reflexivity. Qed.

(** The repetition followed by a word boundary takes the whole run of class
    characters, up to [hi], or fails. *)
Lemma rep_boundary (hi : nat) : forall lo prev s,
  1 <= lo \/ word_opt prev = true ->
  rep boundary_only lo hi prev s
  = if (lo <=? run_length hi s) && negb (word_opt (head (drop (run_length hi s) s)))
    then Some (take (run_length hi s) s) else None.
Proof.
  induction hi as [|hi IH]; intros lo prev s Hlo; rewrite rep_unfold; cbv zeta.
  - cbn [run_length]. rewrite drop_0, take_0.
    destruct lo as [|lo]; [|destruct s; reflexivity].
    destruct Hlo as [Hlo | Hprev]; [lia|].
    rewrite (boundary_only_word _ _ Hprev). destruct s; reflexivity.
  - destruct s as [|x s'].
    + cbn [run_length]. rewrite drop_0, take_0.
      destruct lo as [|lo]; [|reflexivity].
      destruct Hlo as [Hlo | Hprev]; [lia|].
      rewrite (boundary_only_word _ _ Hprev). reflexivity.
    + cbn [run_length]. destruct (in_class x) eqn:Hx.
      * rewrite IH by (right; simpl; apply in_class_word, Hx).
        cbn [drop take].
        replace (pred lo <=? run_length hi s') with (lo <=? S (run_length hi s'))
          by (destruct lo; reflexivity).
        destruct ((lo <=? S (run_length hi s'))
                  && negb (word_opt (head (drop (run_length hi s') s')))) eqn:Hc;
          cbn [option_map]; [reflexivity|].
        destruct lo as [|lo]; [|reflexivity].
        destruct Hlo as [Hlo | Hprev]; [lia|].
        rewrite (boundary_only_word _ _ Hprev). cbn [head word_opt].
        rewrite (in_class_word _ Hx). reflexivity.
      * rewrite drop_0, take_0.
        destruct lo as [|lo]; [|reflexivity].
        destruct Hlo as [Hlo | Hprev]; [lia|].
        rewrite (boundary_only_word _ _ Hprev). reflexivity.
Qed.

(** [SRV_REGEX] at a position, step by step. *)
Lemma match_here_srv (prev : option ascii) (s : text) :
  match_here SRV_REGEX prev s
  = if at_boundary prev s
    then match s with
         | x1 :: x2 :: x3 :: x4 :: s4 =>
             if prefix_ok x1 x2 x3 x4
             then option_map (app [x1; x2; x3; x4])
                    (rep boundary_only 2 10 (Some x4) s4)
             else None
         | _ => None
         end
    else None.
Proof.
  unfold SRV_REGEX, prefix_ok. cbn [match_here].
  destruct (at_boundary prev s); [|reflexivity].
  destruct s as [|x1 [|x2 [|x3 [|x4 s4]]]]; try reflexivity;
    change (lower_char "s") with "s"%char;
    change (lower_char "r") with "r"%char;
    change (lower_char "v") with "v"%char;
    change (lower_char "-") with "-"%char;
    destruct (Ascii.eqb (lower_char x1) "s"); try reflexivity;
    destruct (Ascii.eqb (lower_char x2) "r"); try reflexivity;
    destruct (Ascii.eqb (lower_char x3) "v"); try reflexivity;
    destruct (Ascii.eqb (lower_char x4) "-"); try reflexivity.
  cbn [andb].
  match goal with
  | |- context [rep ?k 2 10 (Some x4) s4] =>
      change (rep k 2 10 (Some x4) s4) with (rep boundary_only 2 10 (Some x4) s4)
  end.
  destruct (rep boundary_only 2 10 (Some x4) s4); reflexivity.
Qed.

Lemma last_class_word (l : text) :
  Forall (fun c => in_class c = true) l -> l <> [] -> word_opt (last l) = true.
Proof.
  intros Hall Hne. destruct (last l) as [c|] eqn:Hl.
  - apply last_Some_elem_of in Hl. rewrite Forall_forall in Hall.
    simpl. apply in_class_word, Hall, Hl.
  - apply last_None in Hl. contradiction.
Qed.

Lemma last_app_nonempty (l1 l2 : text) : l2 <> [] -> last (l1 ++ l2) = last l2.
Proof.
  intros Hne. rewrite last_app. destruct (last l2) eqn:Hl; [reflexivity|].
  apply last_None in Hl. contradiction.
Qed.

Lemma prefix_ok_lower (x1 x2 x3 x4 : ascii) :
  prefix_ok x1 x2 x3 x4 = true <-> lower [x1; x2; x3; x4] = of_string "srv-".
Proof.
  unfold prefix_ok. rewrite !andb_true_iff, !Ascii.eqb_eq. cbn. split.
  - intros [[[-> ->] ->] ->]. reflexivity.
  - intros [= -> -> -> ->]. auto.
Qed.

(** The matcher finds exactly the whole-token matches. *)
Lemma match_here_whole_token (prev : option ascii) (s tok : text) :
  match_here SRV_REGEX prev s = Some tok <-> whole_token prev s tok.
Proof.
  rewrite match_here_srv. split.
  - destruct (at_boundary prev s) eqn:Hb; [|discriminate].
    destruct s as [|x1 [|x2 [|x3 [|x4 s4]]]]; try discriminate.
    destruct (prefix_ok x1 x2 x3 x4) eqn:Hp; [|discriminate].
    rewrite rep_boundary by (left; lia).
    set (n := run_length 10 s4).
    destruct ((2 <=? n) && negb (word_opt (head (drop n s4)))) eqn:Hc; [|discriminate].
    cbn [option_map]. intros [= <-].
    apply andb_true_iff in Hc as [Hn Hend]. apply Nat.leb_le in Hn.
    apply negb_true_iff in Hend.
    assert (Hlen : length (take n s4) = n).
    { rewrite length_take. pose proof (run_length_le_length 10 s4). lia. }
    assert (Hne : take n s4 <> []).
    { intros E. rewrite E in Hlen. simpl in Hlen. lia. }
    exists (drop n s4). split_and!.
    + cbn. rewrite take_drop. reflexivity.
    + exists [x1; x2; x3; x4], (take n s4). split_and!.
      * reflexivity.
      * apply prefix_ok_lower, Hp.
      * apply run_length_class.
      * lia.
      * rewrite Hlen. apply run_length_le.
    + exact Hb.
    + unfold at_boundary.
      change (last ([x1; x2; x3; x4] ++ take n s4)) with
        (last (x1 :: x2 :: x3 :: x4 :: take n s4)).
      change (x1 :: x2 :: x3 :: x4 :: take n s4) with ([x1; x2; x3; x4] ++ take n s4).
      rewrite (last_app_nonempty [x1; x2; x3; x4] _ Hne).
      pose proof (run_length_class 10 s4) as Hall. fold n in Hall.
      rewrite (last_class_word _ Hall Hne), Hend. reflexivity.
  - intros (post & -> & (prefix & suffix & -> & Hpre & Hall & Hlo & Hhi) & Hb & He).
    rewrite Hb.
    destruct prefix as [|x1 [|x2 [|x3 [|x4 [|x5 prefix]]]]]; try discriminate.
    cbn [app]. rewrite (proj2 (prefix_ok_lower x1 x2 x3 x4) Hpre).
    assert (Hne : suffix <> []).
    { intros E. rewrite E in Hlo. simpl in Hlo. lia. }
    assert (Hpost : word_opt (head post) = false).
    { unfold at_boundary in He.
      rewrite (last_app_nonempty [x1; x2; x3; x4] _ Hne) in He.
      rewrite (last_class_word _ Hall Hne) in He.
      destruct (word_opt (head post)); [discriminate | reflexivity]. }
    rewrite rep_boundary by (left; lia).
    rewrite (run_length_exact suffix 10 post Hall Hhi Hpost).
    rewrite drop_app_length, take_app_length, Hpost.
    replace (2 <=? length suffix) with true by (symmetry; apply Nat.leb_le; lia).
    reflexivity.
Qed.

Lemma whole_token_unique (prev : option ascii) (s tok1 tok2 : text) :
  whole_token prev s tok1 -> whole_token prev s tok2 -> tok1 = tok2.
Proof.
  rewrite <- !match_here_whole_token. congruence.
Qed.

Lemma whole_token_nonempty (prev : option ascii) (s tok : text) :
  whole_token prev s tok -> tok <> [].
Proof.
  intros (post & _ & (prefix & suffix & -> & _ & _ & Hlo & _) & _) E.
  apply (f_equal (@length _)) in E. rewrite length_app in E. simpl in E. lia.
Qed.

Lemma last_or_cons (prev : option ascii) (c : ascii) (a : text) :
  last_or prev (c :: a) = last_or (Some c) a.
Proof.
  unfold last_or. destruct a as [|x a]; [reflexivity|].
  rewrite last_cons_cons. destruct (last (x :: a)) eqn:Hl; [reflexivity|].
  apply last_None in Hl. discriminate.
Qed.

(** Passing over the characters of a match. *)
Lemma finditer_from_skip (re : list atom) (a : text) : forall prev b,
  finditer_from re prev (a ++ b) (length a) = finditer_from re (last_or prev a) b 0.
Proof.
  induction a as [|c a IH]; intros prev b.
  - reflexivity.
  - cbn [app length finditer_from]. rewrite IH, last_or_cons. reflexivity.
Qed.

Lemma finditer_from_scan (n : nat) : forall s prev,
  length s <= n -> scan prev s (finditer_from SRV_REGEX prev s 0).
Proof.
  induction n as [|n IH]; intros s prev Hlen.
  - destruct s; [constructor | simpl in Hlen; lia].
  - destruct s as [|c s']; [constructor|].
    cbn [finditer_from].
    destruct (match_here SRV_REGEX prev (c :: s')) as [m|] eqn:Hm.
    + pose proof (proj1 (match_here_whole_token _ _ _) Hm) as Hw.
      pose proof (whole_token_nonempty _ _ _ Hw) as Hne.
      destruct Hw as (post & Hs & Hrest).
      destruct m as [|c0 m']; [contradiction|].
      injection Hs as <- ->.
      cbn [length pred]. rewrite finditer_from_skip.
      apply (scan_take prev (c :: m' ++ post) (c :: m') post); [reflexivity | |].
      * apply match_here_whole_token. exact Hm.
      * replace (last (c :: m')) with (last_or (Some c) m').
        -- apply IH. simpl in Hlen. rewrite length_app in Hlen. lia.
        -- rewrite <- (last_or_cons None). unfold last_or.
           destruct (last (c :: m')) eqn:Hl; [reflexivity|].
           apply last_None in Hl. discriminate.
    + apply scan_skip.
      * intros tok Hw. apply match_here_whole_token in Hw. congruence.
      * apply IH. simpl in Hlen. lia.
Qed.

Lemma scan_deterministic (prev : option ascii) (s : text) (out1 out2 : list text) :
  scan prev s out1 -> scan prev s out2 -> out1 = out2.
Proof.
  intros H1. revert out2.
  induction H1 as [prev | prev c s out Hnone _ IH | prev s tok post out Hs Hw _ IH];
    intros out2 H2.
  - inversion H2 as [| | ? ? tok2 post2 ? Hs2 Hw2]; subst; [reflexivity|].
    apply whole_token_nonempty in Hw2. destruct tok2; [contradiction | discriminate].
  - inversion H2 as [| ? ? ? ? _ H2' | ? ? tok2 post2 ? Hs2 Hw2]; subst.
    + apply IH. assumption.
    + exfalso. apply (Hnone tok2). congruence.
  - inversion H2 as [| ? ? ? ? Hnone2 | ? ? tok2 post2 out2' Hs2 Hw2 H2']; subst.
    + apply whole_token_nonempty in Hw. destruct tok; [contradiction | discriminate].
    + exfalso. apply (Hnone2 tok). congruence.
    + assert (tok2 = tok) as -> by (eapply whole_token_unique; eassumption).
      apply app_inv_head in Hs2 as ->. f_equal. apply IH. assumption.
Qed.

End Extraction.

(** ** Server extraction on Unicode text *)

Section UnicodeExtraction.
Variable alnum : N -> bool.

Lemma u_upper_ascii (c : N) : Unicode.is_upper c = true -> (c <? 128)%N = true.
Proof.
  unfold Unicode.is_upper. intros H. apply andb_true_iff in H as [_ H].
  apply N.leb_le in H. apply N.ltb_lt. lia.
Qed.

Lemma u_lower_ascii (c : N) : Unicode.is_lower c = true -> (c <? 128)%N = true.
Proof.
  unfold Unicode.is_lower. intros H. apply andb_true_iff in H as [_ H].
  apply N.leb_le in H. apply N.ltb_lt. lia.
Qed.

Lemma u_digit_ascii (c : N) : Unicode.is_digit c = true -> (c <? 128)%N = true.
Proof.
  unfold Unicode.is_digit. intros H. apply andb_true_iff in H as [_ H].
  apply N.leb_le in H. apply N.ltb_lt. lia.
Qed.

(** A character of the class is an ASCII letter or digit, or one of the
    four characters taken for a letter. *)
Lemma u_in_class_cases (c : N) :
  Unicode.in_class c = true ->
  ((c <? 128)%N = true
   /\ Unicode.is_lower c || Unicode.is_upper c || Unicode.is_digit c = true)
  \/ Unicode.special c = true.
Proof.
  unfold Unicode.in_class, Unicode.fold.
  destruct (Unicode.is_upper c) eqn:Hu.
  { intros _. left. split; [apply u_upper_ascii, Hu|].
    destruct (Unicode.is_lower c); reflexivity. }
  destruct ((c =? 304)%N || (c =? 305)%N) eqn:Hi.
  { intros _. right. unfold Unicode.special.
    apply orb_true_iff in Hi as [Hi | Hi]; rewrite Hi; [reflexivity|].
    destruct (c =? 304)%N; reflexivity. }
  destruct (c =? 383)%N eqn:Hs.
  { intros _. right. unfold Unicode.special. rewrite Hs.
    destruct (c =? 304)%N, (c =? 305)%N; reflexivity. }
  destruct (c =? 8490)%N eqn:Hk.
  { intros _. right. unfold Unicode.special. rewrite Hk.
    destruct (c =? 304)%N, (c =? 305)%N, (c =? 383)%N; reflexivity. }
  intros H. left. apply orb_true_iff in H as [H | H].
  - split; [apply u_lower_ascii, H | rewrite H; reflexivity].
  - split; [apply u_digit_ascii, H|]. rewrite H.
    destruct (Unicode.is_lower c); reflexivity.
Qed.

Lemma u_special_beyond (c : N) : Unicode.special c = true -> (c <? 128)%N = false.
Proof.
  unfold Unicode.special. intros H.
  apply orb_true_iff in H as [H | H]; [|apply N.eqb_eq in H; subst; reflexivity].
  apply orb_true_iff in H as [H | H]; [|apply N.eqb_eq in H; subst; reflexivity].
  apply orb_true_iff in H as [H | H]; apply N.eqb_eq in H; subst; reflexivity.
Qed.

Lemma u_in_class_word (c : N) : Unicode.in_class c = true -> Unicode.is_word alnum c = true.
Proof.
  intros H. unfold Unicode.is_word.
  destruct (u_in_class_cases c H) as [[Hlt Hc] | Hs].
  - rewrite Hlt, Hc. reflexivity.
  - rewrite (u_special_beyond c Hs), Hs. reflexivity.
Qed.

Lemma u_run_length_le (hi : nat) : forall s, u_run_length hi s <= hi.
Proof.
  induction hi as [|hi IH]; intros s; simpl; [lia|].
  destruct s as [|x s]; [lia|]. destruct (Unicode.in_class x); [|lia].
  specialize (IH s). lia.
Qed.

Lemma u_run_length_le_length (hi : nat) : forall s, u_run_length hi s <= length s.
Proof.
  induction hi as [|hi IH]; intros s; simpl; [lia|].
  destruct s as [|x s]; [simpl; lia|]. destruct (Unicode.in_class x); simpl; [|lia].
  specialize (IH s). lia.
Qed.

Lemma u_run_length_class (hi : nat) : forall s,
  Forall (fun c => Unicode.in_class c = true) (take (u_run_length hi s) s).
Proof.
  induction hi as [|hi IH]; intros s; simpl; [rewrite take_0; constructor|].
  destruct s as [|x s]; [constructor|].
  destruct (Unicode.in_class x) eqn:Hx; simpl; [|constructor].
  constructor; [assumption | apply IH].
Qed.

Lemma u_run_length_exact (suffix : Unicode.ustr) : forall hi post,
  Forall (fun c => Unicode.in_class c = true) suffix ->
  length suffix <= hi ->
  Unicode.word_opt alnum (head post) = false ->
  u_run_length hi (suffix ++ post) = length suffix.
Proof.
  induction suffix as [|x suffix IH]; intros hi post Hall Hlen Hpost; simpl.
  - destruct hi as [|hi]; simpl; [reflexivity|].
    destruct post as [|p post]; [reflexivity|].
    simpl in Hpost. destruct (Unicode.in_class p) eqn:Hp; [|reflexivity].
    apply u_in_class_word in Hp. congruence.
  - simpl in Hlen. destruct hi as [|hi]; [lia|]. simpl.
    inversion Hall as [|? ? Hx Hall']; subst. rewrite Hx.
    rewrite IH; [reflexivity | assumption | lia | assumption].
Qed.

Lemma u_boundary_only_word (prev : option N) (s : Unicode.ustr) :
  Unicode.word_opt alnum prev = true ->
  u_boundary_only alnum prev s = if negb (Unicode.word_opt alnum (head s)) then Some [] else None.
Proof.
  intros Hprev. unfold u_boundary_only, Unicode.match_here, Unicode.at_boundary. rewrite Hprev.
  destruct (Unicode.word_opt alnum (head s)); reflexivity.
Qed.

Lemma u_rep_unfold (k : option N -> Unicode.ustr -> option Unicode.ustr) (lo hi : nat)
    (prev : option N) (s : Unicode.ustr) :
  Unicode.rep k lo hi prev s
  = let stop := if lo =? 0 then k prev s else None in
    match hi, s with
    | S hi', x :: s' =>
        if Unicode.in_class x
        then match option_map (cons x) (Unicode.rep k (pred lo) hi' (Some x) s') with
             | Some r => Some r
             | None => stop
             end
        else stop
    | _, _ => stop
    end.
Proof. destruct hi; reflexivity. Qed.

(** The repetition followed by a word boundary takes the whole run of class
    characters, up to [hi], or fails. *)
Lemma u_rep_boundary (hi : nat) : forall lo prev s,
  1 <= lo \/ Unicode.word_opt alnum prev = true ->
  Unicode.rep (u_boundary_only alnum) lo hi prev s
  = if (lo <=? u_run_length hi s) && negb (Unicode.word_opt alnum (head (drop (u_run_length hi s) s)))
    then Some (take (u_run_length hi s) s) else None.
Proof.
  induction hi as [|hi IH]; intros lo prev s Hlo; rewrite u_rep_unfold; cbv zeta.
  - cbn [u_run_length]. rewrite drop_0, take_0.
    destruct lo as [|lo]; [|destruct s; reflexivity].
    destruct Hlo as [Hlo | Hprev]; [lia|].
    rewrite (u_boundary_only_word _ _ Hprev). destruct s; reflexivity.
  - destruct s as [|x s'].
    + cbn [u_run_length]. rewrite drop_0, take_0.
      destruct lo as [|lo]; [|reflexivity].
      destruct Hlo as [Hlo | Hprev]; [lia|].
      rewrite (u_boundary_only_word _ _ Hprev). reflexivity.
    + cbn [u_run_length]. destruct (Unicode.in_class x) eqn:Hx.
      * rewrite IH by (right; simpl; apply u_in_class_word, Hx).
        cbn [drop take].
        replace (pred lo <=? u_run_length hi s') with (lo <=? S (u_run_length hi s'))
          by (destruct lo; reflexivity).
        destruct ((lo <=? S (u_run_length hi s'))
                  && negb (Unicode.word_opt alnum (head (drop (u_run_length hi s') s')))) eqn:Hc;
          cbn [option_map]; [reflexivity|].
        destruct lo as [|lo]; [|reflexivity].
        destruct Hlo as [Hlo | Hprev]; [lia|].
        rewrite (u_boundary_only_word _ _ Hprev). cbn [head Unicode.word_opt].
        rewrite (u_in_class_word _ Hx). reflexivity.
      * rewrite drop_0, take_0.
        destruct lo as [|lo]; [|reflexivity].
        destruct Hlo as [Hlo | Hprev]; [lia|].
        rewrite (u_boundary_only_word _ _ Hprev). reflexivity.
Qed.

(** [Unicode.SRV_REGEX] at a position, step by step. *)
Lemma u_match_here_srv (prev : option N) (s : Unicode.ustr) :
  Unicode.match_here alnum Unicode.SRV_REGEX prev s
  = if Unicode.at_boundary alnum prev s
    then match s with
         | x1 :: x2 :: x3 :: x4 :: s4 =>
             if u_prefix_ok x1 x2 x3 x4
             then option_map (app [x1; x2; x3; x4])
                    (Unicode.rep (u_boundary_only alnum) 2 10 (Some x4) s4)
             else None
         | _ => None
         end
    else None.
Proof.
  unfold Unicode.SRV_REGEX, u_prefix_ok. cbn [Unicode.match_here].
  destruct (Unicode.at_boundary alnum prev s); [|reflexivity].
  destruct s as [|x1 [|x2 [|x3 [|x4 s4]]]]; try reflexivity;
    change (Unicode.fold 115) with 115%N;
    change (Unicode.fold 114) with 114%N;
    change (Unicode.fold 118) with 118%N;
    change (Unicode.fold 45) with 45%N;
    destruct (Unicode.fold x1 =? 115)%N; try reflexivity;
    destruct (Unicode.fold x2 =? 114)%N; try reflexivity;
    destruct (Unicode.fold x3 =? 118)%N; try reflexivity;
    destruct (Unicode.fold x4 =? 45)%N; try reflexivity.
  cbn [andb].
  match goal with
  | |- context [Unicode.rep ?k 2 10 (Some x4) s4] =>
      change (Unicode.rep k 2 10 (Some x4) s4) with (Unicode.rep (u_boundary_only alnum) 2 10 (Some x4) s4)
  end.
  destruct (Unicode.rep (u_boundary_only alnum) 2 10 (Some x4) s4); reflexivity.
Qed.

Lemma u_last_class_word (l : Unicode.ustr) :
  Forall (fun c => Unicode.in_class c = true) l -> l <> [] -> Unicode.word_opt alnum (last l) = true.
Proof.
  intros Hall Hne. destruct (last l) as [c|] eqn:Hl.
  - apply last_Some_elem_of in Hl. rewrite Forall_forall in Hall.
    simpl. apply u_in_class_word, Hall, Hl.
  - apply last_None in Hl. contradiction.
Qed.

Lemma u_last_app_nonempty (l1 l2 : Unicode.ustr) : l2 <> [] -> last (l1 ++ l2) = last l2.
Proof.
  intros Hne. rewrite last_app. destruct (last l2) eqn:Hl; [reflexivity|].
  apply last_None in Hl. contradiction.
Qed.

Lemma u_prefix_ok_lower (x1 x2 x3 x4 : N) :
  u_prefix_ok x1 x2 x3 x4 = true
  <-> map Unicode.fold [x1; x2; x3; x4] = [115; 114; 118; 45]%N.
Proof.
  unfold u_prefix_ok. rewrite !andb_true_iff, !N.eqb_eq. cbn [map]. split.
  - intros [[[-> ->] ->] ->]. reflexivity.
  - intros [= -> -> -> ->]. auto.
Qed.

(** The matcher finds exactly the whole-token matches. *)
Lemma u_match_here_whole_token (prev : option N) (s tok : Unicode.ustr) :
  Unicode.match_here alnum Unicode.SRV_REGEX prev s = Some tok <-> u_whole_token alnum prev s tok.
Proof.
  rewrite u_match_here_srv. split.
  - destruct (Unicode.at_boundary alnum prev s) eqn:Hb; [|discriminate].
    destruct s as [|x1 [|x2 [|x3 [|x4 s4]]]]; try discriminate.
    destruct (u_prefix_ok x1 x2 x3 x4) eqn:Hp; [|discriminate].
    rewrite u_rep_boundary by (left; lia).
    set (n := u_run_length 10 s4).
    destruct ((2 <=? n) && negb (Unicode.word_opt alnum (head (drop n s4)))) eqn:Hc; [|discriminate].
    cbn [option_map]. intros [= <-].
    apply andb_true_iff in Hc as [Hn Hend]. apply Nat.leb_le in Hn.
    apply negb_true_iff in Hend.
    assert (Hlen : length (take n s4) = n).
    { rewrite length_take. pose proof (u_run_length_le_length 10 s4). lia. }
    assert (Hne : take n s4 <> []).
    { intros E. rewrite E in Hlen. simpl in Hlen. lia. }
    exists (drop n s4). split_and!.
    + cbn. rewrite take_drop. reflexivity.
    + exists [x1; x2; x3; x4], (take n s4). split_and!.
      * reflexivity.
      * apply u_prefix_ok_lower, Hp.
      * apply u_run_length_class.
      * lia.
      * rewrite Hlen. apply u_run_length_le.
    + exact Hb.
    + unfold Unicode.at_boundary.
      change (last ([x1; x2; x3; x4] ++ take n s4)) with
        (last (x1 :: x2 :: x3 :: x4 :: take n s4)).
      change (x1 :: x2 :: x3 :: x4 :: take n s4) with ([x1; x2; x3; x4] ++ take n s4).
      rewrite (u_last_app_nonempty [x1; x2; x3; x4] _ Hne).
      pose proof (u_run_length_class 10 s4) as Hall. fold n in Hall.
      rewrite (u_last_class_word _ Hall Hne), Hend. reflexivity.
  - intros (post & -> & (prefix & suffix & -> & Hpre & Hall & Hlo & Hhi) & Hb & He).
    rewrite Hb.
    destruct prefix as [|x1 [|x2 [|x3 [|x4 [|x5 prefix]]]]]; try discriminate.
    cbn [app]. rewrite (proj2 (u_prefix_ok_lower x1 x2 x3 x4) Hpre).
    assert (Hne : suffix <> []).
    { intros E. rewrite E in Hlo. simpl in Hlo. lia. }
    assert (Hpost : Unicode.word_opt alnum (head post) = false).
    { unfold Unicode.at_boundary in He.
      rewrite (u_last_app_nonempty [x1; x2; x3; x4] _ Hne) in He.
      rewrite (u_last_class_word _ Hall Hne) in He.
      destruct (Unicode.word_opt alnum (head post)); [discriminate | reflexivity]. }
    rewrite u_rep_boundary by (left; lia).
    rewrite (u_run_length_exact suffix 10 post Hall Hhi Hpost).
    rewrite drop_app_length, take_app_length, Hpost.
    replace (2 <=? length suffix) with true by (symmetry; apply Nat.leb_le; lia).
    reflexivity.
Qed.

Lemma u_whole_token_unique (prev : option N) (s tok1 tok2 : Unicode.ustr) :
  u_whole_token alnum prev s tok1 -> u_whole_token alnum prev s tok2 -> tok1 = tok2.
Proof.
  rewrite <- !u_match_here_whole_token. congruence.
Qed.

Lemma u_whole_token_nonempty (prev : option N) (s tok : Unicode.ustr) :
  u_whole_token alnum prev s tok -> tok <> [].
Proof.
  intros (post & _ & (prefix & suffix & -> & _ & _ & Hlo & _) & _) E.
  apply (f_equal (@length _)) in E. rewrite length_app in E. simpl in E. lia.
Qed.

Lemma u_last_or_cons (prev : option N) (c : N) (a : Unicode.ustr) :
  u_last_or prev (c :: a) = u_last_or (Some c) a.
Proof.
  unfold u_last_or. destruct a as [|x a]; [reflexivity|].
  rewrite last_cons_cons. destruct (last (x :: a)) eqn:Hl; [reflexivity|].
  apply last_None in Hl. discriminate.
Qed.

(** Passing over the characters of a match. *)
Lemma u_finditer_from_skip (re : list Unicode.atom) (a : Unicode.ustr) : forall prev b,
  Unicode.finditer_from alnum re prev (a ++ b) (length a) = Unicode.finditer_from alnum re (u_last_or prev a) b 0.
Proof.
  induction a as [|c a IH]; intros prev b.
  - reflexivity.
  - cbn [app length Unicode.finditer_from]. rewrite IH, u_last_or_cons. reflexivity.
Qed.

Lemma u_finditer_from_scan (n : nat) : forall s prev,
  length s <= n -> u_scan alnum prev s (Unicode.finditer_from alnum Unicode.SRV_REGEX prev s 0).
Proof.
  induction n as [|n IH]; intros s prev Hlen.
  - destruct s; [constructor | simpl in Hlen; lia].
  - destruct s as [|c s']; [constructor|].
    cbn [Unicode.finditer_from].
    destruct (Unicode.match_here alnum Unicode.SRV_REGEX prev (c :: s')) as [m|] eqn:Hm.
    + pose proof (proj1 (u_match_here_whole_token _ _ _) Hm) as Hw.
      pose proof (u_whole_token_nonempty _ _ _ Hw) as Hne.
      destruct Hw as (post & Hs & Hrest).
      destruct m as [|c0 m']; [contradiction|].
      injection Hs as <- ->.
      cbn [length pred]. rewrite u_finditer_from_skip.
      apply (u_scan_take alnum prev (c :: m' ++ post) (c :: m') post); [reflexivity | |].
      * apply u_match_here_whole_token. exact Hm.
      * replace (last (c :: m')) with (u_last_or (Some c) m').
        -- apply IH. simpl in Hlen. rewrite length_app in Hlen. lia.
        -- rewrite <- (u_last_or_cons None). unfold u_last_or.
           destruct (last (c :: m')) eqn:Hl; [reflexivity|].
           apply last_None in Hl. discriminate.
    + apply (u_scan_skip alnum).
      * intros tok Hw. apply u_match_here_whole_token in Hw. congruence.
      * apply IH. simpl in Hlen. lia.
Qed.

Lemma u_scan_deterministic (prev : option N) (s : Unicode.ustr) (out1 out2 : list Unicode.ustr) :
  u_scan alnum prev s out1 -> u_scan alnum prev s out2 -> out1 = out2.
Proof.
  intros H1. revert out2.
  induction H1 as [prev | prev c s out Hnone _ IH | prev s tok post out Hs Hw _ IH];
    intros out2 H2.
  - inversion H2 as [| | ? ? tok2 post2 ? Hs2 Hw2]; subst; [reflexivity|].
    apply u_whole_token_nonempty in Hw2. destruct tok2; [contradiction | discriminate].
  - inversion H2 as [| ? ? ? ? _ H2' | ? ? tok2 post2 ? Hs2 Hw2]; subst.
    + apply IH. assumption.
    + exfalso. apply (Hnone tok2). congruence.
  - inversion H2 as [| ? ? ? ? Hnone2 | ? ? tok2 post2 out2' Hs2 Hw2 H2']; subst.
    + apply u_whole_token_nonempty in Hw. destruct tok; [contradiction | discriminate].
    + exfalso. apply (Hnone2 tok). congruence.
    + assert (tok2 = tok) as -> by (eapply u_whole_token_unique; eassumption).
      apply app_inv_head in Hs2 as ->. f_equal. apply IH. assumption.
Qed.

End UnicodeExtraction.

Section ExtractionClaims.

(** C7, as stated, fails on matches that overlap: in [srv-srv-ab1] the
    text [srv-ab1] that starts after the first separator is a whole-token
    match, between a word boundary and the end of the text, but the match
    [srv-srv] that starts before it covers its first characters, and the
    extractor returns that one only. This holds whatever the table of
    alphanumeric characters beyond ASCII. *)
Lemma overlapping_match_counterexample :
  codes "srv-srv-ab1" = codes "srv-" ++ codes "srv-ab1" ++ []
  /\ (forall alnum,
        u_whole_token alnum (last (codes "srv-")) (codes "srv-ab1" ++ [])
          (codes "srv-ab1"))
  /\ (forall alnum,
        Unicode.extract_servers alnum (codes "srv-srv-ab1") = [codes "srv-srv"]
        /\ ~ In (codes "srv-ab1")
               (Unicode.extract_servers alnum (codes "srv-srv-ab1"))).
Proof.
  split_and!.
  - reflexivity.
  - intros alnum. apply u_match_here_whole_token. reflexivity.
  - intros alnum.
    assert (He : Unicode.extract_servers alnum (codes "srv-srv-ab1")
                 = [codes "srv-srv"]) by reflexivity.
    split; [exact He|]. rewrite He. intros [H | []]. discriminate H.
Qed.

(** C7, amended: for every text, and whatever the table of alphanumeric
    characters beyond ASCII, the extractor returns the lower-case forms of
    the whole-token matches taken from left to right, each search resuming
    where the last match ended, so that a match which begins inside an
    earlier one is not returned; that sequence is the only one that such a
    scan allows, repeats kept. A whole-token match is four characters taken
    for [s], [r], [v] and the separator when case is ignored, then 2 to 10
    characters taken for a letter of [a] to [z] or a digit, with a word
    boundary on each side. Beyond ASCII, U+017F is taken for [s], U+212A
    for [k], U+0130 and U+0131 for [i], and a word character is an
    alphanumeric character or the underscore: the long s in place of [s]
    is matched and kept as it is, the dotted capital I becomes [i] and a
    combining dot, and a letter before the prefix leaves no boundary there.
    The empty text gives the empty sequence, and the text of the example
    gives [srv-ab1] twice. *)
Theorem extract_servers_leftmost_whole_tokens :
  forall alnum : N -> bool,
  (forall text,
      exists ms,
        u_scan alnum None text ms
        /\ Unicode.extract_servers alnum text = map Unicode.lower ms
        /\ forall ms', u_scan alnum None text ms' -> ms' = ms)
  /\ (forall prev s tok,
        Unicode.match_here alnum Unicode.SRV_REGEX prev s = Some tok
        <-> u_whole_token alnum prev s tok)
  /\ Unicode.extract_servers alnum [] = []
  /\ Unicode.extract_servers alnum (codes "srv-ab1 mentions srv-AB1 too")
     = [codes "srv-ab1"; codes "srv-ab1"]
  /\ Unicode.extract_servers alnum (long_s :: codes "rv-ab")
     = [long_s :: codes "rv-ab"]
  /\ Unicode.extract_servers alnum (codes "srv-a" ++ [dotted_I])
     = [codes "srv-ai" ++ [775%N]]
  /\ (alnum e_acute = true ->
      Unicode.extract_servers alnum (e_acute :: codes "srv-ab12") = []).
Proof.
  intros alnum. split_and!.
  - intros text. exists (Unicode.finditer alnum Unicode.SRV_REGEX text).
    assert (Hscan : u_scan alnum None text
                      (Unicode.finditer alnum Unicode.SRV_REGEX text)).
    { apply (u_finditer_from_scan alnum (length text)). lia. }
    split_and!.
    + exact Hscan.
    + unfold Unicode.extract_servers. destruct text as [|c text]; reflexivity.
    + intros ms' H'. eapply u_scan_deterministic; eassumption.
  - apply u_match_here_whole_token.
  - reflexivity.
  - reflexivity.
  - reflexivity.
  - reflexivity.
  - unfold e_acute. intros He. vm_compute. rewrite !He. reflexivity.
Qed.

Lemma extract_servers_leftmost_whole_tokens_witness :
  u_whole_token latin1_letters None
    (codes "srv-ab1 mentions srv-AB1 too") (codes "srv-ab1")
  /\ (exists ms,
        u_scan latin1_letters None (codes "srv-srv-ab1") ms
        /\ Unicode.extract_servers latin1_letters (codes "srv-srv-ab1")
           = map Unicode.lower ms)
  /\ Unicode.extract_servers latin1_letters (e_acute :: codes "srv-ab12") = [].
Proof.
  destruct (extract_servers_leftmost_whole_tokens latin1_letters)
    as (Hscan & Hmatch & _ & _ & _ & _ & Hacute).
  split_and!.
  - apply (proj1 (Hmatch None (codes "srv-ab1 mentions srv-AB1 too")
                    (codes "srv-ab1"))).
    reflexivity.
  - destruct (Hscan (codes "srv-srv-ab1")) as (ms & Hms & Hex & _).
    exists ms. split; assumption.
  - apply Hacute. reflexivity.
Defined.

End ExtractionClaims.

(** * Further properties *)

(** ** The classifier: labels and requests *)

Section ClassifierMore.

Lemma allowed_known (l : string) : allowed l = true -> In l TECH_LABELS.
Proof.
  unfold allowed, _ALLOWED. intros H. apply bool_decide_eq_true in H.
  apply elem_of_list_to_set, list_elem_of_In in H. exact H.
Qed.

Lemma second_label_known (c : completion) : known_label (second_label c).
Proof.
  unfold known_label, second_label. apply in_or_app.
  destruct c as [c2|]; [|right; left; reflexivity].
  destruct (normalize c2) as [t2|]; [|right; left; reflexivity].
  destruct (allowed t2) eqn:Ha; [left; apply allowed_known, Ha | right; left; reflexivity].
Qed.

(** With a client, the attempts return one of the five labels or the
    fallback label, after at most two requests, each the request built
    from the text. *)
Lemma classify_attempts_known_label (svc : service) (text : string)
    (sent : list request) :
  known_label (fst (classify_technology svc text sent))
  /\ (exists extra,
        snd (classify_technology svc text sent) = sent ++ extra
        /\ length extra <= 2
        /\ Forall (fun r => r = request_for text) extra)
  /\ (has_text text = false ->
      classify_technology svc text sent = (UNCLASSIFIED_LABEL, sent)).
Proof.
  assert (Hfb : known_label UNCLASSIFIED_LABEL).
  { unfold known_label. apply in_or_app. right. left. reflexivity. }
  destruct (has_text text) eqn:Ht.
  2:{ unfold classify_technology. rewrite Ht. cbn [negb fst snd].
      split_and!; [exact Hfb | | reflexivity].
      exists []. rewrite app_nil_r. split_and!; [reflexivity | simpl; lia | constructor]. }
  destruct (svc (length sent) (request_for text)) as [c|] eqn:Hc.
  - destruct (normalize c) as [tok|] eqn:Hn.
    + destruct (allowed tok) eqn:Ha.
      * rewrite (classify_first_allowed svc text sent c tok Ht Hc Hn Ha). cbn [fst snd].
        split_and!; [|exists [request_for text]; split_and!; auto; repeat constructor | discriminate].
        unfold known_label. apply in_or_app. left. apply allowed_known, Ha.
      * rewrite (classify_first_rejected svc text sent c tok Ht Hc Hn Ha). cbn [fst snd].
        split_and!; [apply second_label_known | | discriminate].
        exists [request_for text; request_for text].
        split_and!; auto; repeat constructor.
    + unfold classify_technology. rewrite Ht. cbn [negb].
      rewrite (ask_once_content svc (build_user_msg text) sent c Hc), Hn. cbn [fst snd].
      split_and!; [exact Hfb | | discriminate].
      exists [request_for text]. split_and!; auto; repeat constructor.
  - rewrite (classify_first_raises svc text sent Ht Hc). cbn [fst snd].
    split_and!; [exact Hfb | | discriminate].
    exists [request_for text]. split_and!; auto; repeat constructor.
Qed.

(** X1: a call of [classify_technology] on a text that is empty or blank
    returns the fallback label with no request at all, and no client is
    asked for. On any other text the call raises when there is no client
    yet and none can be made, as when no API key is configured, and no
    request is sent; and when [get_client] gives a client, then whatever
    the service answers the call returns one of the five labels or the
    fallback label, and sends at most two requests, each the request built
    from the text. *)
Theorem classify_technology_known_label (new_client : result service)
    (_client : option service) (text : string) (sent : list request) :
  (has_text text = false ->
   classify_technology_call new_client _client text sent
   = (Returned (UNCLASSIFIED_LABEL, sent), _client))
  /\ (has_text text = true -> _client = None -> new_client = Raised ->
      classify_technology_call new_client _client text sent = (Raised, None))
  /\ (forall client,
        has_text text = true ->
        fst (get_client new_client _client) = Returned client ->
        exists label extra,
          classify_technology_call new_client _client text sent
          = (Returned (label, sent ++ extra), Some client)
          /\ known_label label
          /\ length extra <= 2
          /\ Forall (fun r => r = request_for text) extra).
Proof.
  split_and!.
  - intros Ht. unfold classify_technology_call. rewrite Ht. reflexivity.
  - intros Ht -> ->. unfold classify_technology_call. rewrite Ht. reflexivity.
  - intros client Ht Hg.
    destruct (classify_attempts_known_label client text sent)
      as (Hk & (extra & He & Hlen & Hall) & _).
    exists (fst (classify_technology client text sent)), extra.
    assert (Hcall : get_client new_client _client = (Returned client, Some client)).
    { unfold get_client in *. destruct _client as [c|].
      - cbn in Hg. injection Hg as ->. reflexivity.
      - destruct new_client as [c|]; cbn in Hg; [|discriminate Hg].
        injection Hg as ->. reflexivity. }
    split_and!; [| exact Hk | exact Hlen | exact Hall].
    unfold classify_technology_call. rewrite Ht, Hcall. cbn [negb].
    rewrite <- He. destruct (classify_technology client text sent); reflexivity.
Qed.

Lemma classify_technology_known_label_witness :
  classify_technology_call Raised None "   " [] = (Returned (UNCLASSIFIED_LABEL, []), None)
  /\ classify_technology_call Raised None "db is down" [] = (Raised, None)
  /\ exists label extra,
       classify_technology_call (Returned (always_says "database")) None "db is down" []
       = (Returned (label, [] ++ extra), Some (always_says "database"))
       /\ known_label label
       /\ length extra <= 2
       /\ Forall (fun r => r = request_for "db is down") extra.
Proof.
  split_and!.
  - apply (proj1 (classify_technology_known_label Raised None "   " [])).
    reflexivity.
  - apply (proj1 (proj2 (classify_technology_known_label Raised None "db is down" [])));
      reflexivity.
  - apply (proj2 (proj2 (classify_technology_known_label
                           (Returned (always_says "database")) None
                           "db is down" []))); reflexivity.
Defined.

End ClassifierMore.

(** ** Server extraction: the names returned *)

Section ExtractionMore.

Lemma to_string_app (a b : text) :
  to_string (a ++ b) = (to_string a ++ to_string b)%string.
Proof. induction a as [|c a IH]; simpl; [reflexivity | rewrite IH; reflexivity]. Qed.

Lemma of_string_app (a b : string) :
  of_string (a ++ b)%string = of_string a ++ of_string b.
Proof. induction a as [|c a IH]; simpl; [reflexivity | rewrite IH; reflexivity]. Qed.

Lemma lower_alnum_class (c : ascii) : is_lower_alnum c = true -> in_class c = true.
Proof.
  unfold is_lower_alnum, in_class.
  destruct (is_lower c), (is_digit c), (is_upper c); simpl; congruence.
Qed.

Lemma lower_char_alnum (c : ascii) :
  is_alnum c = true -> is_lower_alnum (lower_char c) = true.
Proof.
  destruct c as [b0 b1 b2 b3 b4 b5 b6 b7].
  destruct b0, b1, b2, b3, b4, b5, b6, b7; simpl; intros H;
    first [reflexivity | discriminate H].
Qed.

Lemma lower_char_fixed (c : ascii) : is_lower_alnum c = true -> lower_char c = c.
Proof.
  destruct c as [b0 b1 b2 b3 b4 b5 b6 b7].
  destruct b0, b1, b2, b3, b4, b5, b6, b7; simpl; intros H;
    first [reflexivity | discriminate H].
Qed.

Lemma lower_fixed (s : text) :
  Forall (fun c => is_lower_alnum c = true) s -> lower s = s.
Proof.
  unfold lower. induction 1 as [|c s Hc _ IH]; simpl; [reflexivity|].
  rewrite (lower_char_fixed c Hc), IH. reflexivity.
Qed.

(** Every match that [finditer] yields is a match of the pattern somewhere. *)
Lemma finditer_from_matches (re : list atom) (m : text) (s : text) :
  forall prev skip,
    In m (finditer_from re prev s skip) ->
    exists prev' s', match_here re prev' s' = Some m.
Proof.
  induction s as [|c s IH]; intros prev skip; cbn [finditer_from]; [intros []|].
  destruct skip as [|k]; [|apply IH].
  destruct (match_here re prev (c :: s)) as [m0|] eqn:Hm; [|apply IH].
  intros [<- | Hin]; [eauto | eapply IH; eassumption].
Qed.

Lemma server_shape_canonical (tok : text) :
  server_shape tok -> canonical_name (canonical tok).
Proof.
  intros (prefix & suffix & -> & Hpre & Hall & Hlen).
  exists (lower suffix). split_and!.
  - unfold canonical, lower. rewrite map_app. fold (lower prefix). rewrite Hpre.
    rewrite to_string_app, to_of_string. reflexivity.
  - unfold lower. apply Forall_map. eapply Forall_impl; [exact Hall|].
    intros c Hc. apply lower_char_alnum, Hc.
  - unfold lower. rewrite length_map. lia.
  - unfold lower. rewrite length_map. lia.
Qed.

(** A text that is one whole-token match gives that match alone. *)
Lemma extract_servers_single (tok : text) :
  whole_token None tok tok -> extract_servers (to_string tok) = [canonical tok].
Proof.
  intros Hw. pose proof (whole_token_nonempty _ _ _ Hw) as Hne.
  apply match_here_whole_token in Hw.
  destruct tok as [|c tok']; [contradiction|].
  unfold extract_servers. cbn [to_string string_of_list_ascii truthy negb].
  change (String c (string_of_list_ascii tok')) with (to_string (c :: tok')).
  rewrite of_to_string. unfold finditer. cbn [finditer_from]. rewrite Hw.
  cbn [length pred map].
  rewrite <- (app_nil_r tok') at 2. rewrite finditer_from_skip. reflexivity.
Qed.

Lemma canonical_name_whole_token (suffix : text) :
  Forall (fun c => is_lower_alnum c = true) suffix ->
  2 <= length suffix <= 10 ->
  whole_token None (of_string "srv-" ++ suffix) (of_string "srv-" ++ suffix).
Proof.
  intros Hall Hlen.
  assert (Hcls : Forall (fun c => in_class c = true) suffix).
  { eapply Forall_impl; [exact Hall|]. intros c Hc. apply lower_alnum_class, Hc. }
  assert (Hne : suffix <> []).
  { intros E. rewrite E in Hlen. simpl in Hlen. lia. }
  exists []. split_and!.
  - rewrite app_nil_r. reflexivity.
  - exists (of_string "srv-"), suffix. split_and!; [reflexivity | reflexivity | exact Hcls | lia | lia].
  - reflexivity.
  - unfold at_boundary. rewrite (last_app_nonempty _ _ Hne).
    rewrite (last_class_word _ Hcls Hne). reflexivity.
Qed.











End ExtractionMore.

(** ** The frequency tables: order and totals *)

Section TablesMore.

Lemma positive_counter_add (k : string) (c : counter) :
  Forall (fun p => 1 <= snd p) c -> Forall (fun p => 1 <= snd p) (counter_add k c).
Proof.
  induction c as [|[k' n] c IH]; intros H; simpl.
  - repeat constructor.
  - inversion H as [|? ? Hn Hc]; subst.
    destruct (String.eqb k k'); constructor; simpl in *; auto; lia.
Qed.

Lemma positive_counter_update (elems : list string) : forall c : counter,
  Forall (fun p => 1 <= snd p) c -> Forall (fun p => 1 <= snd p) (counter_update elems c).
Proof.
  unfold counter_update.
  induction elems as [|e elems IH]; intros c H; simpl; [exact H|].
  apply IH, positive_counter_add, H.
Qed.

Lemma total_counter_add (k : string) (c : counter) :
  total (counter_add k c) = S (total c).
Proof.
  unfold total. induction c as [|[k' n] c IH]; simpl; [reflexivity|].
  destruct (String.eqb k k'); simpl; [reflexivity|]. rewrite IH. lia.
Qed.

Lemma total_counter_update (elems : list string) : forall c : counter,
  total (counter_update elems c) = total c + length elems.
Proof.
  unfold counter_update.
  induction elems as [|e elems IH]; intros c; simpl; [lia|].
  rewrite IH, total_counter_add. lia.
Qed.

Lemma total_insert_desc (x : string * nat) (l : list (string * nat)) :
  total (insert_desc x l) = snd x + total l.
Proof.
  unfold total. induction l as [|y l IH]; simpl; [reflexivity|].
  destruct (snd x <? snd y); simpl; [rewrite IH|]; lia.
Qed.

Lemma total_most_common (c : counter) : total (most_common c) = total c.
Proof.
  induction c as [|x c IH]; [reflexivity|].
  change (most_common (x :: c)) with (insert_desc x (most_common c)).
  rewrite total_insert_desc, IH. reflexivity.
Qed.

Lemma descending_insert_desc (x : string * nat) (l : list (string * nat)) :
  descending l -> descending (insert_desc x l).
Proof.
  unfold descending. induction l as [|y l IH]; intros H; simpl.
  - repeat constructor.
  - inversion H as [|? ? Hl Hy]; subst.
    destruct (snd x <? snd y) eqn:E.
    + apply Nat.ltb_lt in E. constructor; [apply IH, Hl|].
      rewrite Forall_forall. intros z Hz.
      apply list_elem_of_In, In_insert_desc in Hz as [-> | Hz]; [lia|].
      rewrite Forall_forall in Hy. apply Hy, list_elem_of_In, Hz.
    + apply Nat.ltb_ge in E. constructor; [exact H|].
      constructor; [exact E|].
      eapply Forall_impl; [exact Hy|]. intros z Hz. simpl in Hz. lia.
Qed.

Lemma descending_most_common (c : counter) : descending (most_common c).
Proof.
  induction c as [|x c IH]; [constructor|].
  change (most_common (x :: c)) with (insert_desc x (most_common c)).
  apply descending_insert_desc, IH.
Qed.

Lemma NoDup_keys_insert_desc (x : string * nat) (l : list (string * nat)) :
  List.NoDup (map fst l) -> ~ In (fst x) (map fst l) ->
  List.NoDup (map fst (insert_desc x l)).
Proof.
  induction l as [|y l IH]; intros Hnd Hx; simpl.
  - constructor; [intros [] | constructor].
  - inversion Hnd as [|? ? Hy Hl]; subst.
    destruct (snd x <? snd y); simpl.
    + constructor.
      * intros Hin. apply in_map_iff in Hin as (z & Hz & Hin).
        apply In_insert_desc in Hin as [-> | Hin].
        -- apply Hx. left. congruence.
        -- apply Hy. apply in_map_iff. exists z. auto.
      * apply IH; [exact Hl|]. intros Hin. apply Hx. right. exact Hin.
    + constructor; [exact Hx | exact Hnd].
Qed.

Lemma NoDup_keys_most_common (c : counter) :
  List.NoDup (map fst c) -> List.NoDup (map fst (most_common c)).
Proof.
  induction c as [|x c IH]; intros Hnd; [constructor|].
  inversion Hnd as [|? ? Hx Hc]; subst.
  change (most_common (x :: c)) with (insert_desc x (most_common c)).
  apply NoDup_keys_insert_desc; [apply IH, Hc|].
  intros Hin. apply Hx. apply in_map_iff in Hin as (z & Hz & Hin).
  apply (proj1 (In_most_common _ _)) in Hin. apply in_map_iff. exists z. auto.
Qed.

Lemma positive_most_common (c : counter) :
  Forall (fun p => 1 <= snd p) c -> Forall (fun p => 1 <= snd p) (most_common c).
Proof.
  rewrite !Forall_forall. intros H p Hp.
  apply H, list_elem_of_In, In_most_common, list_elem_of_In, Hp.
Qed.

Lemma positive_tech_counter (lines : list (line tech_record)) : forall c : counter,
  Forall (fun p => 1 <= snd p) c ->
  Forall (fun p => 1 <= snd p) (fold_left count_label lines c).
Proof.
  induction lines as [|ln lines IH]; intros c H; cbn [fold_left]; [exact H|].
  apply IH. unfold count_label. destruct ln as [|obj]; [exact H|].
  destruct (label obj) as [l|]; [|exact H].
  destruct (truthy l); [|exact H].
  apply positive_counter_update, H.
Qed.

Lemma positive_server_counter (lines : list (line servers_record)) :
  forall acc : counter * gset (option string),
  Forall (fun p => 1 <= snd p) (fst acc) ->
  Forall (fun p => 1 <= snd p) (fst (fold_left count_servers lines acc)).
Proof.
  induction lines as [|ln lines IH]; intros acc H; cbn [fold_left]; [exact H|].
  apply IH. unfold count_servers. destruct ln as [|obj]; [exact H|].
  destruct (servers obj) as [|s ss]; [exact H|]. cbn [fst].
  apply positive_counter_update, H.
Qed.

Lemma total_tech_counter (lines : list (line tech_record)) : forall c : counter,
  total (fold_left count_label lines c)
  = total c + length (List.filter counts_label lines).
Proof.
  induction lines as [|ln lines IH]; intros c; cbn [fold_left List.filter]; [simpl; lia|].
  rewrite IH. unfold count_label, counts_label. destruct ln as [|obj]; [lia|].
  destruct (label obj) as [l|]; cbn [truthy_opt]; [|lia].
  destruct (truthy l); [|lia].
  rewrite total_counter_update. simpl. lia.
Qed.

Lemma total_server_counter (lines : list (line servers_record)) :
  forall acc : counter * gset (option string),
  total (fst (fold_left count_servers lines acc))
  = total (fst acc) + list_sum (map mentions_of lines).
Proof.
  induction lines as [|ln lines IH]; intros acc; cbn [fold_left map]; [simpl; lia|].
  rewrite IH. change (list_sum (mentions_of ln :: map mentions_of lines))
    with (mentions_of ln + list_sum (map mentions_of lines)).
  unfold count_servers. destruct ln as [|obj]; cbn [mentions_of]; [lia|].
  destruct (servers obj) as [|s ss] eqn:Hs; [simpl; lia|]. cbn [fst].
  rewrite total_counter_update. lia.
Qed.

(** X3: the two frequency tables that [aggregate_outputs] writes are in
    descending order of count, name no label or server twice, and hold no
    count below one. *)
Theorem frequency_tables_descending (issues_all : list issue) (f : files) :
  exists tech srv,
    TECH_COUNTS (aggregate_outputs issues_all f) = Some tech
    /\ SERVER_COUNTS (aggregate_outputs issues_all f) = Some srv
    /\ descending tech /\ descending srv
    /\ List.NoDup (map fst tech) /\ List.NoDup (map fst srv)
    /\ Forall (fun p => 1 <= snd p) tech /\ Forall (fun p => 1 <= snd p) srv.
Proof.
  eexists _, _. split_and!; try reflexivity.
  - apply descending_most_common.
  - apply descending_most_common.
  - apply NoDup_keys_most_common, NoDup_keys_tech_counter.
  - apply NoDup_keys_most_common, NoDup_keys_server_counter.
  - apply positive_most_common, positive_tech_counter. constructor.
  - apply positive_most_common, positive_server_counter. constructor.
Qed.

(** X4: the counts of the technology table add up to the number of lines
    of the classification log that hold a non-empty label, and the counts of
    the server table add up to the number of server names listed in the
    extraction log, repeats and duplicate records included; malformed lines
    count for nothing. *)
Theorem frequency_tables_totals (issues_all : list issue) (f : files) :
  exists tech srv,
    TECH_COUNTS (aggregate_outputs issues_all f) = Some tech
    /\ SERVER_COUNTS (aggregate_outputs issues_all f) = Some srv
    /\ total tech = length (List.filter counts_label (TECH_PER_ISSUE f))
    /\ total srv = list_sum (map mentions_of (SERVERS_PER_ISSUE f)).
Proof.
  eexists _, _. split_and!; try reflexivity.
  - rewrite total_most_common. unfold tech_counter_of.
    rewrite total_tech_counter. reflexivity.
  - rewrite total_most_common. unfold servers_fold.
    rewrite total_server_counter. reflexivity.
Qed.

End TablesMore.

(** ** The enrichment loop: progress and resumption *)

Section EnrichmentMore.

Lemma classify_label_known (svc : service) (text : string) (sent : list request) :
  known_label (fst (classify_technology svc text sent)).
Proof.
  assert (Hfb : known_label UNCLASSIFIED_LABEL).
  { unfold known_label. apply in_or_app. right. left. reflexivity. }
  assert (Hal : forall l, allowed l = true -> known_label l).
  { intros l Hl. unfold known_label. apply in_or_app. left. apply allowed_known, Hl. }
  unfold classify_technology.
  destruct (negb (has_text text)); [exact Hfb|].
  destruct (ask_once svc (build_user_msg text) sent) as [[l1|] s1]; [|exact Hfb].
  destruct (allowed l1) eqn:H1; [apply Hal, H1|].
  destruct (ask_once svc (build_user_msg text) s1) as [[l2|] s2]; [|exact Hfb].
  destruct (allowed l2) eqn:H2; [apply Hal, H2 | exact Hfb].
Qed.

Lemma enrich_loop_progress (svc : service) (done : gset string) (issues : list issue) :
  forall budget f sent,
    let f' := fst (enrich_loop svc done issues budget f sent) in
    SERVERS_PER_ISSUE f'
    = SERVERS_PER_ISSUE f
      ++ map extraction_record (take (Nat.div2 (S budget)) (pending_items done issues))
    /\ exists new_t,
         TECH_PER_ISSUE f' = TECH_PER_ISSUE f ++ new_t
         /\ Forall2 labelled new_t (take (Nat.div2 budget) (pending_items done issues)).
Proof.
  induction issues as [|i rest IH]; intros budget f sent; cbn [enrich_loop pending_items List.filter].
  - cbn. rewrite take_nil, app_nil_r. split; [reflexivity|].
    exists []. rewrite app_nil_r, take_nil. split; [reflexivity | constructor].
  - destruct (key_in (key i) done) eqn:Hk; cbn [negb].
    + apply IH.
    + fold (pending_items done rest). fold (working_text i).
      destruct budget as [|[|b]].
      * cbn. rewrite app_nil_r. split; [reflexivity|].
        exists []. rewrite app_nil_r. split; [reflexivity | constructor].
      * destruct (classify_technology svc (working_text i) sent) as [lbl sent1].
        cbn. split; [reflexivity|].
        exists []. rewrite app_nil_r. split; [reflexivity | constructor].
      * pose proof (classify_label_known svc (working_text i) sent) as Hl.
        destruct (classify_technology svc (working_text i) sent) as [lbl sent1].
        cbn [fst] in Hl.
        match goal with
        | |- context [enrich_loop svc done rest b ?f2 sent1] =>
            destruct (IH b f2 sent1) as (Hs & new_t & Ht & Hlab)
        end.
        cbv zeta. rewrite Hs, Ht. cbn [SERVERS_PER_ISSUE TECH_PER_ISSUE append_tech append_servers].
        change (Nat.div2 (S (S (S b)))) with (S (Nat.div2 (S b))).
        change (Nat.div2 (S (S b))) with (S (Nat.div2 b)).
        cbn [take map]. split.
        -- rewrite <- app_assoc. reflexivity.
        -- exists (Parsed {| tech_key := key i; label := Some lbl |} :: new_t).
           split; [rewrite <- app_assoc; reflexivity|].
           constructor; [|exact Hlab]. exists lbl. split; [reflexivity | exact Hl].
Qed.


Lemma key_in_unusable (k : option string) (f : files) :
  truthy_opt k = false -> key_in k (complete_keys f) = false.
Proof.
  unfold key_in. destruct k as [k|]; [|reflexivity]. cbn [truthy_opt]. intros Hk.
  apply bool_decide_eq_false. unfold complete_keys. intros Hin.
  apply elem_of_intersection in Hin as [Hin _].
  apply load_processed_keys_spec in Hin as (obj & _ & _ & Ht). congruence.
Qed.

Lemma take_all {A : Type} (n : nat) (l : list A) : length l <= n -> take n l = l.
Proof. intros H. apply take_ge. lia. Qed.

Lemma pending_items_length (done : gset string) (issues : list issue) :
  length (pending_items done issues) <= length issues.
Proof.
  unfold pending_items. induction issues as [|i rest IH]; simpl; [lia|].
  destruct (negb (key_in (key i) done)); simpl; lia.
Qed.

Lemma div2_double_le (n budget : nat) :
  2 * n <= budget -> n <= Nat.div2 budget /\ n <= Nat.div2 (S budget).
Proof.
  intros H. pose proof (Nat.div2_odd budget) as Hb. pose proof (Nat.div2_odd (S budget)) as Hs.
  destruct (Nat.odd budget), (Nat.odd (S budget)); simpl in *; lia.
Qed.

(** X5: the loop of [main] takes the items that are not complete in the
    order of the collection. Stopped after [budget] appends, it has appended
    to the extraction log the records of the first half of [budget], rounded
    up, of them, with the servers extracted from their text, an empty list
    included; and to the classification log the records of the first half of
    [budget], rounded down, each with the item's key and one of the known
    labels. Everything that the logs held before stays in front. *)
Theorem enrich_loop_appends_in_order (svc : service) (done : gset string)
    (issues : list issue) (budget : nat) (f : files) (sent : list request) :
  let f' := fst (enrich_loop svc done issues budget f sent) in
  SERVERS_PER_ISSUE f'
  = SERVERS_PER_ISSUE f
    ++ map extraction_record (take (Nat.div2 (S budget)) (pending_items done issues))
  /\ (exists new_t,
        TECH_PER_ISSUE f' = TECH_PER_ISSUE f ++ new_t
        /\ Forall2 labelled new_t (take (Nat.div2 budget) (pending_items done issues)))
  /\ (2 * length issues <= budget ->
      SERVERS_PER_ISSUE f'
      = SERVERS_PER_ISSUE f ++ map extraction_record (pending_items done issues)).
Proof.
  intros f'. destruct (enrich_loop_progress svc done issues budget f sent) as [Hs Ht].
  split_and!; [exact Hs | exact Ht |].
  intros Hb. fold f' in Hs. rewrite Hs, take_all; [reflexivity|].
  pose proof (pending_items_length done issues).
  pose proof (div2_double_le (length issues) budget Hb). lia.
Qed.

Lemma enrich_loop_appends_in_order_witness :
  SERVERS_PER_ISSUE (fst (enrich_loop (always_says "api") ∅ three_items 6 fresh []))
  = SERVERS_PER_ISSUE fresh ++ map extraction_record (pending_items ∅ three_items).
Proof.
  apply (proj2 (proj2 (enrich_loop_appends_in_order (always_says "api") ∅ three_items 6
                         fresh []))).
  simpl. lia.
Defined.

End EnrichmentMore.

Section ResumptionMore.



Lemma pending_items_In (done : gset string) (issues : list issue) (i : issue) :
  In i (pending_items done issues) <-> In i issues /\ key_in (key i) done = false.
Proof.
  unfold pending_items. rewrite filter_In, negb_true_iff. reflexivity.
Qed.




(** X7: an item whose key is missing or empty is never taken for
    complete: every run of [main] that reaches it processes it again and
    appends another extraction record for it, whatever the logs already
    hold. *)
Theorem item_without_key_is_processed_again (limit : Z) (svc : service) (budget : nat)
    (issues_all : list issue) (f : files) (i : issue) :
  2 * length (limited limit issues_all) <= budget ->
  In i (limited limit issues_all) ->
  truthy_opt (key i) = false ->
  exists added,
    SERVERS_PER_ISSUE (main limit svc budget issues_all f) = SERVERS_PER_ISSUE f ++ added
    /\ In (extraction_record i) added.
Proof.
  intros Hb Hin Hkey.
  destruct (enrich_loop_progress svc (complete_keys f) (limited limit issues_all) budget f [])
    as (Hs & _).
  pose proof (pending_items_length (complete_keys f) (limited limit issues_all)) as Hlen.
  pose proof (div2_double_le _ budget Hb) as [_ Hd].
  rewrite take_all in Hs by lia.
  eexists. split; [exact Hs|].
  apply in_map_iff. exists i. split; [reflexivity|].
  apply pending_items_In. split; [exact Hin | apply key_in_unusable, Hkey].
Qed.

Lemma item_without_key_is_processed_again_witness :
  exists added,
    SERVERS_PER_ISSUE
      (main 0 (always_says "api") 2 [keyless "db down" "srv-ab"]
         (main 0 (always_says "api") 2 [keyless "db down" "srv-ab"] fresh))
    = SERVERS_PER_ISSUE (main 0 (always_says "api") 2 [keyless "db down" "srv-ab"] fresh)
      ++ added
    /\ In (extraction_record (keyless "db down" "srv-ab")) added.
Proof.
  apply (item_without_key_is_processed_again 0 (always_says "api") 2
           [keyless "db down" "srv-ab"]
           (main 0 (always_says "api") 2 [keyless "db down" "srv-ab"] fresh)
           (keyless "db down" "srv-ab")).
  - simpl. lia.
  - left. reflexivity.
  - reflexivity.
Defined.




End ResumptionMore.

(** ** The fetch loop: what the log holds *)

Section FetchLogMore.

Lemma first_seen_snoc (l : list raw_issue) (i : raw_issue) : forall known,
  first_seen known (l ++ [i])
  = first_seen known l
    ++ (if truthy_opt (raw_key i)
           && negb (bool_decide (raw_key i ∈ known ++ map raw_key (first_seen known l)))
        then [i] else []).
Proof.
  induction l as [|x l IH]; intros known; cbn [app first_seen].
  - rewrite app_nil_r. destruct (_ && _); reflexivity.
  - destruct (truthy_opt (raw_key x) && negb (bool_decide (raw_key x ∈ known))).
    + rewrite IH. cbn [map app]. rewrite <- app_assoc. reflexivity.
    + apply IH.
Qed.

Lemma log_keys_log_lines (l : list raw_issue) :
  log_keys (map log_line_of l) = map raw_key l.
Proof. induction l as [|i l IH]; [reflexivity|]. cbn. f_equal. exact IH. Qed.

Section LogSteps.
Variable api : remote.
Variables (jql : string) (page_size : nat).

Local Abbreviation step := (step api jql page_size).
Local Abbreviation run := (run api jql page_size).

(** A step of the [for] loop takes the next issue and appends its line when
    the key is usable and not in [saved_keys]; no other step touches the log
    or takes an issue. *)
Lemma step_takes (st : state) :
  (exists data i rest n,
      pc st = InPage data (i :: rest) n
      /\ consumed (step st) = consumed st ++ [i]
      /\ partial (on_disk (step st))
         = partial (on_disk st)
           ++ (if truthy_opt (raw_key i) && negb (key_in (raw_key i) (saved_keys st))
               then [log_line_of i] else []))
  \/ (consumed (step st) = consumed st
      /\ partial (on_disk (step st)) = partial (on_disk st)).
Proof.
  unfold FetchIssues.step.
  destruct (pc st) as [|data [|i rest] n|why|e] eqn:Hpc.
  - right. destruct (api _ _) as [[status|]|data]; [destruct (token st)| |]; auto.
  - right. auto.
  - left. exists data, i, rest, n. split; [reflexivity|].
    cbn [key to_obj]. destruct (raw_key i) as [k|] eqn:Hk; cbn [truthy_opt key_in].
    + destruct (truthy k); cbn [negb orb andb].
      * destruct (bool_decide (k ∈ saved_keys st)); cbn [negb];
          rewrite ?app_nil_r; auto.
      * rewrite app_nil_r. auto.
    + rewrite app_nil_r. auto.
  - right. auto.
  - right. auto.
Qed.

Lemma step_keys_agree (st : state) : keys_agree st -> keys_agree (step st).
Proof.
  unfold keys_agree. intros H k Hk.
  destruct (step_log api jql page_size st)
    as [[Hp Hs] | (data & i & rest & n & k' & _ & Hk' & _ & _ & Hp & Hs)];
    rewrite Hp, Hs; [apply H, Hk|].
  rewrite log_keys_snoc, elem_of_union, elem_of_singleton, in_app_iff, (H k Hk).
  cbn [key to_obj]. rewrite Hk'. cbn.
  split; [intros [Hin | ->]; auto | intros [Hin | [[= ->] | []]]; auto].
Qed.

Lemma run_keys_agree (n : nat) : forall st, keys_agree st -> keys_agree (run n st).
Proof.
  induction n as [|n IH]; intros st H; simpl; [exact H|].
  apply IH, step_keys_agree, H.
Qed.

Lemma key_in_log_keys (st : state) (k : option string) :
  keys_agree st ->
  truthy_opt k = true ->
  key_in k (saved_keys st) = bool_decide (k ∈ log_keys (partial (on_disk st))).
Proof.
  intros Hkeys Hk. destruct k as [k|]; [|discriminate]. cbn [key_in].
  apply bool_decide_ext. rewrite (Hkeys k Hk). symmetry. apply list_elem_of_In.
Qed.

Lemma step_log_follows (d : disk) (st : state) :
  keys_agree st -> log_follows d st -> log_follows d (step st).
Proof.
  unfold log_follows. intros Hinv Hlog.
  destruct (step_takes st) as [(data & i & rest & n & Hpc & Hc & Hp) | [Hc Hp]].
  - rewrite Hc, Hp, first_seen_snoc, map_app, app_assoc, <- Hlog.
    f_equal.
    destruct (truthy_opt (raw_key i)) eqn:Ht; cbn [andb]; [|reflexivity].
    rewrite (key_in_log_keys st (raw_key i) Hinv Ht), Hlog.
    rewrite log_keys_app, log_keys_log_lines.
    destruct (bool_decide _); reflexivity.
  - rewrite Hc, Hp. exact Hlog.
Qed.

Lemma run_log_follows (d : disk) (n : nat) : forall st,
  keys_agree st -> log_follows d st -> log_follows d (run n st).
Proof.
  induction n as [|n IH]; intros st Hinv Hlog; simpl; [exact Hlog|].
  apply IH; [apply step_keys_agree, Hinv | apply step_log_follows; assumption].
Qed.

End LogSteps.

Lemma start_keys_agree (use : bool) (d : disk) : keys_agree (start use d).
Proof.
  unfold keys_agree, start. intros k Hk.
  destruct (load_saved_keys (partial d)) as [keys count] eqn:Hload. cbn.
  replace keys with (fst (load_saved_keys (partial d))) by (rewrite Hload; reflexivity).
  unfold load_saved_keys. rewrite load_saved_keys_fold. cbn [fst].
  unfold log_keys. rewrite in_map_iff. split.
  - intros [H | (o & Hin & Hkey & _)]; [apply not_elem_of_empty in H; contradiction|].
    exists o. auto.
  - intros (o & Hkey & Hin). right. exists o. auto.
Qed.

(** X9: whatever the partial log holds at the start and whatever the
    endpoint answers, the log after [fetch_and_save], returned, failed or
    interrupted, is the log at the start followed by one line for each issue
    taken by the loop whose key is usable and was neither in the log nor the
    key of an issue taken before it, in the order in which the issues were
    taken. No line is removed, changed or reordered. *)
Theorem fetch_appends_first_seen (api : remote) (jql : string) (page_size steps : nat)
    (d : disk) :
  let st := fetch_and_save api jql page_size steps d in
  partial (on_disk st)
  = partial d ++ map log_line_of (first_seen (log_keys (partial d)) (consumed st)).
Proof.
  intros st.
  destruct (fetch_and_save_log api jql page_size steps d) as [Hp Hc].
  unfold st. rewrite Hp, Hc. unfold fetch_all_basic_resumable.
  apply run_log_follows; [apply start_keys_agree|].
  unfold log_follows, start. destruct (load_saved_keys (partial d)). cbn.
  rewrite app_nil_r. reflexivity.
Qed.

End FetchLogMore.

(** ** The fetch loop: saved keys and the checkpoint *)

Section FetchCountsMore.

Lemma load_saved_keys_snoc (lines : list log_line) (ln : log_line) :
  load_saved_keys (lines ++ [ln])
  = match ln with
    | Obj obj =>
        if truthy_opt (key obj)
        then (fst (load_saved_keys lines) ∪ {[ default "" (key obj) ]},
              S (snd (load_saved_keys lines)))
        else load_saved_keys lines
    | Unparsable => load_saved_keys lines
    end.
Proof.
  unfold load_saved_keys. rewrite fold_left_app. cbn [fold_left].
  destruct (fold_left _ lines (∅, 0)) as [keys count].
  destruct ln as [|obj]; [reflexivity|]. destruct (truthy_opt (key obj)); reflexivity.
Qed.

Lemma size_add_le (X : gset string) (k : string) : size (X ∪ {[ k ]}) <= S (size X).
Proof.
  rewrite size_union_alt.
  assert (size (({[ k ]} : gset string) ∖ X) <= 1); [|lia].
  rewrite <- (size_singleton (C := gset string) k). apply subseteq_size.
  intros x Hx. apply elem_of_difference in Hx as [Hx _]. exact Hx.
Qed.

Lemma size_add_new (X : gset string) (k : string) : k ∉ X -> size (X ∪ {[ k ]}) = S (size X).
Proof.
  intros Hk. rewrite size_union, size_singleton; [lia|].
  intros x Hx Hx'. apply elem_of_singleton in Hx'. subst x. contradiction.
Qed.

Lemma items_of_app (l1 l2 : list log_line) : items_of (l1 ++ l2) = items_of l1 ++ items_of l2.
Proof. unfold items_of. apply omap_app. Qed.

Lemma load_saved_keys_count (lines : list log_line) :
  snd (load_saved_keys lines) = length (List.filter usable (items_of lines))
  /\ size (fst (load_saved_keys lines)) <= snd (load_saved_keys lines).
Proof.
  induction lines as [|ln lines [IH1 IH2]] using rev_ind.
  - split; [reflexivity|]. cbn. rewrite size_empty. lia.
  - rewrite load_saved_keys_snoc, items_of_app, List.filter_app, length_app.
    destruct ln as [|obj].
    + change (items_of [Unparsable]) with (@nil issue). cbn [List.filter length].
      rewrite Nat.add_0_r. auto.
    + change (items_of [Obj obj]) with [obj]. cbn [List.filter].
      change (usable obj) with (truthy_opt (key obj)).
      destruct (truthy_opt (key obj)); cbn [length fst snd].
      * split; [lia|].
        pose proof (size_add_le (fst (load_saved_keys lines)) (default "" (key obj))).
        lia.
      * rewrite Nat.add_0_r. auto.
Qed.

Lemma log_ok_snoc (lines : list log_line) (ln : log_line) :
  log_ok (lines ++ [ln]) ->
  log_ok lines
  /\ match ln with
     | Obj obj => exists k, key obj = Some k /\ truthy k = true
                            /\ ~ In (Some k) (log_keys lines)
     | Unparsable => True
     end.
Proof.
  unfold log_ok. rewrite items_of_app, log_keys_app. intros [Hall Hnd].
  apply Forall_app in Hall as [Hall1 Hall2].
  apply NoDup_app in Hnd as (Hnd1 & Hdisj & _).
  split; [split; assumption|].
  destruct ln as [|obj]; [exact I|].
  cbn in Hall2. inversion Hall2 as [|? ? Hk _]; subst.
  destruct (key obj) as [k|] eqn:Hkey; [|discriminate].
  exists k. split_and!; [reflexivity | exact Hk |].
  intros Hin. apply (Hdisj (Some k)); [apply list_elem_of_In, Hin|].
  unfold log_keys. cbn. rewrite Hkey. apply list_elem_of_singleton. reflexivity.
Qed.

Lemma load_saved_keys_size (lines : list log_line) :
  log_ok lines -> size (fst (load_saved_keys lines)) = length (items_of lines).
Proof.
  induction lines as [|ln lines IH] using rev_ind; intros Hok.
  - cbn. apply size_empty.
  - apply log_ok_snoc in Hok as [Hok Hln].
    rewrite load_saved_keys_snoc, items_of_app, length_app.
    destruct ln as [|obj].
    + change (items_of [Unparsable]) with (@nil issue). cbn [length].
      rewrite Nat.add_0_r. apply IH, Hok.
    + change (items_of [Obj obj]) with [obj]. cbn [length].
      destruct Hln as (k & Hkey & Ht & Hnew). rewrite Hkey. cbn [truthy_opt]. rewrite Ht.
      cbn [fst default from_option id].
      rewrite size_add_new, (IH Hok); [lia|].
      rewrite (load_saved_keys_spec lines k Hok). exact Hnew.
Qed.

Lemma filter_usable_all (l : list issue) :
  Forall (fun o => truthy_opt (key o) = true) l -> List.filter usable l = l.
Proof.
  induction 1 as [|o l Ho _ IH]; [reflexivity|].
  cbn [List.filter]. change (usable o) with (truthy_opt (key o)).
  rewrite Ho, IH. reflexivity.
Qed.

(** X10: [load_saved_keys] counts the records of the log that have a
    usable key, unreadable lines and records without one left aside; the
    number of keys in the set it returns is at most that count, and is the
    count, and the number of all records, when the log is one that the
    fetcher has written: usable keys only, none twice. *)
Theorem load_saved_keys_counts (lines : list log_line) :
  snd (load_saved_keys lines) = length (List.filter usable (items_of lines))
  /\ size (fst (load_saved_keys lines)) <= snd (load_saved_keys lines)
  /\ (log_ok lines ->
      size (fst (load_saved_keys lines)) = snd (load_saved_keys lines)
      /\ snd (load_saved_keys lines) = length (items_of lines)).
Proof.
  destruct (load_saved_keys_count lines) as [Hc Hs].
  split_and!; [exact Hc | exact Hs |].
  intros Hok. pose proof (load_saved_keys_size lines Hok) as Hsz.
  rewrite (filter_usable_all _ (proj1 Hok)) in Hc. split; congruence.
Qed.

Lemma load_saved_keys_counts_witness :
  size (fst (load_saved_keys (partial resumed))) = snd (load_saved_keys (partial resumed))
  /\ snd (load_saved_keys (partial resumed)) = length (items_of (partial resumed)).
Proof.
  apply (proj2 (proj2 (load_saved_keys_counts (partial resumed)))).
  split; [repeat constructor | apply NoDup_singleton].
Defined.

Section CountSteps.
Variable api : remote.
Variables (jql : string) (page_size : nat).

Local Abbreviation step := (step api jql page_size).
Local Abbreviation run := (run api jql page_size).





End CountSteps.



End FetchCountsMore.

(** ** The fetch loop: failures and the collection file *)

Section FetchFailuresMore.


Lemma run_add (api : remote) (jql : string) (page_size : nat) (n m : nat) :
  forall st, run api jql page_size (n + m) st
             = run api jql page_size m (run api jql page_size n st).
Proof. induction n as [|n IH]; intros st; simpl; [reflexivity | apply IH]. Qed.

(** X12: when the endpoint fails every request, with an HTTP error status
    or otherwise, [fetch_and_save] ends by letting the error out after one
    request, or after two when the first one carried a cursor that was
    rejected; it takes no issue, and leaves the log, the checkpoint and the
    collection file as they were. *)
Theorem failing_endpoint_stops_the_run (api : remote) (jql : string)
    (page_size steps : nat) (d : disk) :
  (forall n body, exists e, api n body = Fails e) ->
  2 <= steps ->
  let st := fetch_and_save api jql page_size steps d in
  (exists e, pc st = Propagates e)
  /\ on_disk st = d
  /\ 1 <= length (sent st) <= 2
  /\ consumed st = [].
Proof.
  intros Hfail Hsteps st.
  assert (Hone : forall s0 : state,
             pc s0 = AtRequest ->
             let s1 := step api jql page_size s0 in
             on_disk s1 = on_disk s0 /\ consumed s1 = consumed s0
             /\ length (sent s1) = S (length (sent s0))
             /\ ((exists e, pc s1 = Propagates e)
                 \/ (pc s1 = AtRequest /\ token s1 = None))).
  { intros s0 H0 s1. unfold s1, step. rewrite H0. cbv zeta.
    destruct (Hfail (length (sent s0)) (payload_of jql page_size (token s0))) as [e0 He0].
    rewrite He0. destruct e0 as [status|]; [destruct (token s0)|]; cbn [on_disk consumed sent pc token];
      rewrite length_app; cbn [length]; (split_and!; [reflexivity | reflexivity | lia | eauto]). }
  assert (Hlast : forall s0 : state,
             pc s0 = AtRequest -> token s0 = None ->
             exists e, pc (step api jql page_size s0) = Propagates e).
  { intros s0 H0 Ht. unfold step. rewrite H0. cbv zeta.
    destruct (Hfail (length (sent s0)) (payload_of jql page_size (token s0))) as [e0 He0].
    rewrite He0, Ht. destruct e0; cbn; eauto. }
  assert (H2 : let st2 := run api jql page_size 2 (start true d) in
               (exists e, pc st2 = Propagates e) /\ on_disk st2 = d
               /\ 1 <= length (sent st2) <= 2 /\ consumed st2 = []).
  { assert (Hs : pc (start true d) = AtRequest /\ on_disk (start true d) = d
                 /\ sent (start true d) = [] /\ consumed (start true d) = []).
    { unfold start. destruct (load_saved_keys (partial d)). cbn. auto. }
    destruct Hs as (Hs1 & Hs2 & Hs3 & Hs4).
    cbn [run]. set (s0 := start true d) in *.
    destruct (Hone s0 Hs1) as (Hd1 & Hc1 & Hl1 & Hcase). cbv zeta.
    set (s1 := step api jql page_size s0) in *.
    rewrite Hs3 in Hl1. cbn [length] in Hl1.
    destruct Hcase as [[e He] | [Hp1 Ht1]].
    - assert (Hfix : step api jql page_size s1 = s1) by (unfold step; rewrite He; reflexivity).
      rewrite Hfix. split_and!; [eauto | congruence | lia | lia | congruence].
    - destruct (Hone s1 Hp1) as (Hd2 & Hc2 & Hl2 & _).
      destruct (Hlast s1 Hp1 Ht1) as [e He]. cbv zeta in *.
      split_and!; [eauto | congruence | lia | lia | congruence]. }
  cbv zeta in H2. destruct H2 as ([e He] & Hd & Hlen & Hc).
  assert (Hst : st = run api jql page_size 2 (start true d)).
  { unfold st, fetch_and_save, fetch_all_basic_resumable.
    replace steps with (2 + (steps - 2)) by lia.
    rewrite run_add, (run_propagates api jql page_size (steps - 2) _ e He), He.
    reflexivity. }
  rewrite Hst. split_and!; [eauto | exact Hd | lia | lia | exact Hc].
Qed.

Lemma failing_endpoint_stops_the_run_witness :
  length (sent (fetch_and_save rejecting "project = TON" 2 5 resumed)) = 2
  /\ length (sent (fetch_and_save timing_out "project = TON" 2 5 resumed)) = 1
  /\ on_disk (fetch_and_save rejecting "project = TON" 2 5 resumed) = resumed.
Proof.
  destruct (failing_endpoint_stops_the_run rejecting "project = TON" 2 5 resumed)
    as (_ & Hd & _ & _).
  - intros n body. eexists. reflexivity.
  - lia.
  - split_and!; [reflexivity | reflexivity | exact Hd].
Defined.



End FetchFailuresMore.

(** ** Rich text: from [adf_from_text] to [adf_to_text] *)

Section RichTextMore.
Import UploadIssues.

Lemma str_app_nil_r (s : string) : (s ++ "")%string = s.
Proof.
  induction s as [|c s IH]; [reflexivity|].
  change (String c (s ++ "") = String c s). congruence.
Qed.

Lemma str_app_assoc (a b c : string) : ((a ++ b) ++ c)%string = (a ++ (b ++ c))%string.
Proof.
  induction a as [|x a IH]; [reflexivity|].
  change (String x ((a ++ b) ++ c) = String x (a ++ (b ++ c))). congruence.
Qed.

Lemma str_concat_cons (sep x : string) (l : list string) :
  l <> [] -> String.concat sep (x :: l) = (x ++ sep ++ String.concat sep l)%string.
Proof. destruct l; [congruence | reflexivity]. Qed.

Lemma split_lines_go_nonempty (s : string) : forall cur, split_lines_go cur s <> [].
Proof.
  induction s as [|c s IH]; intros cur; simpl; [discriminate|].
  destruct (is_nl c); [discriminate | apply IH].
Qed.

Lemma is_nl_spec (c : ascii) : is_nl c = true -> String c "" = FetchIssues.nl.
Proof. unfold is_nl. intros H. apply Ascii.eqb_eq in H. subst c. reflexivity. Qed.

Lemma join_split_lines (s : string) :
  forall cur, String.concat FetchIssues.nl (split_lines_go cur s) = (cur ++ s)%string.
Proof.
  induction s as [|c s IH]; intros cur; cbn [split_lines_go].
  - simpl. symmetry. apply str_app_nil_r.
  - destruct (is_nl c) eqn:Hc.
    + rewrite str_concat_cons by apply split_lines_go_nonempty.
      rewrite IH. apply is_nl_spec in Hc.
      change (String c s) with (String c "" ++ s)%string. rewrite Hc. reflexivity.
    + rewrite IH, str_app_assoc. reflexivity.
Qed.

Lemma split_paragraphs_go_pair (cur : string) (c c' : ascii) (s' : string) :
  split_paragraphs_go cur (String c (String c' s'))
  = if is_nl c && is_nl c'
    then cur :: split_paragraphs_go "" s'
    else split_paragraphs_go (cur ++ String c "")%string (String c' s').
Proof. reflexivity. Qed.

Lemma split_paragraphs_go_nonempty (n : nat) :
  forall s cur, String.length s <= n -> split_paragraphs_go cur s <> [].
Proof.
  induction n as [|n IH]; intros s cur Hn.
  - destruct s; [discriminate | simpl in Hn; lia].
  - destruct s as [|c [|c' s']]; try discriminate.
    rewrite split_paragraphs_go_pair.
    destruct (is_nl c && is_nl c'); [discriminate|].
    apply IH. simpl in *. lia.
Qed.

Lemma join_split_paragraphs_go (n : nat) :
  forall s cur,
    String.length s <= n ->
    String.concat blank_line (split_paragraphs_go cur s) = (cur ++ s)%string.
Proof.
  induction n as [|n IH]; intros s cur Hn.
  - destruct s; [|simpl in Hn; lia]. simpl. symmetry. apply str_app_nil_r.
  - destruct s as [|c [|c' s']].
    + simpl. symmetry. apply str_app_nil_r.
    + reflexivity.
    + rewrite split_paragraphs_go_pair.
      destruct (is_nl c && is_nl c') eqn:Hc.
      * apply andb_true_iff in Hc as [Hc Hc'].
        rewrite str_concat_cons
          by (apply (split_paragraphs_go_nonempty (String.length s')); lia).
        rewrite IH by (simpl in *; lia).
        apply is_nl_spec in Hc, Hc'.
        change (String c (String c' s')) with (String c "" ++ String c' "" ++ s')%string.
        rewrite Hc, Hc'. unfold blank_line. rewrite str_app_assoc. reflexivity.
      * rewrite IH by (simpl in *; lia). rewrite str_app_assoc. reflexivity.
Qed.

Lemma join_split_paragraphs (t : string) :
  String.concat blank_line (split_paragraphs t) = t.
Proof. apply (join_split_paragraphs_go (String.length t)). lia. Qed.

Lemma paragraph_text_from (content : list adf_child) :
  forall acc,
    fold_left
      (fun paragraph child =>
         match child with
         | AdfText t => (paragraph ++ default "" t)%string
         | AdfHardBreak => (paragraph ++ FetchIssues.nl)%string
         | AdfOtherChild => paragraph
         end)
      content acc
    = (acc ++ paragraph_text content)%string.
Proof.
  unfold paragraph_text.
  induction content as [|child content IH]; intros acc; cbn [fold_left].
  - symmetry. apply str_app_nil_r.
  - match goal with
    | |- fold_left _ content ?a = (_ ++ fold_left _ content ?b)%string =>
        rewrite (IH a), (IH b)
    end.
    destruct child as [t| |]; rewrite ?str_app_assoc; reflexivity.
Qed.

Lemma paragraph_text_app (a b : list adf_child) :
  paragraph_text (a ++ b) = (paragraph_text a ++ paragraph_text b)%string.
Proof.
  unfold paragraph_text at 1. rewrite fold_left_app.
  rewrite paragraph_text_from. reflexivity.
Qed.

Lemma paragraph_text_line (line : string) :
  paragraph_text (if truthy line then [AdfText (Some line)] else []) = line.
Proof. destruct line; reflexivity. Qed.

Lemma paragraph_text_lines (n : nat) (lines : list string) :
  forall (f : nat -> string -> list adf_child) (k : nat),
    (forall i x, f i x = line_nodes n (k + i) x) ->
    n = k + length lines ->
    lines <> [] ->
    paragraph_text (concat (imap f lines)) = String.concat FetchIssues.nl lines.
Proof.
  induction lines as [|x lines IH]; intros f k Hf Hn Hne; [congruence|].
  rewrite imap_cons. cbn [concat]. rewrite paragraph_text_app, Hf.
  unfold line_nodes. rewrite paragraph_text_app, paragraph_text_line.
  destruct lines as [|y lines].
  - cbn [imap concat length] in *.
    replace (k + 0 <? n - 1) with false by (symmetry; apply Nat.ltb_ge; lia).
    unfold paragraph_text. cbn [fold_left String.concat].
    rewrite !str_app_nil_r. reflexivity.
  - replace (k + 0 <? n - 1) with true
      by (symmetry; apply Nat.ltb_lt; cbn [length] in Hn; lia).
    rewrite (IH (f ∘ S) (S k)).
    + rewrite (str_concat_cons _ x (y :: lines)) by easy.
      rewrite str_app_assoc. reflexivity.
    + intros i z. unfold compose. rewrite Hf. f_equal. lia.
    + cbn [length] in *. lia.
    + easy.
Qed.

(** The nodes of a paragraph spell the paragraph. *)
Lemma paragraph_nodes_text (para : string) :
  paragraph_text (paragraph_nodes para) = para.
Proof.
  unfold paragraph_nodes. cbv zeta.
  assert (H : paragraph_text (concat (imap (line_nodes (length (split_lines para)))
                                           (split_lines para))) = para).
  { rewrite (paragraph_text_lines (length (split_lines para)) (split_lines para) _ 0).
    - unfold split_lines. rewrite join_split_lines. reflexivity.
    - reflexivity.
    - reflexivity.
    - apply split_lines_go_nonempty. }
  destruct (concat _) as [|child nodes]; [|exact H].
  rewrite <- H. reflexivity.
Qed.

Lemma adf_paragraph_lines (paras : list string) :
  omap (fun node =>
          match node with
          | AdfParagraph content => Some (strip_str (paragraph_text content))
          | AdfOtherNode => None
          end)
       (map (fun para => AdfParagraph (paragraph_nodes para)) paras)
  = map strip_str paras.
Proof.
  induction paras as [|p paras IH]; [reflexivity|].
  cbn [map omap list_omap]. rewrite paragraph_nodes_text.
  change (list_omap ?f ?l) with (omap f l). rewrite IH. reflexivity.
Qed.

Lemma adf_round_trip_form (t : string) :
  adf_to_text (Some (adf_from_text t))
  = strip_str (String.concat blank_line (trimmed_paragraphs t)).
Proof.
  unfold adf_to_text, adf_from_text, trimmed_paragraphs. cbv zeta.
  pose proof (split_paragraphs_go_nonempty (String.length t) t "" (le_n _)) as Hne.
  fold (split_paragraphs t) in Hne.
  destruct (map (fun para => AdfParagraph (paragraph_nodes para)) (split_paragraphs t))
    as [|node nodes] eqn:Hm.
  - destruct (split_paragraphs t); [congruence | discriminate Hm].
  - rewrite <- Hm, adf_paragraph_lines. reflexivity.
Qed.

(** X14: [adf_from_text] and [adf_to_text] fit together. The nodes
    that [adf_from_text] makes of a paragraph, read back as [adf_to_text]
    reads them, spell the paragraph, empty lines and the empty paragraph
    included; the document of a text always has a paragraph, and joining the
    paragraphs with blank lines gives the text back; so the text read back
    from the document of [t] is [t] with the white space at the ends of each
    paragraph, and then of the whole, removed. *)
Theorem adf_round_trip (t : string) :
  (forall para, paragraph_text (paragraph_nodes para) = para)
  /\ adf_from_text t <> []
  /\ String.concat blank_line (split_paragraphs t) = t
  /\ adf_to_text (Some (adf_from_text t))
     = strip_str (String.concat blank_line (trimmed_paragraphs t)).
Proof.
  split_and!.
  - apply paragraph_nodes_text.
  - unfold adf_from_text. cbv zeta.
    destruct (map _ (split_paragraphs t)); discriminate.
  - apply join_split_paragraphs.
  - apply adf_round_trip_form.
Qed.

(** X15: a text that has no white space at its ends nor at the ends of
    any of its paragraphs comes back from [adf_to_text (adf_from_text t)]
    unchanged. *)
Theorem adf_round_trip_exact (t : string) :
  strip_str t = t ->
  Forall (fun para => strip_str para = para) (split_paragraphs t) ->
  adf_to_text (Some (adf_from_text t)) = t.
Proof.
  intros Ht Hall. rewrite adf_round_trip_form. unfold trimmed_paragraphs.
  assert (Hmap : map strip_str (split_paragraphs t) = split_paragraphs t).
  { induction Hall as [|p paras Hp _ IH]; [reflexivity|].
    cbn [map]. rewrite Hp, IH. reflexivity. }
  rewrite Hmap, join_split_paragraphs. exact Ht.
Qed.

Lemma adf_round_trip_exact_witness :
  adf_to_text (Some (adf_from_text two_paragraphs)) = two_paragraphs.
Proof.
  apply adf_round_trip_exact.
  - reflexivity.
  - repeat constructor.
Defined.

End RichTextMore.

(** ** The generator of server names and the extraction *)

Section GeneratedNamesMore.
Import GenerateIssues.

Lemma choice_is_Some {A : Type} (l : list A) (r : nat) :
  l <> [] -> exists x, choice l r = Some x /\ x ∈ l.
Proof.
  intros Hne. unfold choice.
  destruct (lookup_lt_is_Some_2 l (r mod length l)) as [x Hx].
  { apply Nat.mod_upper_bound. destruct l; [congruence | simpl; lia]. }
  exists x. split; [exact Hx | eapply list_elem_of_lookup_2; exact Hx].
Qed.

Lemma choice_elem_of {A : Type} (l : list A) (r : nat) (x : A) :
  choice l r = Some x -> x ∈ l.
Proof. unfold choice. apply list_elem_of_lookup_2. Qed.

Lemma choices_is_Some {A : Type} (population : list A) (k : nat) (picks : nat -> nat) :
  population <> [] ->
  exists l, choices population k picks = Some l
            /\ length l = k /\ Forall (fun x => x ∈ population) l.
Proof.
  intros Hne. unfold choices.
  destruct (mapM (fun i => choice population (picks i)) (seq 0 k)) as [l|] eqn:E.
  - exists l. split_and!; [reflexivity | |].
    + apply length_mapM in E. rewrite length_seq in E. congruence.
    + apply mapM_Some_1 in E.
      induction E as [|i y idx l Hy _ IH]; constructor; [|exact IH].
      eapply choice_elem_of, Hy.
  - exfalso. apply mapM_None_1 in E. apply Exists_exists in E as (i & _ & Hi).
    destruct (choice_is_Some population (picks i) Hne) as (x & Hx & _). congruence.
Qed.

Lemma chars_lower_alnum :
  Forall (fun c => is_lower_alnum c = true) (of_string chars).
Proof. repeat constructor. Qed.

Lemma random_suffix_good (d : suffix_draw) :
  exists s, random_suffix d = Some s /\ good_suffix s.
Proof.
  unfold random_suffix. cbv zeta.
  destruct (choices_is_Some (of_string chars) (randint 2 10 (length_r d)) (chars_r d))
    as (l & Hl & Hlen & Hall); [discriminate|].
  rewrite Hl. exists (to_string l). split; [reflexivity|].
  unfold good_suffix. rewrite of_to_string. split.
  - eapply Forall_impl; [exact Hall|]. intros c Hc.
    pose proof chars_lower_alnum as H. rewrite Forall_forall in H. apply H, Hc.
  - rewrite Hlen. unfold randint. change (10 - 2 + 1) with 9.
    pose proof (Nat.mod_upper_bound (length_r d) 9). lia.
Qed.

Lemma generate_server_pool_from (draws : nat -> suffix_draw) (indices : list nat) :
  forall acc : gset string,
    (forall x, x ∈ acc -> good_suffix x) ->
    exists servers,
      fold_left
        (fun servers i =>
           servers ← servers;
           suffix ← random_suffix (draws i);
           Some (servers ∪ {[ suffix ]}))
        indices (Some acc) = Some servers
      /\ (forall x, x ∈ servers -> good_suffix x)
      /\ size servers <= size acc + length indices
      /\ acc ⊆ servers
      /\ (indices <> [] -> exists x, x ∈ servers).
Proof.
  induction indices as [|i indices IH]; intros acc Hacc.
  - exists acc. split_and!; [reflexivity | exact Hacc | simpl; lia | reflexivity | congruence].
  - cbn [fold_left mbind option_bind].
    destruct (random_suffix_good (draws i)) as (s & Hs & Hgood). rewrite Hs.
    cbn [mbind option_bind].
    destruct (IH (acc ∪ {[ s ]})) as (servers & Hfold & Hall & Hsize & Hsub & _).
    { intros x Hx. apply elem_of_union in Hx as [Hx | Hx]; [apply Hacc, Hx|].
      apply elem_of_singleton in Hx. subst x. exact Hgood. }
    exists servers. split_and!.
    + exact Hfold.
    + exact Hall.
    + pose proof (size_add_le acc s). cbn [length]. lia.
    + intros x Hx. apply Hsub, elem_of_union. left. exact Hx.
    + intros _. exists s. apply Hsub, elem_of_union. right. apply elem_of_singleton. reflexivity.
Qed.

(** The pool holds between 1 and 200 suffixes, each of the expected
    spelling. *)
Lemma SERVER_POOL_good (draws : nat -> suffix_draw) :
  exists pool, SERVER_POOL draws = Some pool /\ good_pool pool /\ length pool <= 200.
Proof.
  unfold SERVER_POOL, generate_server_pool.
  destruct (generate_server_pool_from draws (seq 0 200) ∅) as (servers & -> & Hall & Hsize & _ & Hne).
  { intros x Hx. apply elem_of_empty in Hx. destruct Hx. }
  exists (elements servers). split_and!.
  - reflexivity.
  - split.
    + destruct Hne as [x Hx]; [discriminate|].
      apply elem_of_elements in Hx. intros E. rewrite E in Hx.
      apply elem_of_nil in Hx. exact Hx.
    + apply Forall_forall. intros x Hx. apply Hall, elem_of_elements, Hx.
  - change (length (elements servers)) with (size servers).
    rewrite size_empty, length_seq in Hsize. lia.
Qed.

Lemma lower_alnum_alnum (c : ascii) : is_lower_alnum c = true -> is_alnum c = true.
Proof.
  unfold is_lower_alnum, is_alnum.
  destruct (is_lower c), (is_digit c), (is_upper c); simpl; congruence.
Qed.

Lemma prefix_variants_lower :
  Forall (fun p => lower (of_string p ++ of_string "-") = of_string "srv-") PREFIX_VARIANTS.
Proof. repeat constructor. Qed.

(** A prefix variant, the separator and a good suffix have the recognized
    shape. *)
Lemma generated_name_shape (p s : string) :
  p ∈ PREFIX_VARIANTS -> good_suffix s ->
  server_shape (of_string (p ++ "-" ++ s)%string).
Proof.
  intros Hp [Hall Hlen].
  exists (of_string p ++ of_string "-"), (of_string s). split_and!.
  - rewrite !of_string_app, app_assoc. reflexivity.
  - pose proof prefix_variants_lower as H. rewrite Forall_forall in H. apply H, Hp.
  - eapply Forall_impl; [exact Hall|]. intros c Hc. apply lower_alnum_alnum, Hc.
  - lia.
  - lia.
Qed.

Lemma random_server_name_shape (pool : list string) (d : name_draw) :
  good_pool pool ->
  exists name,
    random_server_name pool d = Some name /\ server_shape (of_string name).
Proof.
  intros [Hne Hall]. unfold random_server_name.
  destruct (choice_is_Some PREFIX_VARIANTS (prefix_r d)) as (p & Hp & Hin); [discriminate|].
  rewrite Hp. cbn [mbind option_bind].
  destruct (below (u_pool d) 90).
  - destruct (choice_is_Some pool (pool_r d) Hne) as (s & Hs & Hs').
    rewrite Hs. cbn [mbind option_bind]. eexists. split; [reflexivity|].
    apply generated_name_shape; [exact Hin|].
    rewrite Forall_forall in Hall. apply Hall, Hs'.
  - destruct (random_suffix_good (fresh_suffix d)) as (s & Hs & Hgood).
    rewrite Hs. cbn [mbind option_bind]. eexists. split; [reflexivity|].
    apply generated_name_shape; assumption.
Qed.

Lemma is_word_lower_char (c : ascii) : is_word (lower_char c) = is_word c.
Proof.
  destruct c as [b0 b1 b2 b3 b4 b5 b6 b7].
  destruct b0, b1, b2, b3, b4, b5, b6, b7; reflexivity.
Qed.

Lemma server_shape_head (tok : text) :
  server_shape tok ->
  exists x rest, tok = x :: rest /\ lower_char x = "s"%char.
Proof.
  intros (prefix & suffix & -> & Hpre & _).
  destruct prefix as [|x prefix]; [discriminate Hpre|].
  exists x, (prefix ++ suffix). split; [reflexivity|].
  unfold lower in Hpre. cbn in Hpre. congruence.
Qed.

Lemma server_shape_last (tok : text) :
  server_shape tok -> word_opt (last tok) = true.
Proof.
  intros (prefix & suffix & -> & _ & Hall & Hlen).
  assert (Hne : suffix <> []) by (intros E; rewrite E in Hlen; simpl in Hlen; lia).
  rewrite (last_app_nonempty _ _ Hne).
  destruct (last suffix) as [c|] eqn:Hl; [|apply last_None in Hl; contradiction].
  cbn. apply in_class_word.
  assert (Hc : c ∈ suffix) by (apply last_Some_elem_of, Hl).
  rewrite Forall_forall in Hall. apply Hall in Hc. exact Hc.
Qed.

(** A text of the recognized shape is a whole-token match wherever it
    stands between two characters that are not word characters. *)
Lemma shape_whole_token (prev : option ascii) (tok post : text) :
  server_shape tok ->
  word_opt prev = false ->
  word_opt (head post) = false ->
  whole_token prev (tok ++ post) tok.
Proof.
  intros Hshape Hprev Hpost. exists post. split_and!; [reflexivity | exact Hshape | |].
  - destruct (server_shape_head tok Hshape) as (x & rest & -> & Hx).
    unfold at_boundary. rewrite Hprev. cbn.
    rewrite <- is_word_lower_char, Hx. reflexivity.
  - unfold at_boundary. rewrite (server_shape_last tok Hshape), Hpost. reflexivity.
Qed.

(** X16: whatever the random generator draws, the pool of suffixes
    that [generate_server_pool] builds for [SERVER_POOL] holds between 1 and
    200 suffixes, each of 2 to 10 lower-case letters or digits, so that
    [random_server_name] never fails on it; and [extract_servers], given the
    name it returns, finds that name and nothing else, and returns it in
    lower case, a canonical name. *)
Theorem generated_names_are_extracted (draws : nat -> suffix_draw) (d : name_draw) :
  exists pool name,
    SERVER_POOL draws = Some pool
    /\ 1 <= length pool <= 200
    /\ Forall good_suffix pool
    /\ random_server_name pool d = Some name
    /\ extract_servers name = [canonical (of_string name)]
    /\ canonical_name (canonical (of_string name)).
Proof.
  destruct (SERVER_POOL_good draws) as (pool & Hpool & Hgood & Hlen).
  destruct (random_server_name_shape pool d Hgood) as (name & Hname & Hshape).
  exists pool, name. split_and!.
  - exact Hpool.
  - destruct Hgood as [Hne _]. destruct pool; [congruence | simpl; lia].
  - exact Hlen.
  - apply Hgood.
  - exact Hname.
  - rewrite <- (to_of_string name) at 1. apply extract_servers_single.
    rewrite <- (app_nil_r (of_string name)) at 1.
    apply shape_whole_token; [exact Hshape | reflexivity | reflexivity].
  - apply server_shape_canonical, Hshape.
Qed.

End GeneratedNamesMore.

(** ** Generated descriptions, the upload and the extraction *)

Section GeneratedDescriptionsMore.
Import GenerateIssues UploadIssues.

Lemma last_or_app (prev : option ascii) (a b : text) :
  last_or prev (a ++ b) = last_or (last_or prev a) b.
Proof. unfold last_or. rewrite last_app. destruct (last b), (last a); reflexivity. Qed.

Lemma match_here_none (prev : option ascii) (c : ascii) (s : text) :
  starts c (head s) = false -> match_here SRV_REGEX prev (c :: s) = None.
Proof.
  intros H. rewrite match_here_srv.
  destruct (at_boundary prev (c :: s)); [|reflexivity].
  destruct s as [|x2 [|x3 [|x4 s4]]]; try reflexivity.
  unfold prefix_ok. unfold starts in H. cbn [head is_r] in H. rewrite H. reflexivity.
Qed.

Lemma quiet_skips (a : text) :
  forall prev b next,
    quiet next a = true ->
    is_r (head b) = is_r next ->
    finditer_from SRV_REGEX prev (a ++ b) 0
    = finditer_from SRV_REGEX (last_or prev a) b 0.
Proof.
  induction a as [|c a IH]; intros prev b next Hq Hr.
  - reflexivity.
  - cbn [quiet] in Hq. apply andb_true_iff in Hq as [Hs Hq].
    apply negb_true_iff in Hs.
    cbn [app finditer_from]. rewrite match_here_none.
    + rewrite (IH (Some c) b next Hq Hr), last_or_cons. reflexivity.
    + destruct a as [|x a']; cbn [app head]; [|exact Hs].
      unfold starts in *. rewrite Hr. exact Hs.
Qed.

Lemma is_space_lower_char (c : ascii) : is_space (lower_char c) = is_space c.
Proof.
  destruct c as [b0 b1 b2 b3 b4 b5 b6 b7].
  destruct b0, b1, b2, b3, b4, b5, b6, b7; reflexivity.
Qed.

Lemma is_nl_lower_char (c : ascii) : is_nl (lower_char c) = is_nl c.
Proof.
  destruct c as [b0 b1 b2 b3 b4 b5 b6 b7].
  destruct b0, b1, b2, b3, b4, b5, b6, b7; reflexivity.
Qed.

Lemma alnum_not_space (c : ascii) : is_alnum c = true -> is_space c = false.
Proof.
  destruct c as [b0 b1 b2 b3 b4 b5 b6 b7].
  destruct b0, b1, b2, b3, b4, b5, b6, b7; simpl; intros H;
    first [reflexivity | discriminate H].
Qed.

Lemma alnum_not_nl (c : ascii) : is_alnum c = true -> is_nl c = false.
Proof.
  destruct c as [b0 b1 b2 b3 b4 b5 b6 b7].
  destruct b0, b1, b2, b3, b4, b5, b6, b7; simpl; intros H;
    first [reflexivity | discriminate H].
Qed.

(** A name between two characters that are not word characters is the next
    match, and the search resumes after it. *)
Lemma finditer_mention (n rest : text) (prev : option ascii) :
  server_shape n ->
  word_opt prev = false ->
  word_opt (head rest) = false ->
  exists prev',
    finditer_from SRV_REGEX prev (n ++ rest) 0
    = n :: finditer_from SRV_REGEX prev' rest 0
    /\ word_opt prev' = true.
Proof.
  intros Hn Hprev Hnext.
  pose proof (shape_whole_token prev n rest Hn Hprev Hnext) as Hw.
  apply match_here_whole_token in Hw.
  pose proof (server_shape_last n Hn) as Hlast.
  destruct n as [|x n']; [discriminate Hlast|].
  exists (last_or (Some x) n'). split.
  - cbn [app] in *. cbn [finditer_from]. rewrite Hw. cbn [length pred].
    rewrite finditer_from_skip. reflexivity.
  - rewrite <- (last_or_cons None x n'). unfold last_or.
    destruct (last (x :: n')); [exact Hlast | discriminate Hlast].
Qed.

Lemma shape_last_space (n : text) (prev : option ascii) :
  server_shape n -> opt_space (last_or prev n) = false.
Proof.
  intros (prefix & suffix & -> & _ & Hall & Hlen).
  assert (Hne : suffix <> []) by (intros E; rewrite E in Hlen; simpl in Hlen; lia).
  unfold last_or. rewrite (last_app_nonempty _ _ Hne).
  destruct (last suffix) as [c|] eqn:Hl; [|apply last_None in Hl; contradiction].
  cbn. apply alnum_not_space.
  rewrite Forall_forall in Hall. apply Hall, last_Some_elem_of, Hl.
Qed.

Section Names.
Variables n1 n2 : text.
Hypothesis shape1 : server_shape n1.
Hypothesis shape2 : server_shape n2.

Lemma shape_of_mention (b : bool) : server_shape (if b then n2 else n1).
Proof. destruct b; assumption. Qed.

Lemma head_fill_lower (ps : list part) :
  option_map lower_char (head (fill n1 n2 ps)) = option_map lower_char (next_char ps).
Proof.
  induction ps as [|[lit|b] ps IH].
  - reflexivity.
  - destruct lit as [|c lit]; [exact IH | reflexivity].
  - destruct (server_shape_head _ (shape_of_mention b)) as (x & rest & Hx & Hs).
    unfold fill. cbn [flat_map part_text next_char]. rewrite Hx. cbn. rewrite Hs.
    reflexivity.
Qed.

Lemma is_r_head_fill (ps : list part) :
  is_r (head (fill n1 n2 ps)) = is_r (next_char ps).
Proof.
  pose proof (head_fill_lower ps) as H.
  destruct (head (fill n1 n2 ps)), (next_char ps); cbn in *; congruence.
Qed.

Lemma word_opt_head_fill (ps : list part) :
  word_opt (head (fill n1 n2 ps)) = word_opt (next_char ps).
Proof.
  pose proof (head_fill_lower ps) as H.
  destruct (head (fill n1 n2 ps)) as [x|], (next_char ps) as [y|]; cbn in *;
    try congruence.
  rewrite <- (is_word_lower_char x), <- (is_word_lower_char y). congruence.
Qed.

Lemma opt_space_head_fill (ps : list part) :
  opt_space (head (fill n1 n2 ps)) = opt_space (next_char ps).
Proof.
  pose proof (head_fill_lower ps) as H.
  destruct (head (fill n1 n2 ps)) as [x|], (next_char ps) as [y|]; cbn in *;
    try congruence.
  rewrite <- (is_space_lower_char x), <- (is_space_lower_char y). congruence.
Qed.

(** The matches of a well placed text are its mentions, in order. *)
Lemma finditer_placed (ps : list part) :
  forall prev,
    placed (word_opt prev) ps = true ->
    finditer_from SRV_REGEX prev (fill n1 n2 ps) 0 = mentions n1 n2 ps.
Proof.
  induction ps as [|[lit|b] ps IH]; intros prev Hp.
  - reflexivity.
  - cbn [placed] in Hp. apply andb_true_iff in Hp as [Hq Hp].
    change (fill n1 n2 (Ctx lit :: ps)) with (lit ++ fill n1 n2 ps).
    rewrite (quiet_skips lit prev (fill n1 n2 ps) (next_char ps) Hq (is_r_head_fill ps)).
    change (mentions n1 n2 (Ctx lit :: ps)) with (mentions n1 n2 ps).
    apply IH. unfold last_or. destruct (last lit); exact Hp.
  - cbn [placed] in Hp. apply andb_true_iff in Hp as [Hp Hrest].
    apply andb_true_iff in Hp as [Hprev Hnext].
    apply negb_true_iff in Hprev, Hnext.
    destruct (finditer_mention (part_text n1 n2 (Mention b)) (fill n1 n2 ps) prev)
      as (prev' & Hf & Hprev').
    { apply shape_of_mention. }
    { exact Hprev. }
    { rewrite word_opt_head_fill. exact Hnext. }
    change (fill n1 n2 (Mention b :: ps))
      with (part_text n1 n2 (Mention b) ++ fill n1 n2 ps).
    rewrite Hf.
    change (mentions n1 n2 (Mention b :: ps))
      with (part_text n1 n2 (Mention b) :: mentions n1 n2 ps).
    f_equal. apply IH. rewrite Hprev'. exact Hrest.
Qed.

Lemma last_space_fill (ps : list part) :
  forall prev,
    opt_space (last_or prev (fill n1 n2 ps)) = last_space (opt_space prev) ps.
Proof.
  induction ps as [|[lit|b] ps IH]; intros prev.
  - reflexivity.
  - change (fill n1 n2 (Ctx lit :: ps)) with (lit ++ fill n1 n2 ps).
    rewrite last_or_app, IH. cbn [last_space]. unfold last_or.
    destruct (last lit); reflexivity.
  - change (fill n1 n2 (Mention b :: ps))
      with (part_text n1 n2 (Mention b) ++ fill n1 n2 ps).
    rewrite last_or_app, IH. cbn [last_space]. f_equal.
    apply shape_last_space, shape_of_mention.
Qed.

Lemma shape_plain (tok : text) :
  server_shape tok -> Forall (fun c => is_nl c = false) tok.
Proof.
  intros (prefix & suffix & -> & Hpre & Hall & _). apply Forall_app. split.
  - destruct prefix as [|x1 [|x2 [|x3 [|x4 [|x5 prefix]]]]]; try discriminate Hpre.
    unfold lower in Hpre. cbn in Hpre. injection Hpre as H1 H2 H3 H4.
    repeat constructor; rewrite <- is_nl_lower_char;
      [rewrite H1 | rewrite H2 | rewrite H3 | rewrite H4]; reflexivity.
  - eapply Forall_impl; [exact Hall|]. intros c Hc. apply alnum_not_nl, Hc.
Qed.

Lemma plain_fill (ps : list part) :
  forallb plain_part ps = true -> Forall (fun c => is_nl c = false) (fill n1 n2 ps).
Proof.
  induction ps as [|[lit|b] ps IH]; cbn [forallb]; intros H.
  - constructor.
  - apply andb_true_iff in H as [Hlit H].
    change (fill n1 n2 (Ctx lit :: ps)) with (lit ++ fill n1 n2 ps).
    apply Forall_app. split; [|apply IH, H].
    cbn [plain_part] in Hlit. apply Forall_forall. intros c Hc.
    rewrite forallb_forall in Hlit. apply negb_true_iff, Hlit.
    apply list_elem_of_In, Hc.
  - apply andb_true_iff in H as [_ H].
    change (fill n1 n2 (Mention b :: ps))
      with (part_text n1 n2 (Mention b) ++ fill n1 n2 ps).
    apply Forall_app. split; [|apply IH, H].
    apply shape_plain, shape_of_mention.
Qed.

End Names.

Lemma head_rev_last (s : text) : head (rev s) = last s.
Proof.
  induction s as [|x s _] using rev_ind; [reflexivity|].
  rewrite rev_unit, last_snoc. reflexivity.
Qed.

Lemma lstrip_by_kept (p : ascii -> bool) (s : text) :
  match head s with Some c => p c | None => false end = false -> lstrip_by p s = s.
Proof. destruct s as [|c s]; [reflexivity|]. cbn. intros ->. reflexivity. Qed.

Lemma strip_edges (s : text) :
  opt_space (head s) = false -> opt_space (last s) = false -> strip s = s.
Proof.
  intros Hh Hl. unfold strip, strip_by, rstrip_by.
  rewrite (lstrip_by_kept is_space s Hh).
  rewrite lstrip_by_kept; [apply rev_involutive|].
  rewrite head_rev_last. exact Hl.
Qed.

Lemma split_paragraphs_plain (s : string) :
  forall cur,
    Forall (fun c => is_nl c = false) (of_string s) ->
    split_paragraphs_go cur s = [(cur ++ s)%string].
Proof.
  induction s as [|c s IH]; intros cur H.
  - cbn. rewrite str_app_nil_r. reflexivity.
  - change (of_string (String c s)) with (c :: of_string s) in H.
    apply Forall_cons in H as [Hc H].
    destruct s as [|c' s'].
    + reflexivity.
    + rewrite split_paragraphs_go_pair, Hc. cbn [andb].
      rewrite (IH _ H), str_app_assoc. reflexivity.
Qed.

(** One line of text without white space at its ends comes back unchanged. *)
Lemma adf_plain (t : string) :
  Forall (fun c => is_nl c = false) (of_string t) ->
  strip_str t = t ->
  adf_to_text (Some (adf_from_text t)) = t.
Proof.
  intros Hplain Hstrip. rewrite adf_round_trip_form.
  unfold trimmed_paragraphs, split_paragraphs.
  rewrite (split_paragraphs_plain t "" Hplain).
  change ("" ++ t)%string with t. cbn [map String.concat].
  rewrite Hstrip. exact Hstrip.
Qed.

Lemma of_string_concat (texts : list string) :
  of_string (String.concat "" texts) = flat_map of_string texts.
Proof.
  induction texts as [|t texts IH]; [reflexivity|].
  destruct texts as [|t' texts].
  - cbn. rewrite app_nil_r. reflexivity.
  - rewrite (str_concat_cons "" t (t' :: texts)) by easy.
    rewrite of_string_app. change ("" ++ ?x)%string with x.
    rewrite IH. reflexivity.
Qed.

Lemma field_text_parts (server server2 db_name : string) (pieces : list piece) :
  forall ps,
    mapM (to_part db_name) pieces = Some ps ->
    exists texts,
      mapM (field_text server server2 db_name) pieces = Some texts
      /\ flat_map of_string texts = fill (of_string server) (of_string server2) ps.
Proof.
  intros ps H. apply mapM_Some_1 in H.
  induction H as [|p q pieces ps Hp _ (texts & Htexts & Hfill)].
  - exists []. split; reflexivity.
  - assert (Ht : exists t, field_text server server2 db_name p = Some t
                           /\ of_string t = part_text (of_string server) (of_string server2) q).
    { destruct p as [s|f]; cbn in *.
      - injection Hp as <-. eauto.
      - destruct (String.eqb f "server"); [injection Hp as <-; eauto|].
        destruct (String.eqb f "server2"); [injection Hp as <-; eauto|].
        destruct (String.eqb f "db_name"); [injection Hp as <-; eauto|].
        discriminate Hp. }
    destruct Ht as (t & Ht & Hq).
    exists (t :: texts). split.
    + apply mapM_Some_2. constructor; [exact Ht|]. apply mapM_Some_1, Htexts.
    + cbn [flat_map]. rewrite Hq, Hfill. reflexivity.
Qed.

(** What the check of a template gives for the text formatted from it. *)
Lemma template_check_format (db_name template server server2 : string) :
  template_check db_name template = true ->
  server_shape (of_string server) ->
  server_shape (of_string server2) ->
  exists text,
    format template server server2 db_name = Some text
    /\ (extract_servers text = [canonical (of_string server)]
        \/ extract_servers text
           = [canonical (of_string server); canonical (of_string server2)])
    /\ adf_to_text (Some (adf_from_text text)) = text.
Proof.
  intros Hcheck H1 H2. unfold template_check in Hcheck.
  destruct (parse template) as [pieces|] eqn:Hparse; [|discriminate].
  destruct (mapM (to_part db_name) pieces) as [ps|] eqn:Hparts; [|discriminate].
  apply andb_true_iff in Hcheck as [Hcheck Horder].
  apply andb_true_iff in Hcheck as [Hplaced Htidy].
  destruct (field_text_parts server server2 db_name pieces ps Hparts)
    as (texts & Htexts & Hfill).
  exists (String.concat "" texts). split_and!.
  - unfold format. rewrite Hparse. cbn [mbind option_bind].
    change (mapM _ pieces) with (mapM (field_text server server2 db_name) pieces).
    rewrite Htexts. reflexivity.
  - assert (He : extract_servers (String.concat "" texts)
                 = map canonical (mentions (of_string server) (of_string server2) ps)).
    { unfold extract_servers.
      destruct (negb (truthy (String.concat "" texts))) eqn:Ht.
      - destruct (String.concat "" texts) eqn:Hc; [|discriminate Ht].
        pose proof (of_string_concat texts) as Hz. rewrite Hc, Hfill in Hz.
        pose proof (finditer_placed _ _ H1 H2 ps None Hplaced) as Hf.
        rewrite <- Hz in Hf. cbn in Hf. rewrite <- Hf. reflexivity.
      - unfold finditer. rewrite of_string_concat, Hfill.
        rewrite (finditer_placed _ _ H1 H2 ps None Hplaced). reflexivity. }
    rewrite He. unfold mentions.
    destruct (mention_order ps) as [|[] [|[] [|]]]; try discriminate Horder; auto.
  - unfold tidy in Htidy.
    apply andb_true_iff in Htidy as [Htidy Hplain].
    apply andb_true_iff in Htidy as [Hhead Hlast].
    apply negb_true_iff in Hhead, Hlast.
    apply adf_plain.
    + rewrite of_string_concat, Hfill. apply plain_fill; assumption.
    + unfold strip_str. rewrite of_string_concat, Hfill, strip_edges.
      * rewrite <- Hfill, <- of_string_concat. apply to_of_string.
      * rewrite (opt_space_head_fill _ _ H1 H2). exact Hhead.
      * pose proof (last_space_fill _ _ H1 H2 ps None) as Hl.
        cbn [opt_space] in Hl. rewrite <- Hl in Hlast.
        unfold last_or in Hlast.
        destruct (last (fill (of_string server) (of_string server2) ps));
          [exact Hlast | reflexivity].
Qed.

Lemma all_checked_true : all_checked = true.
Proof. vm_compute. reflexivity. Qed.

Lemma choice_In {A : Type} (l : list A) (r : nat) (x : A) : choice l r = Some x -> In x l.
Proof. intros H. apply list_elem_of_In. eapply choice_elem_of, H. Qed.

(** A run of [generate_description] that draws no alteration. *)
Lemma generate_description_unaltered (pool : list string) (d : description_draw) :
  good_pool pool ->
  unaltered d ->
  exists tech text server server2,
    generate_description pool d = Some (tech, text)
    /\ In tech TECH_LABELS
    /\ random_server_name pool (server_d d) = Some server
    /\ random_server_name pool (server2_d d) = Some server2
    /\ (extract_servers text = [canonical (of_string server)]
        \/ extract_servers text
           = [canonical (of_string server); canonical (of_string server2)])
    /\ adf_to_text (Some (adf_from_text text)) = text.
Proof.
  intros Hpool [Hxyz Hdrop]. unfold generate_description.
  destruct (choice_is_Some (map fst TECHNOLOGY_TEMPLATES) (tech_r d)) as (tech & Htech & _);
    [discriminate|].
  rewrite Htech. cbn [mbind option_bind].
  apply choice_In in Htech as Hin.
  apply in_map_iff in Hin as (kv & Hkv & Hin').
  pose proof all_checked_true as Hall. unfold all_checked in Hall.
  rewrite forallb_forall in Hall. specialize (Hall kv Hin'). rewrite Hkv in Hall.
  destruct (lookup_templates tech) as [[|t0 templates]|]; try discriminate Hall.
  cbn [mbind option_bind].
  destruct (choice_is_Some (t0 :: templates) (template_r d)) as (template & Htemplate & _);
    [discriminate|].
  rewrite Htemplate. cbn [mbind option_bind].
  rewrite forallb_forall in Hall.
  specialize (Hall template (choice_In _ _ _ Htemplate)).
  destruct (random_server_name_shape pool (server_d d) Hpool) as (server & Hs1 & Hshape1).
  destruct (random_server_name_shape pool (server2_d d) Hpool) as (server2 & Hs2 & Hshape2).
  rewrite Hs1, Hs2. cbn [mbind option_bind].
  destruct (choice_is_Some db_names (db_r d)) as (db & Hdb & _); [discriminate|].
  change ["customers"; "orders"; "analytics"; "inventory"] with db_names.
  rewrite Hdb. cbn [mbind option_bind].
  rewrite forallb_forall in Hall. specialize (Hall db (choice_In _ _ _ Hdb)).
  destruct (template_check_format db template server server2 Hall Hshape1 Hshape2)
    as (text & Hformat & Hextract & Hround).
  rewrite Hformat. cbn [mbind option_bind].
  assert (Hb1 : below (u_xyz d) 5 = false) by (apply Nat.ltb_ge, Hxyz).
  assert (Hb2 : below (u_drop d) 5 = false) by (apply Nat.ltb_ge, Hdrop).
  rewrite Hb1, Hb2. cbn [mbind option_bind].
  exists tech, text, server, server2. split_and!; try assumption; try reflexivity.
  change TECH_LABELS with (map fst TECHNOLOGY_TEMPLATES).
  apply in_map_iff. exists kv. split; assumption.
Qed.

Lemma good_small_pool : good_pool small_pool.
Proof. split; [discriminate|]. repeat constructor. Qed.

Lemma unaltered_description_draws : unaltered description_draws.
Proof. split; cbn; lia. Qed.

(** X17: the technologies of the generator are the five labels of the
    classifier; and when [generate_description] draws neither of its two
    alterations, then, whatever else is drawn from a pool of suffixes of 2 to
    10 lower-case letters or digits, [extract_servers] finds in the text the
    server names that the generator put there and nothing else: the first,
    or the first and then the second, in lower case. *)
Theorem generated_description_mentions (pool : list string) (d : description_draw) :
  good_pool pool ->
  unaltered d ->
  exists tech text server server2,
    generate_description pool d = Some (tech, text)
    /\ In tech TECH_LABELS
    /\ random_server_name pool (server_d d) = Some server
    /\ random_server_name pool (server2_d d) = Some server2
    /\ (extract_servers text = [canonical (of_string server)]
        \/ extract_servers text
           = [canonical (of_string server); canonical (of_string server2)]).
Proof.
  intros Hpool Hd.
  destruct (generate_description_unaltered pool d Hpool Hd)
    as (tech & text & server & server2 & H1 & H2 & H3 & H4 & H5 & _).
  exists tech, text, server, server2. auto.
Qed.

Lemma generated_description_mentions_witness :
  exists tech text server server2,
    generate_description small_pool description_draws = Some (tech, text)
    /\ In tech TECH_LABELS
    /\ random_server_name small_pool (server_d description_draws) = Some server
    /\ random_server_name small_pool (server2_d description_draws) = Some server2
    /\ (extract_servers text = [canonical (of_string server)]
        \/ extract_servers text
           = [canonical (of_string server); canonical (of_string server2)]).
Proof.
  exact (generated_description_mentions small_pool description_draws
           good_small_pool unaltered_description_draws).
Defined.

(** X18: a description that [generate_description] makes without
    alteration is one line with no white space at its ends, so that the
    document [adf_from_text] uploads for it is read back by [adf_to_text] as
    the same text: the item that [fetch_issues.py] builds from an issue
    carrying that document has the generated text for description, and
    [extract_servers] finds in it what it finds in the generated text. *)
Theorem generated_description_survives_upload (pool : list string)
    (d : description_draw) (tech text : string) (i : raw_issue) :
  good_pool pool ->
  unaltered d ->
  generate_description pool d = Some (tech, text) ->
  raw_description i = Some (adf_from_text text) ->
  adf_to_text (Some (adf_from_text text)) = text
  /\ description (to_obj i) = text
  /\ extract_servers (description (to_obj i)) = extract_servers text.
Proof.
  intros Hpool Hd Hgen Hi.
  destruct (generate_description_unaltered pool d Hpool Hd)
    as (tech' & text' & server & server2 & H1 & _ & _ & _ & _ & H6).
  rewrite Hgen in H1. injection H1 as <- <-.
  unfold to_obj. cbn [description]. rewrite Hi, H6. auto.
Qed.

Lemma generated_description_survives_upload_witness :
  description (to_obj uploaded_ticket)
  = "Network connectivity issues between SRV-zz9 and Srv-dkry5"
  /\ extract_servers (description (to_obj uploaded_ticket)) = ["srv-zz9"; "srv-dkry5"].
Proof.
  destruct (generated_description_survives_upload small_pool description_draws
              "networking" "Network connectivity issues between SRV-zz9 and Srv-dkry5"
              uploaded_ticket good_small_pool unaltered_description_draws
              eq_refl eq_refl) as (_ & H1 & H2).
  split; [exact H1 | rewrite H2; reflexivity].
Defined.

End GeneratedDescriptionsMore.

(** ** The charts of [visualize.py] and the tables of [aggregate_outputs] *)

Section ChartsMore.
Import Visualize.

Lemma dict_set_new (k : string) (v : nat) (d : dict) :
  ~ In k (map fst d) -> dict_set k v d = d ++ [(k, v)].
Proof.
  induction d as [|[k' v'] d IH]; intros Hk; [reflexivity|].
  cbn [dict_set]. destruct (String.eqb k k') eqn:E.
  - apply String.eqb_eq in E. subst k'. exfalso. apply Hk. left. reflexivity.
  - cbn [app]. rewrite IH; [reflexivity|]. intros Hin. apply Hk. right. exact Hin.
Qed.

Lemma NoDup_keys_snoc (d : dict) (row : string * nat) (t : list (string * nat)) :
  List.NoDup (map fst (d ++ row :: t)) ->
  ~ In (fst row) (map fst d) /\ List.NoDup (map fst ((d ++ [row]) ++ t)).
Proof.
  intros H. split.
  - rewrite map_app in H. cbn [map] in H.
    apply List.NoDup_remove_2 in H. intros Hin. apply H, in_or_app. left. exact Hin.
  - rewrite <- app_assoc. exact H.
Qed.

(** Rows of distinct labels, set one after the other, are kept as they
    come. *)
Lemma dict_set_rows (t : list (string * nat)) :
  forall d : dict,
    List.NoDup (map fst (d ++ t)) ->
    fold_left (fun d kv => dict_set (fst kv) (snd kv) d) t d = d ++ t.
Proof.
  induction t as [|row t IH]; intros d H; cbn [fold_left].
  - rewrite app_nil_r. reflexivity.
  - apply NoDup_keys_snoc in H as [Hnew H]. destruct row as [k v].
    cbn [fst snd] in *.
    rewrite (dict_set_new _ _ _ Hnew), (IH _ H), <- app_assoc. reflexivity.
Qed.

Lemma read_lines_rows (to_line : string * nat -> count_line) (t : list (string * nat)) :
  (forall d row, read_line (Some d) (to_line row) = Some (dict_set (fst row) (snd row) d)) ->
  forall d : dict,
    List.NoDup (map fst (d ++ t)) ->
    fold_left read_line (map to_line t) (Some d) = Some (d ++ t).
Proof.
  intros Hline. induction t as [|row t IH]; intros d H; cbn [fold_left map].
  - rewrite app_nil_r. reflexivity.
  - apply NoDup_keys_snoc in H as [Hnew H]. destruct row as [k v].
    rewrite Hline. cbn [fst snd] in *.
    rewrite (dict_set_new _ _ _ Hnew), (IH _ H), <- app_assoc. reflexivity.
Qed.

Lemma sorted_by_count_fixed (t : list (string * nat)) :
  descending t -> sorted_by_count t = t.
Proof.
  unfold descending, sorted_by_count.
  induction 1 as [|x t Ht IH Hx]; [reflexivity|].
  cbn [fold_right]. rewrite IH.
  destruct t as [|y t]; [reflexivity|].
  cbn [insert_desc]. inversion Hx as [|? ? Hy _]; subst.
  replace (snd x <? snd y) with false; [reflexivity|].
  symmetry. apply Nat.ltb_ge. exact Hy.
Qed.

Lemma NoDup_keys_take (n : nat) (t : list (string * nat)) :
  List.NoDup (map fst t) -> List.NoDup (map fst (take n t)).
Proof.
  intros H. rewrite <- (take_drop n t), map_app in H.
  apply List.NoDup_app_remove_r in H. exact H.
Qed.

(** X19: the charts show the tables as [aggregate_outputs] wrote
    them. Reading the two files of counts back loses no row, the sort of
    [visualize.py] changes no order, and so the chart of technologies has the
    rows of the table of technologies, and the chart of servers the first
    [top_n] rows of the table of servers, passed to [barh] last row first;
    no exception is met. *)
Theorem charts_show_the_tables (issues_all : list issue) (f : files) (top_n : nat) :
  exists tech srv,
    TECH_COUNTS (aggregate_outputs issues_all f) = Some tech
    /\ SERVER_COUNTS (aggregate_outputs issues_all f) = Some srv
    /\ read_jsonl_counts (Some (server_lines srv)) = Some srv
    /\ read_jsonl_counts (Some (technology_lines tech)) = Some tech
    /\ main top_n
         (server_lines <$> SERVER_COUNTS (aggregate_outputs issues_all f))
         (technology_lines <$> TECH_COUNTS (aggregate_outputs issues_all f))
       = Some {| server_bars := rev (take top_n srv); technology_bars := tech |}.
Proof.
  exists (most_common (tech_counter_of (TECH_PER_ISSUE f))),
         (most_common (fst (servers_fold (SERVERS_PER_ISSUE f)))).
  set (tech := most_common (tech_counter_of (TECH_PER_ISSUE f))).
  set (srv := most_common (fst (servers_fold (SERVERS_PER_ISSUE f)))).
  assert (Htd : descending tech) by apply descending_most_common.
  assert (Hsd : descending srv) by apply descending_most_common.
  assert (Htn : List.NoDup (map fst tech))
    by apply NoDup_keys_most_common, NoDup_keys_tech_counter.
  assert (Hsn : List.NoDup (map fst srv))
    by apply NoDup_keys_most_common, NoDup_keys_server_counter.
  assert (Hrs : read_jsonl_counts (Some (server_lines srv)) = Some srv).
  { unfold read_jsonl_counts, server_lines. cbn [mbind option_bind].
    rewrite read_lines_rows; [reflexivity | reflexivity | exact Hsn]. }
  assert (Hrt : read_jsonl_counts (Some (technology_lines tech)) = Some tech).
  { unfold read_jsonl_counts, technology_lines. cbn [mbind option_bind].
    rewrite read_lines_rows; [reflexivity | reflexivity | exact Htn]. }
  split_and!; [reflexivity | reflexivity | exact Hrs | exact Hrt |].
  unfold main.
  change (server_lines <$> SERVER_COUNTS (aggregate_outputs issues_all f))
    with (Some (server_lines srv)).
  change (technology_lines <$> TECH_COUNTS (aggregate_outputs issues_all f))
    with (Some (technology_lines tech)).
  rewrite Hrs, Hrt. cbn [mbind option_bind].
  rewrite (sorted_by_count_fixed srv Hsd), (sorted_by_count_fixed tech Htd).
  unfold to_dict.
  rewrite (dict_set_rows (take top_n srv) [] (NoDup_keys_take top_n srv Hsn)).
  rewrite (dict_set_rows tech [] Htn). reflexivity.
Qed.

End ChartsMore.

(** ** From the fetcher to the analysis *)

Section PipelineMore.





End PipelineMore.

(** ** The bulk upload *)

Section BulkUploadMore.
Import GenerateIssues UploadIssues.

(** On a good pool [generate_description] raises nothing, whatever it
    draws. *)
Lemma generate_description_is_Some (pool : list string) (d : description_draw) :
  good_pool pool -> is_Some (generate_description pool d).
Proof.
  intros Hpool. unfold generate_description.
  destruct (choice_is_Some (map fst TECHNOLOGY_TEMPLATES) (tech_r d)) as (tech & Htech & _);
    [discriminate|].
  rewrite Htech. cbn [mbind option_bind].
  apply choice_In in Htech as Hin.
  apply in_map_iff in Hin as (kv & Hkv & Hin').
  pose proof all_checked_true as Hall. unfold all_checked in Hall.
  rewrite forallb_forall in Hall. specialize (Hall kv Hin'). rewrite Hkv in Hall.
  destruct (lookup_templates tech) as [[|t0 templates]|]; try discriminate Hall.
  cbn [mbind option_bind].
  destruct (choice_is_Some (t0 :: templates) (template_r d)) as (template & Htemplate & _);
    [discriminate|].
  rewrite Htemplate. cbn [mbind option_bind].
  rewrite forallb_forall in Hall.
  specialize (Hall template (choice_In _ _ _ Htemplate)).
  destruct (random_server_name_shape pool (server_d d) Hpool) as (server & Hs1 & Hshape1).
  destruct (random_server_name_shape pool (server2_d d) Hpool) as (server2 & Hs2 & Hshape2).
  rewrite Hs1, Hs2. cbn [mbind option_bind].
  destruct (choice_is_Some db_names (db_r d)) as (db & Hdb & _); [discriminate|].
  change ["customers"; "orders"; "analytics"; "inventory"] with db_names.
  rewrite Hdb. cbn [mbind option_bind].
  rewrite forallb_forall in Hall. specialize (Hall db (choice_In _ _ _ Hdb)).
  destruct (template_check_format db template server server2 Hall Hshape1 Hshape2)
    as (text & Hformat & _).
  rewrite Hformat. cbn [mbind option_bind].
  destruct (below (u_drop d) 5); cbn [mbind option_bind]; [|eauto].
  destruct (random_server_name_shape pool (drop_d d) Hpool) as (name & Hname & _).
  rewrite Hname. cbn [mbind option_bind]. eauto.
Qed.

Lemma map_seq_offset {A : Type} (T : nat -> A) (c : nat) (b : nat) :
  forall s, map (fun i => T (c + i + 1)) (seq s b) = map T (seq (c + s + 1) b).
Proof.
  induction b as [|b IH]; intros s; [reflexivity|].
  cbn [seq map]. f_equal. rewrite IH. f_equal. f_equal. lia.
Qed.

Section Loop.
Variable PROJECT_KEY : string.
Variable pool : list string.
Variable draws : nat -> nat -> description_draw.
Variable service : bulk_service.
Variables total batch_size : nat.
Hypothesis pool_good : good_pool pool.

Lemma make_batch_Some (made request_no : nat) :
  exists batch,
    make_batch PROJECT_KEY pool draws batch_size made request_no = Some batch
    /\ length batch = batch_size
    /\ map update_summary batch = map ticket_summary (seq (made + 1) batch_size).
Proof.
  unfold make_batch.
  match goal with
  | |- exists batch, mapM ?f ?l = Some batch /\ _ => set (F := f)
  end.
  destruct (mapM F (seq 0 batch_size)) as [batch|] eqn:E.
  - exists batch. split_and!; [reflexivity | |].
    + apply length_mapM in E. rewrite length_seq in E. congruence.
    + rewrite <- (Nat.add_0_r made) at 1.
      rewrite <- (map_seq_offset ticket_summary made batch_size 0).
      apply mapM_Some_1 in E.
      induction E as [|i y idx batch Hy _ IH]; [reflexivity|].
      cbn [map]. rewrite IH. f_equal.
      unfold F in Hy.
      destruct (generate_description pool (draws request_no i)); [|discriminate Hy].
      cbn in Hy. injection Hy as <-. reflexivity.
  - exfalso. apply mapM_None_1 in E. apply Exists_exists in E as (i & _ & Hi).
    unfold F in Hi.
    destruct (generate_description_is_Some pool (draws request_no i) pool_good) as [r Hr].
    rewrite Hr in Hi. discriminate Hi.
Qed.

Lemma create_from_finished (made : nat) (sent : list (list issue_update)) (fuel : nat) :
  total <= made ->
  create_bulk_issues_from PROJECT_KEY pool draws service total batch_size fuel made sent
  = {| created := made; posted := sent; how := Finished |}.
Proof.
  intros H. destruct fuel; cbn [create_bulk_issues_from];
    (replace (made <? total) with false by (symmetry; apply Nat.ltb_ge; exact H));
    reflexivity.
Qed.

Lemma create_from_answered (made : nat) (sent : list (list issue_update)) (fuel : nat)
    (batch : list issue_update) (issues : option nat) :
  made < total ->
  make_batch PROJECT_KEY pool draws batch_size made (length sent) = Some batch ->
  service (length sent) batch = Answer 201 issues ->
  create_bulk_issues_from PROJECT_KEY pool draws service total batch_size (S fuel) made sent
  = create_bulk_issues_from PROJECT_KEY pool draws service total batch_size fuel
      (made + default 0 issues) (sent ++ [batch]).
Proof.
  intros Hlt Hb Hs. cbn [create_bulk_issues_from].
  replace (made <? total) with true by (symmetry; apply Nat.ltb_lt; exact Hlt).
  rewrite Hb, Hs. reflexivity.
Qed.

Lemma create_from_obliging (fuel : nat) :
  0 < batch_size ->
  (forall n batch, service n batch = Answer 201 (Some (length batch))) ->
  forall made sent,
    total <= made + fuel * batch_size ->
    made < total + batch_size ->
    let st := create_bulk_issues_from PROJECT_KEY pool draws service total batch_size
                fuel made sent in
    how st = Finished
    /\ total <= created st < total + batch_size
    /\ exists new,
         posted st = sent ++ new
         /\ Forall (fun batch => length batch = batch_size) new
         /\ created st = made + length new * batch_size
         /\ concat (map (map update_summary) new)
            = map ticket_summary (seq (made + 1) (length new * batch_size)).
Proof.
  intros Hpos Hsvc. induction fuel as [|fuel IH]; intros made sent Hfuel Hbound st.
  - unfold st. rewrite create_from_finished by (simpl in Hfuel; lia).
    cbn [how created posted]. split_and!; [reflexivity | simpl in Hfuel; lia | lia|].
    exists []. rewrite app_nil_r.
    split_and!; [reflexivity | constructor | simpl; lia | reflexivity].
  - destruct (Nat.lt_ge_cases made total) as [Hlt | Hge].
    + destruct (make_batch_Some made (length sent)) as (batch & Hb & Hlen & Hsum).
      unfold st.
      rewrite (create_from_answered made sent fuel batch (Some (length batch)) Hlt Hb (Hsvc _ _)).
      cbn [default from_option id]. rewrite Hlen.
      destruct (IH (made + batch_size) (sent ++ [batch]))
        as (Hhow & Hcreated & new & Hp & Hall & Hc & Hs).
      { simpl in Hfuel. lia. }
      { lia. }
      split_and!; [exact Hhow | lia | lia|].
      exists (batch :: new). split_and!.
      * rewrite Hp, <- app_assoc. reflexivity.
      * constructor; [exact Hlen | exact Hall].
      * rewrite Hc. cbn [length]. lia.
      * cbn [map concat length]. rewrite Hsum, Hs.
        replace (S (length new) * batch_size) with (batch_size + length new * batch_size) by lia.
        rewrite seq_app, map_app. do 3 f_equal. lia.
    + unfold st. rewrite create_from_finished by exact Hge.
      cbn [how created posted]. split_and!; [reflexivity | lia | lia|].
      exists []. rewrite app_nil_r.
    split_and!; [reflexivity | constructor | simpl; lia | reflexivity].
Qed.

Lemma create_from_idle (fuel : nat) :
  (forall n batch, length batch = batch_size ->
     exists issues, service n batch = Answer 201 issues /\ default 0 issues = 0) ->
  forall made sent,
    made < total ->
    let st := create_bulk_issues_from PROJECT_KEY pool draws service total batch_size
                fuel made sent in
    how st = Going /\ created st = made /\ length (posted st) = length sent + fuel.
Proof.
  intros Hsvc. induction fuel as [|fuel IH]; intros made sent Hlt st.
  - unfold st. cbn [create_bulk_issues_from].
    replace (made <? total) with true by (symmetry; apply Nat.ltb_lt; exact Hlt).
    cbn. split_and!; [reflexivity | reflexivity | lia].
  - destruct (make_batch_Some made (length sent)) as (batch & Hb & Hlen & _).
    destruct (Hsvc (length sent) batch Hlen) as (issues & Hs & Hnone).
    unfold st. rewrite (create_from_answered made sent fuel batch issues Hlt Hb Hs).
    rewrite Hnone, Nat.add_0_r.
    destruct (IH made (sent ++ [batch]) Hlt) as (H1 & H2 & H3).
    split_and!; [exact H1 | exact H2|].
    rewrite H3, length_app. cbn [length]. lia.
Qed.

End Loop.

(** X21: [create_bulk_issues] against an endpoint that creates every
    issue of every batch, with batches of one issue at least and a pool of
    good suffixes, returns as soon as [total] issues are created, not
    interrupted if [fuel] requests suffice for that. Every request has
    carried a whole batch, so the number created is a multiple of the size
    of a batch, at least [total] and less than [total] plus that size: more
    than [total], when the size does not divide it. The summaries of the
    issues sent are numbered from 1 to the number created, in order. *)
Theorem create_bulk_issues_overshoots (PROJECT_KEY : string) (pool : list string)
    (draws : nat -> nat -> description_draw) (service : bulk_service)
    (total batch_size fuel : nat) :
  good_pool pool ->
  0 < batch_size ->
  (forall n batch, service n batch = Answer 201 (Some (length batch))) ->
  total <= fuel * batch_size ->
  let st := create_bulk_issues PROJECT_KEY pool draws service total batch_size fuel in
  how st = Finished
  /\ total <= created st < total + batch_size
  /\ created st = length (posted st) * batch_size
  /\ Forall (fun batch => length batch = batch_size) (posted st)
  /\ concat (map (map update_summary) (posted st))
     = map ticket_summary (seq 1 (created st)).
Proof.
  intros Hpool Hpos Hsvc Hfuel st.
  destruct (create_from_obliging PROJECT_KEY pool draws service total batch_size Hpool
              fuel Hpos Hsvc 0 []) as (Hhow & Hcreated & new & Hp & Hall & Hc & Hs).
  { simpl. exact Hfuel. }
  { lia. }
  change (create_bulk_issues_from PROJECT_KEY pool draws service total batch_size fuel 0 [])
    with st in Hhow, Hcreated, Hp, Hc.
  cbn [app] in Hp. simpl in Hc, Hs. rewrite Hp.
  split_and!; [exact Hhow | lia | lia | exact Hc | exact Hall |].
  rewrite Hs, Hc. reflexivity.
Qed.

Lemma create_bulk_issues_overshoots_witness :
  how (create_bulk_issues "TON" small_pool same_draws obliging 5 2 3) = Finished
  /\ created (create_bulk_issues "TON" small_pool same_draws obliging 5 2 3) = 6.
Proof.
  destruct (create_bulk_issues_overshoots "TON" small_pool same_draws obliging 5 2 3)
    as (Hhow & _).
  - exact good_small_pool.
  - lia.
  - reflexivity.
  - simpl. lia.
  - split; [exact Hhow | reflexivity].
Defined.

(** X22: [create_bulk_issues] never returns when every answer has
    the status 201 and an [issues] array that is empty or missing, as any
    answer of an endpoint that creates whole batches is when the size of a
    batch is 0: however many requests the run is allowed, with [total] above
    0 the loop is still going after them, a batch sent with each and nothing
    counted as created. *)
Theorem create_bulk_issues_never_returns (PROJECT_KEY : string) (pool : list string)
    (draws : nat -> nat -> description_draw) (service : bulk_service)
    (total batch_size fuel : nat) :
  good_pool pool ->
  0 < total ->
  (forall n batch, length batch = batch_size ->
     exists issues, service n batch = Answer 201 issues /\ default 0 issues = 0) ->
  let st := create_bulk_issues PROJECT_KEY pool draws service total batch_size fuel in
  how st = Going /\ created st = 0 /\ length (posted st) = fuel.
Proof.
  intros Hpool Hpos Hsvc st.
  destruct (create_from_idle PROJECT_KEY pool draws service total batch_size Hpool
              fuel Hsvc 0 [] Hpos) as (H1 & H2 & H3).
  split_and!; [exact H1 | exact H2 | exact H3].
Qed.

Lemma create_bulk_issues_never_returns_witness :
  how (create_bulk_issues "TON" small_pool same_draws idle 1 2 3) = Going
  /\ how (create_bulk_issues "TON" small_pool same_draws obliging 1 0 3) = Going.
Proof.
  split.
  - apply (create_bulk_issues_never_returns "TON" small_pool same_draws idle 1 2 3
             good_small_pool); [lia|].
    intros n batch _. exists None. split; reflexivity.
  - apply (create_bulk_issues_never_returns "TON" small_pool same_draws obliging 1 0 3
             good_small_pool); [lia|].
    intros n batch Hlen. exists (Some (length batch)). split; [reflexivity|].
    cbn. exact Hlen.
Defined.

End BulkUploadMore.

(** ** The first alteration of a generated description *)

Section AlterationMore.
Import GenerateIssues.

Lemma lower_char_dash (c : ascii) : lower_char c = "-"%char -> c = "-"%char.
Proof.
  destruct c as [b0 b1 b2 b3 b4 b5 b6 b7].
  destruct b0, b1, b2, b3, b4, b5, b6, b7; simpl; intros H;
    first [reflexivity | discriminate H].
Qed.

Lemma alnum_not_dash (c : ascii) : is_alnum c = true -> Ascii.eqb c "-" = false.
Proof.
  destruct c as [b0 b1 b2 b3 b4 b5 b6 b7].
  destruct b0, b1, b2, b3, b4, b5, b6, b7; simpl; intros H;
    first [reflexivity | discriminate H].
Qed.

Lemma shape_split (n : text) :
  server_shape n ->
  exists x1 x2 x3 suffix,
    n = x1 :: x2 :: x3 :: "-"%char :: suffix
    /\ lower_char x1 = "s"%char /\ lower_char x2 = "r"%char /\ lower_char x3 = "v"%char
    /\ Forall (fun c => is_alnum c = true) suffix
    /\ suffix <> [].
Proof.
  intros (prefix & suffix & -> & Hpre & Hall & Hlen).
  destruct prefix as [|x1 [|x2 [|x3 [|x4 [|x5 prefix]]]]]; try discriminate Hpre.
  unfold lower in Hpre. cbn in Hpre. injection Hpre as H1 H2 H3 H4.
  apply lower_char_dash in H4. subst x4.
  exists x1, x2, x3, suffix. split_and!; try assumption; [reflexivity|].
  intros E. rewrite E in Hlen. simpl in Hlen. lia.
Qed.

Lemma starts_with_srv4 (x1 x2 x3 x4 : ascii) (s : text) :
  starts_with srv_dash (x1 :: x2 :: x3 :: x4 :: s)
  = Ascii.eqb "s" x1 && (Ascii.eqb "r" x2 && (Ascii.eqb "v" x3 && (Ascii.eqb "-" x4 && true))).
Proof. reflexivity. Qed.

Lemma starts_with_length (old : text) :
  forall s, starts_with old s = true -> length old <= length s.
Proof.
  induction old as [|x old IH]; intros s H; [simpl; lia|].
  destruct s as [|y s]; [discriminate H|].
  cbn [starts_with] in H. apply andb_true_iff in H as [_ H].
  apply IH in H. simpl. lia.
Qed.

Lemma starts_with_srv_chars (s : text) :
  starts_with srv_dash s = true ->
  exists rest, s = "s"%char :: "r"%char :: "v"%char :: "-"%char :: rest.
Proof.
  intros H. pose proof (starts_with_length _ _ H) as Hlen.
  destruct s as [|x1 [|x2 [|x3 [|x4 rest]]]];
    try (exfalso; cbn in Hlen; lia).
  rewrite starts_with_srv4 in H.
  apply andb_true_iff in H as [H1 H]. apply andb_true_iff in H as [H2 H].
  apply andb_true_iff in H as [H3 H]. apply andb_true_iff in H as [H4 _].
  apply Ascii.eqb_eq in H1, H2, H3, H4. subst. eauto.
Qed.

Lemma starts_with_could_start (s : text) :
  starts_with srv_dash s = true -> could_start s = true.
Proof. intros H. apply starts_with_srv_chars in H as [rest ->]. reflexivity. Qed.

Lemma prefix_ok_could_start (x1 x2 x3 x4 : ascii) (s : text) :
  prefix_ok x1 x2 x3 x4 = true -> could_start (x1 :: x2 :: x3 :: x4 :: s) = true.
Proof.
  unfold prefix_ok. intros H.
  apply andb_true_iff in H as [H H4]. apply andb_true_iff in H as [H H3].
  apply andb_true_iff in H as [_ H2].
  apply Ascii.eqb_eq in H2, H3, H4. apply lower_char_dash in H4. subst x4.
  cbn [could_start].
  rewrite <- (is_word_lower_char x2), <- (is_word_lower_char x3), H2, H3. reflexivity.
Qed.

Lemma match_here_cannot (prev : option ascii) (s : text) :
  could_start s = false -> match_here SRV_REGEX prev s = None.
Proof.
  intros H. rewrite match_here_srv.
  destruct (at_boundary prev s); [|reflexivity].
  destruct s as [|x1 [|x2 [|x3 [|x4 s4]]]]; try reflexivity.
  destruct (prefix_ok x1 x2 x3 x4) eqn:E; [|reflexivity].
  apply (prefix_ok_could_start _ _ _ _ s4) in E. congruence.
Qed.

(** Nothing starts inside letters and digits that are followed by a
    character that is neither a word character nor a dash. *)
Lemma alnum_cannot_start (c : ascii) (seg b : text) :
  Forall (fun c => is_alnum c = true) (c :: seg) ->
  word_opt (head b) = false ->
  is_dash (head b) = false ->
  could_start (c :: seg ++ b) = false.
Proof.
  intros Hall Hw Hd. apply Forall_cons in Hall as [_ Hseg].
  destruct seg as [|y1 [|y2 [|y3 seg]]]; cbn [app].
  - destruct b as [|x2 [|x3 [|x4 b]]]; try reflexivity.
    change (is_word x2 = false) in Hw. cbn [could_start]. rewrite Hw. reflexivity.
  - destruct b as [|x3 [|x4 b]]; try reflexivity.
    change (is_word x3 = false) in Hw. cbn [could_start]. rewrite Hw.
    rewrite andb_false_r. reflexivity.
  - destruct b as [|x4 b]; try reflexivity.
    change (Ascii.eqb x4 "-" = false) in Hd. cbn [could_start]. rewrite Hd.
    apply andb_false_r.
  - cbn [could_start].
    apply Forall_cons in Hseg as [_ Hseg]. apply Forall_cons in Hseg as [_ Hseg].
    apply Forall_cons in Hseg as [Hy3 _].
    rewrite (alnum_not_dash y3 Hy3). apply andb_false_r.
Qed.

Lemma finditer_alnum (seg : text) :
  forall prev b,
    Forall (fun c => is_alnum c = true) seg ->
    word_opt (head b) = false ->
    is_dash (head b) = false ->
    finditer_from SRV_REGEX prev (seg ++ b) 0
    = finditer_from SRV_REGEX (last_or prev seg) b 0.
Proof.
  induction seg as [|c seg IH]; intros prev b Hall Hw Hd; [reflexivity|].
  cbn [app finditer_from].
  rewrite match_here_cannot by (apply alnum_cannot_start; assumption).
  apply Forall_cons in Hall as [_ Hall].
  rewrite (IH (Some c) b Hall Hw Hd), last_or_cons. reflexivity.
Qed.

Lemma replace_go_pass (c : ascii) (s : text) :
  starts_with srv_dash (c :: s) = false ->
  replace_go srv_dash xyz_dash 0 (c :: s) = c :: replace_go srv_dash xyz_dash 0 s.
Proof. intros H. cbn [replace_go]. rewrite H. reflexivity. Qed.

Lemma replace_go_hit (x1 x2 x3 x4 : ascii) (s : text) :
  starts_with srv_dash (x1 :: x2 :: x3 :: x4 :: s) = true ->
  replace_go srv_dash xyz_dash 0 (x1 :: x2 :: x3 :: x4 :: s)
  = xyz_dash ++ replace_go srv_dash xyz_dash 0 s.
Proof. intros H. cbn [replace_go]. rewrite H. reflexivity. Qed.

Lemma replace_alnum (seg : text) :
  forall b,
    Forall (fun c => is_alnum c = true) seg ->
    word_opt (head b) = false ->
    is_dash (head b) = false ->
    replace_go srv_dash xyz_dash 0 (seg ++ b) = seg ++ replace_go srv_dash xyz_dash 0 b.
Proof.
  induction seg as [|c seg IH]; intros b Hall Hw Hd; [reflexivity|].
  cbn [app]. rewrite replace_go_pass.
  - apply Forall_cons in Hall as [_ Hall]. rewrite (IH b Hall Hw Hd). reflexivity.
  - destruct (starts_with srv_dash (c :: seg ++ b)) eqn:E; [|reflexivity].
    apply starts_with_could_start in E.
    rewrite (alnum_cannot_start c seg b Hall Hw Hd) in E. discriminate E.
Qed.

Lemma replace_quiet (lit : text) :
  forall b next,
    quiet next lit = true ->
    is_r (head b) = is_r next ->
    replace_go srv_dash xyz_dash 0 (lit ++ b) = lit ++ replace_go srv_dash xyz_dash 0 b.
Proof.
  induction lit as [|c lit IH]; intros b next Hq Hr; [reflexivity|].
  cbn [quiet] in Hq. apply andb_true_iff in Hq as [Hs Hq]. apply negb_true_iff in Hs.
  cbn [app]. rewrite replace_go_pass.
  - rewrite (IH b next Hq Hr). reflexivity.
  - destruct (starts_with srv_dash (c :: lit ++ b)) eqn:E; [|reflexivity].
    exfalso. apply starts_with_srv_chars in E as [rest E].
    injection E as -> E.
    destruct lit as [|x lit]; cbn [app] in E.
    + rewrite E in Hr. cbn in Hr. unfold starts in Hs. rewrite <- Hr in Hs. discriminate Hs.
    + injection E as -> _. discriminate Hs.
Qed.

Lemma not_s_no_start (c : ascii) (s : text) :
  lower_char c <> "s"%char -> starts_with srv_dash (c :: s) = false.
Proof.
  intros Hc. destruct (starts_with srv_dash (c :: s)) eqn:E; [|reflexivity].
  apply starts_with_srv_chars in E as [rest E]. injection E as -> _.
  exfalso. apply Hc. reflexivity.
Qed.

(** The replacement respells a name that starts with [srv-] in lower case
    and leaves any other name alone. *)
Lemma replace_name (n b : text) :
  server_shape n ->
  word_opt (head b) = false ->
  is_dash (head b) = false ->
  replace_go srv_dash xyz_dash 0 (n ++ b)
  = altered n ++ replace_go srv_dash xyz_dash 0 b.
Proof.
  intros Hn Hw Hd.
  destruct (shape_split n Hn) as (x1 & x2 & x3 & suffix & -> & H1 & H2 & H3 & Hall & _).
  unfold altered. cbn [app].
  destruct (starts_with srv_dash (x1 :: x2 :: x3 :: "-"%char :: suffix)) eqn:E.
  - rewrite replace_go_hit by (rewrite starts_with_srv4; rewrite starts_with_srv4 in E; exact E).
    rewrite (replace_alnum suffix b Hall Hw Hd). cbn [drop].
    rewrite <- app_assoc. reflexivity.
  - rewrite replace_go_pass by (rewrite starts_with_srv4; rewrite starts_with_srv4 in E; exact E).
    rewrite replace_go_pass by (apply not_s_no_start; rewrite H2; discriminate).
    rewrite replace_go_pass by (apply not_s_no_start; rewrite H3; discriminate).
    rewrite replace_go_pass by (apply not_s_no_start; discriminate).
    rewrite (replace_alnum suffix b Hall Hw Hd). reflexivity.
Qed.

Lemma altered_cases (n : text) :
  server_shape n ->
  (kept n = true /\ altered n = n)
  \/ (kept n = false
      /\ exists suffix,
           altered n = xyz_dash ++ suffix
           /\ Forall (fun c => is_alnum c = true) suffix
           /\ word_opt (last suffix) = true).
Proof.
  intros Hn.
  destruct (shape_split n Hn) as (x1 & x2 & x3 & suffix & -> & _ & _ & _ & Hall & Hne).
  unfold kept, altered.
  destruct (starts_with srv_dash (x1 :: x2 :: x3 :: "-"%char :: suffix)); [right | left; auto].
  split; [reflexivity|]. exists suffix. split_and!; [reflexivity | exact Hall |].
  destruct (last suffix) as [c|] eqn:Hl; [|apply last_None in Hl; contradiction].
  cbn. apply in_class_word.
  rewrite Forall_forall in Hall. apply Hall, last_Some_elem_of, Hl.
Qed.

Lemma altered_head (n : text) :
  server_shape n ->
  exists x rest, altered n = x :: rest /\ is_word x = true /\ is_r (Some x) = false.
Proof.
  intros Hn.
  destruct (shape_split n Hn) as (x1 & x2 & x3 & suffix & -> & H1 & _).
  unfold altered.
  destruct (starts_with srv_dash (x1 :: x2 :: x3 :: "-"%char :: suffix)).
  - eexists _, _. split; [reflexivity|]. split; reflexivity.
  - eexists _, _. split; [reflexivity|]. split.
    + rewrite <- is_word_lower_char, H1. reflexivity.
    + cbn [is_r]. rewrite H1. reflexivity.
Qed.

(** A name that is respelled is no match any more. *)
Lemma finditer_hidden (suffix b : text) (prev : option ascii) :
  Forall (fun c => is_alnum c = true) suffix ->
  word_opt (head b) = false ->
  is_dash (head b) = false ->
  finditer_from SRV_REGEX prev ((xyz_dash ++ suffix) ++ b) 0
  = finditer_from SRV_REGEX (last_or (last_or prev xyz_dash) suffix) b 0.
Proof.
  intros Hall Hw Hd. rewrite <- app_assoc.
  rewrite (quiet_skips xyz_dash prev (suffix ++ b) (head (suffix ++ b)));
    [|reflexivity | reflexivity].
  apply finditer_alnum; assumption.
Qed.

Section AlteredNames.
Variables n1 n2 : text.
Hypothesis shape1 : server_shape n1.
Hypothesis shape2 : server_shape n2.

Lemma shape_of_part (b : bool) : server_shape (part_text n1 n2 (Mention b)).
Proof. destruct b; assumption. Qed.

Lemma head_fill_nonword (ps : list part) :
  word_opt (next_char ps) = false -> head (fill n1 n2 ps) = next_char ps.
Proof.
  induction ps as [|[lit|b] ps IH]; intros H.
  - reflexivity.
  - destruct lit as [|c lit]; [exact (IH H) | reflexivity].
  - discriminate H.
Qed.

Lemma head_fill_altered (ps : list part) :
  is_r (head (fill (altered n1) (altered n2) ps)) = is_r (next_char ps)
  /\ word_opt (head (fill (altered n1) (altered n2) ps)) = word_opt (next_char ps)
  /\ (word_opt (next_char ps) = false ->
      head (fill (altered n1) (altered n2) ps) = next_char ps).
Proof.
  induction ps as [|[lit|b] ps IH].
  - split_and!; reflexivity.
  - destruct lit as [|c lit]; [exact IH | split_and!; reflexivity].
  - assert (Hh : exists x rest,
               part_text (altered n1) (altered n2) (Mention b) = x :: rest
               /\ is_word x = true /\ is_r (Some x) = false).
    { destruct b; cbn [part_text]; apply altered_head; assumption. }
    destruct Hh as (x & rest & Hx & Hword & Hr).
    change (fill (altered n1) (altered n2) (Mention b :: ps))
      with (part_text (altered n1) (altered n2) (Mention b)
            ++ fill (altered n1) (altered n2) ps).
    rewrite Hx. cbn [app head next_char]. split_and!.
    + rewrite Hr. reflexivity.
    + cbn [word_opt]. rewrite Hword. reflexivity.
    + intros H. discriminate H.
Qed.

(** The replacement goes through a well placed text name by name. *)
Lemma replace_fill (ps : list part) :
  forall prev_word,
    placed prev_word ps = true ->
    undashed ps = true ->
    replace_go srv_dash xyz_dash 0 (fill n1 n2 ps) = fill (altered n1) (altered n2) ps.
Proof.
  induction ps as [|[lit|b] ps IH]; intros prev_word Hp Hu.
  - reflexivity.
  - cbn [placed] in Hp. apply andb_true_iff in Hp as [Hq Hp]. cbn [undashed] in Hu.
    change (fill n1 n2 (Ctx lit :: ps)) with (lit ++ fill n1 n2 ps).
    rewrite (replace_quiet lit (fill n1 n2 ps) (next_char ps) Hq
               (is_r_head_fill n1 n2 shape1 shape2 ps)).
    rewrite (IH _ Hp Hu). reflexivity.
  - cbn [placed] in Hp. apply andb_true_iff in Hp as [Hp Hrest].
    apply andb_true_iff in Hp as [_ Hnext]. apply negb_true_iff in Hnext.
    cbn [undashed] in Hu. apply andb_true_iff in Hu as [Hdash Hu].
    apply negb_true_iff in Hdash.
    change (fill n1 n2 (Mention b :: ps))
      with (part_text n1 n2 (Mention b) ++ fill n1 n2 ps).
    rewrite replace_name.
    + rewrite (IH _ Hrest Hu). destruct b; reflexivity.
    + apply shape_of_part.
    + rewrite (head_fill_nonword ps Hnext). exact Hnext.
    + rewrite (head_fill_nonword ps Hnext). exact Hdash.
Qed.

(** The matches of the text after the replacement are the names that it
    leaves, in order. *)
Lemma finditer_altered (ps : list part) :
  forall prev,
    placed (word_opt prev) ps = true ->
    undashed ps = true ->
    finditer_from SRV_REGEX prev (fill (altered n1) (altered n2) ps) 0
    = List.filter kept (mentions n1 n2 ps).
Proof.
  induction ps as [|[lit|b] ps IH]; intros prev Hp Hu.
  - reflexivity.
  - cbn [placed] in Hp. apply andb_true_iff in Hp as [Hq Hp]. cbn [undashed] in Hu.
    change (fill (altered n1) (altered n2) (Ctx lit :: ps))
      with (lit ++ fill (altered n1) (altered n2) ps).
    rewrite (quiet_skips lit prev (fill (altered n1) (altered n2) ps) (next_char ps) Hq
               (proj1 (head_fill_altered ps))).
    change (mentions n1 n2 (Ctx lit :: ps)) with (mentions n1 n2 ps).
    apply IH; [|exact Hu]. unfold last_or. destruct (last lit); exact Hp.
  - cbn [placed] in Hp. apply andb_true_iff in Hp as [Hp Hrest].
    apply andb_true_iff in Hp as [Hprev Hnext]. apply negb_true_iff in Hprev, Hnext.
    cbn [undashed] in Hu. apply andb_true_iff in Hu as [Hdash Hu].
    apply negb_true_iff in Hdash.
    destruct (head_fill_altered ps) as (_ & Hword & Hhead).
    assert (Hw : word_opt (head (fill (altered n1) (altered n2) ps)) = false)
      by (rewrite Hword; exact Hnext).
    assert (Hd : is_dash (head (fill (altered n1) (altered n2) ps)) = false)
      by (rewrite (Hhead Hnext); exact Hdash).
    change (fill (altered n1) (altered n2) (Mention b :: ps))
      with (part_text (altered n1) (altered n2) (Mention b)
            ++ fill (altered n1) (altered n2) ps).
    change (mentions n1 n2 (Mention b :: ps))
      with (part_text n1 n2 (Mention b) :: mentions n1 n2 ps).
    assert (Hpart : part_text (altered n1) (altered n2) (Mention b)
                    = altered (part_text n1 n2 (Mention b))) by (destruct b; reflexivity).
    rewrite Hpart.
    pose proof (shape_of_part b) as Hn.
    cbn [List.filter].
    destruct (altered_cases _ Hn) as [[Hk Ha] | (Hk & suffix & Ha & Hall & Hlast)];
      rewrite Hk, Ha.
    + destruct (finditer_mention (part_text n1 n2 (Mention b))
                  (fill (altered n1) (altered n2) ps) prev Hn Hprev Hw)
        as (prev' & Hf & Hprev').
      rewrite Hf. f_equal. apply IH; [|exact Hu]. rewrite Hprev'. exact Hrest.
    + rewrite (finditer_hidden suffix _ prev Hall Hw Hd).
      apply IH; [|exact Hu].
      unfold last_or at 1. destruct (last suffix); [|discriminate Hlast].
      rewrite Hlast. exact Hrest.
Qed.

End AlteredNames.

Lemma extract_servers_all (t : string) :
  extract_servers t = map canonical (finditer SRV_REGEX (of_string t)).
Proof. destruct t; reflexivity. Qed.

Lemma replace_srv_xyz (t : string) :
  replace "srv-" "xyz-" t = to_string (replace_go srv_dash xyz_dash 0 (of_string t)).
Proof. reflexivity. Qed.

Lemma template_check_xyz_format (db_name template server server2 : string) :
  template_check_xyz db_name template = true ->
  server_shape (of_string server) ->
  server_shape (of_string server2) ->
  exists text,
    format template server server2 db_name = Some text
    /\ (extract_servers (replace "srv-" "xyz-" text) = survivors [server]
        \/ extract_servers (replace "srv-" "xyz-" text) = survivors [server; server2]).
Proof.
  intros Hcheck H1 H2. unfold template_check_xyz in Hcheck.
  destruct (parse template) as [pieces|] eqn:Hparse; [|discriminate].
  destruct (mapM (to_part db_name) pieces) as [ps|] eqn:Hparts; [|discriminate].
  apply andb_true_iff in Hcheck as [Hcheck Horder].
  apply andb_true_iff in Hcheck as [Hplaced Hundashed].
  destruct (field_text_parts server server2 db_name pieces ps Hparts)
    as (texts & Htexts & Hfill).
  exists (String.concat "" texts). split.
  - unfold format. rewrite Hparse. cbn [mbind option_bind].
    change (mapM _ pieces) with (mapM (field_text server server2 db_name) pieces).
    rewrite Htexts. reflexivity.
  - rewrite extract_servers_all, replace_srv_xyz, of_to_string.
    rewrite of_string_concat, Hfill.
    rewrite (replace_fill _ _ H1 H2 ps false Hplaced Hundashed).
    unfold finditer.
    rewrite (finditer_altered _ _ H1 H2 ps None Hplaced Hundashed).
    unfold mentions, survivors.
    destruct (mention_order ps) as [|[] [|[] [|]]]; try discriminate Horder;
      [left | right]; cbn [map List.filter].
    + destruct (kept (of_string server)); reflexivity.
    + destruct (kept (of_string server)), (kept (of_string server2)); reflexivity.
Qed.

Lemma all_checked_xyz_true : all_checked_xyz = true.
Proof. vm_compute. reflexivity. Qed.

(** X23: the first alteration of [generate_description], the
    replacement of [srv-] by [xyz-], is sensitive to case while the
    extraction is not. When it is drawn, and the second alteration is not,
    [extract_servers] still finds in the text every name that the generator
    put there with a prefix variant other than the one in lower case, and
    those only: a name is hidden by the alteration only when its prefix was
    drawn in lower case. *)
Theorem xyz_alteration_hides_lower_case_only (pool : list string) (d : description_draw) :
  good_pool pool ->
  xyz_only d ->
  exists tech text server server2,
    generate_description pool d = Some (tech, text)
    /\ random_server_name pool (server_d d) = Some server
    /\ random_server_name pool (server2_d d) = Some server2
    /\ (extract_servers text = survivors [server]
        \/ extract_servers text = survivors [server; server2]).
Proof.
  intros Hpool [Hxyz Hdrop]. unfold generate_description.
  destruct (choice_is_Some (map fst TECHNOLOGY_TEMPLATES) (tech_r d)) as (tech & Htech & _);
    [discriminate|].
  rewrite Htech. cbn [mbind option_bind].
  apply choice_In in Htech as Hin.
  apply in_map_iff in Hin as (kv & Hkv & Hin').
  pose proof all_checked_xyz_true as Hall. unfold all_checked_xyz in Hall.
  rewrite forallb_forall in Hall. specialize (Hall kv Hin'). rewrite Hkv in Hall.
  destruct (lookup_templates tech) as [[|t0 templates]|]; try discriminate Hall.
  cbn [mbind option_bind].
  destruct (choice_is_Some (t0 :: templates) (template_r d)) as (template & Htemplate & _);
    [discriminate|].
  rewrite Htemplate. cbn [mbind option_bind].
  rewrite forallb_forall in Hall.
  specialize (Hall template (choice_In _ _ _ Htemplate)).
  destruct (random_server_name_shape pool (server_d d) Hpool) as (server & Hs1 & Hshape1).
  destruct (random_server_name_shape pool (server2_d d) Hpool) as (server2 & Hs2 & Hshape2).
  rewrite Hs1, Hs2. cbn [mbind option_bind].
  destruct (choice_is_Some db_names (db_r d)) as (db & Hdb & _); [discriminate|].
  change ["customers"; "orders"; "analytics"; "inventory"] with db_names.
  rewrite Hdb. cbn [mbind option_bind].
  rewrite forallb_forall in Hall. specialize (Hall db (choice_In _ _ _ Hdb)).
  destruct (template_check_xyz_format db template server server2 Hall Hshape1 Hshape2)
    as (text & Hformat & Hextract).
  rewrite Hformat. cbn [mbind option_bind].
  assert (Hb1 : below (u_xyz d) 5 = true) by (apply Nat.ltb_lt, Hxyz).
  assert (Hb2 : below (u_drop d) 5 = false) by (apply Nat.ltb_ge, Hdrop).
  rewrite Hb1, Hb2. cbn [mbind option_bind].
  exists tech, (replace "srv-" "xyz-" text), server, server2.
  split_and!; [reflexivity | reflexivity | reflexivity | exact Hextract].
Qed.

Lemma xyz_only_xyz_draws : xyz_only xyz_draws.
Proof. split; cbn; lia. Qed.

Lemma xyz_alteration_hides_lower_case_only_witness :
  exists tech text server server2,
    generate_description small_pool xyz_draws = Some (tech, text)
    /\ random_server_name small_pool (server_d xyz_draws) = Some server
    /\ random_server_name small_pool (server2_d xyz_draws) = Some server2
    /\ (extract_servers text = survivors [server]
        \/ extract_servers text = survivors [server; server2]).
Proof.
  exact (xyz_alteration_hides_lower_case_only small_pool xyz_draws
           good_small_pool xyz_only_xyz_draws).
Defined.

End AlterationMore.

(** ** The two models of the extraction on ASCII text *)

Section AsciiAgreement.
Variable alnum : N -> bool.

Lemma is_word_codes (c : ascii) :
  ascii7 c = true -> Unicode.is_word alnum (N_of_ascii c) = Re.is_word c.
Proof.
  destruct c as [b0 b1 b2 b3 b4 b5 b6 b7].
  destruct b0, b1, b2, b3, b4, b5, b6, b7; intros H;
    first [reflexivity | discriminate H].
Qed.

Lemma in_class_codes (c : ascii) :
  ascii7 c = true -> Unicode.in_class (N_of_ascii c) = Re.in_class c.
Proof.
  destruct c as [b0 b1 b2 b3 b4 b5 b6 b7].
  destruct b0, b1, b2, b3, b4, b5, b6, b7; intros H;
    first [reflexivity | discriminate H].
Qed.

Lemma fold_codes (c : ascii) :
  ascii7 c = true -> Unicode.fold (N_of_ascii c) = N_of_ascii (lower_char c).
Proof.
  destruct c as [b0 b1 b2 b3 b4 b5 b6 b7].
  destruct b0, b1, b2, b3, b4, b5, b6, b7; intros H;
    first [reflexivity | discriminate H].
Qed.

Lemma lower_char_codes (c : ascii) :
  ascii7 c = true -> Unicode.lower_char (N_of_ascii c) = [N_of_ascii (lower_char c)].
Proof.
  destruct c as [b0 b1 b2 b3 b4 b5 b6 b7].
  destruct b0, b1, b2, b3, b4, b5, b6, b7; intros H;
    first [reflexivity | discriminate H].
Qed.

Lemma eqb_codes (a b : ascii) :
  (N_of_ascii a =? N_of_ascii b)%N = Ascii.eqb a b.
Proof.
  destruct (Ascii.eqb a b) eqn:E.
  - apply Ascii.eqb_eq in E. subst. apply N.eqb_refl.
  - apply N.eqb_neq. intros H. apply Ascii.eqb_neq in E. apply E.
    rewrite <- (ascii_N_embedding a), <- (ascii_N_embedding b), H. reflexivity.
Qed.

Lemma lower_codes (s : text) :
  ascii_text s -> Unicode.lower (code_points s) = code_points (lower s).
Proof.
  unfold Unicode.lower, code_points, lower.
  induction 1 as [|c s Hc _ IH]; [reflexivity|].
  cbn [map flat_map]. rewrite (lower_char_codes c Hc), IH. reflexivity.
Qed.

Lemma word_opt_codes (o : option ascii) :
  ascii_opt o ->
  Unicode.word_opt alnum (option_map N_of_ascii o) = Re.word_opt o.
Proof. destruct o as [c|]; [apply is_word_codes | reflexivity]. Qed.

Lemma ascii_head (s : text) : ascii_text s -> ascii_opt (head s).
Proof. intros H. destruct H; [exact I | assumption]. Qed.

Lemma at_boundary_codes (prev : option ascii) (s : text) :
  ascii_opt prev -> ascii_text s ->
  Unicode.at_boundary alnum (option_map N_of_ascii prev) (code_points s)
  = Re.at_boundary prev s.
Proof.
  intros Hp Hs. unfold Unicode.at_boundary, Re.at_boundary.
  rewrite (word_opt_codes prev Hp), <- (word_opt_codes (head s) (ascii_head s Hs)).
  destruct s; reflexivity.
Qed.

(** The repetition, given that the rest of the pattern agrees. *)
Lemma rep_codes (k : option ascii -> text -> option text)
    (k' : option N -> Unicode.ustr -> option Unicode.ustr) :
  (forall prev s, ascii_opt prev -> ascii_text s ->
     k' (option_map N_of_ascii prev) (code_points s)
     = option_map code_points (k prev s)) ->
  forall hi lo prev s, ascii_opt prev -> ascii_text s ->
    Unicode.rep k' lo hi (option_map N_of_ascii prev) (code_points s)
    = option_map code_points (Re.rep k lo hi prev s).
Proof.
  intros Hk. induction hi as [|hi IH]; intros lo prev s Hp Hs.
  - cbn [Unicode.rep Re.rep]. destruct (lo =? 0); [apply Hk; assumption|].
    reflexivity.
  - destruct Hs as [|x s' Hx Hs'].
    + cbn [Unicode.rep Re.rep code_points map].
      destruct (lo =? 0); [|reflexivity].
      apply (Hk prev []); [assumption | constructor].
    + cbn [Unicode.rep Re.rep code_points map].
      fold (code_points s'). rewrite (in_class_codes x Hx).
      assert (Hstop :
                (if lo =? 0
                 then k' (option_map N_of_ascii prev) (N_of_ascii x :: code_points s')
                 else None)
                = option_map code_points (if lo =? 0 then k prev (x :: s') else None)).
      { destruct (lo =? 0); [|reflexivity].
        apply (Hk prev (x :: s')); [assumption | constructor; assumption]. }
      destruct (Re.in_class x); [|exact Hstop].
      change (Some (N_of_ascii x)) with (option_map N_of_ascii (Some x)).
      rewrite (IH (pred lo) (Some x) s' Hx Hs').
      destruct (Re.rep k (pred lo) hi (Some x) s'); [reflexivity | exact Hstop].
Qed.

(** The matcher on the code points of an ASCII text. *)
Lemma match_here_codes (re : list Re.atom) :
  Forall ascii_atom re ->
  forall prev s, ascii_opt prev -> ascii_text s ->
    Unicode.match_here alnum (map atom_codes re)
      (option_map N_of_ascii prev) (code_points s)
    = option_map code_points (Re.match_here re prev s).
Proof.
  induction 1 as [|a re Ha _ IH]; intros prev s Hp Hs; [reflexivity|].
  destruct a as [|c|lo hi]; cbn [map atom_codes Unicode.match_here Re.match_here].
  - rewrite (at_boundary_codes prev s Hp Hs).
    destruct (Re.at_boundary prev s); [apply IH; assumption | reflexivity].
  - destruct Hs as [|x s' Hx Hs']; [reflexivity|].
    cbn [code_points map]. fold (code_points s').
    rewrite (fold_codes x Hx), (fold_codes c Ha), eqb_codes.
    destruct (Ascii.eqb (lower_char x) (lower_char c)); [|reflexivity].
    change (Some (N_of_ascii x)) with (option_map N_of_ascii (Some x)).
    rewrite (IH (Some x) s' Hx Hs').
    destruct (Re.match_here re (Some x) s'); reflexivity.
  - apply rep_codes; assumption.
Qed.

Lemma finditer_from_codes (re : list Re.atom) :
  Forall ascii_atom re ->
  forall s prev skip, ascii_opt prev -> ascii_text s ->
    Unicode.finditer_from alnum (map atom_codes re)
      (option_map N_of_ascii prev) (code_points s) skip
    = map code_points (Re.finditer_from re prev s skip).
Proof.
  intros Hre s. induction s as [|c s IH]; intros prev skip Hp Hs; [reflexivity|].
  pose proof (match_here_codes re Hre prev (c :: s) Hp Hs) as Hm.
  inversion Hs as [|? ? Hc Hs']; subst.
  cbn [code_points map Unicode.finditer_from Re.finditer_from] in *.
  fold (code_points s) in *.
  change (Some (N_of_ascii c)) with (option_map N_of_ascii (Some c)).
  destruct skip as [|k]; [|apply IH; assumption].
  rewrite Hm. destruct (Re.match_here re prev (c :: s)) as [m|]; cbn [option_map map].
  - replace (length (code_points m)) with (length m)
      by (unfold code_points; rewrite length_map; reflexivity).
    exact (f_equal (cons (code_points m)) (IH (Some c) _ Hc Hs')).
  - exact (IH (Some c) 0 Hc Hs').
Qed.

(** A match of the ASCII matcher is at the head of the text. *)
Lemma rep_prefix (k : option ascii -> text -> option text) :
  (forall prev s m, k prev s = Some m -> exists post, s = m ++ post) ->
  forall hi lo prev s m,
    Re.rep k lo hi prev s = Some m -> exists post, s = m ++ post.
Proof.
  intros Hk. induction hi as [|hi IH]; intros lo prev s m.
  - cbn [Re.rep]. destruct (lo =? 0); [apply Hk | discriminate].
  - cbn [Re.rep].
    assert (Hstop : (if lo =? 0 then k prev s else None) = Some m ->
                    exists post, s = m ++ post).
    { destruct (lo =? 0); [apply Hk | discriminate]. }
    destruct s as [|x s']; [exact Hstop|].
    destruct (Re.in_class x); [|exact Hstop].
    destruct (Re.rep k (pred lo) hi (Some x) s') as [r|] eqn:Hr; [|exact Hstop].
    cbn [option_map]. intros [= <-].
    destruct (IH _ _ _ _ Hr) as (post & ->). exists post. reflexivity.
Qed.

Lemma match_here_prefix (re : list Re.atom) :
  forall prev s m, Re.match_here re prev s = Some m -> exists post, s = m ++ post.
Proof.
  induction re as [|a re IH]; intros prev s m; cbn [Re.match_here].
  - intros [= <-]. exists s. reflexivity.
  - destruct a as [|c|lo hi].
    + destruct (Re.at_boundary prev s); [apply IH | discriminate].
    + destruct s as [|x s']; [discriminate|].
      destruct (Ascii.eqb (lower_char x) (lower_char c)); [|discriminate].
      destruct (Re.match_here re (Some x) s') as [r|] eqn:Hr; [|discriminate].
      cbn [option_map]. intros [= <-].
      destruct (IH _ _ _ Hr) as (post & ->). exists post. reflexivity.
    + apply rep_prefix. exact IH.
Qed.

(** A match that [finditer] yields is made of characters of the text. *)
Lemma finditer_from_ascii (re : list Re.atom) (m : text) (s : text) :
  forall prev skip,
    ascii_text s -> In m (Re.finditer_from re prev s skip) -> ascii_text m.
Proof.
  induction s as [|c s IH]; intros prev skip Hs; cbn [Re.finditer_from];
    [intros []|].
  assert (Hs' : ascii_text s) by (inversion Hs; assumption).
  destruct skip as [|k]; [|apply IH; exact Hs'].
  destruct (Re.match_here re prev (c :: s)) as [m0|] eqn:Hm; [|apply IH; exact Hs'].
  intros [<- | Hin]; [|eapply IH; eassumption].
  destruct (match_here_prefix _ _ _ _ Hm) as (post & E).
  unfold ascii_text in Hs. rewrite E in Hs.
  apply Forall_app in Hs as [Hm0 _]. exact Hm0.
Qed.

(** X24: on a text of ASCII characters the extraction on Unicode text,
    whatever its table of alphanumeric characters beyond ASCII, returns
    the code points of the names that the extraction of the ASCII model
    returns: the two models give the same names in the same order. *)
Theorem extract_servers_ascii_agree (text : string) :
  ascii_text (of_string text) ->
  Unicode.extract_servers alnum (codes text)
  = map codes (Analyze.extract_servers text).
Proof.
  intros Hs. unfold Unicode.extract_servers, Analyze.extract_servers.
  destruct text as [|c text]; [reflexivity|].
  cbn [truthy negb].
  change (codes (String c text)) with (code_points (of_string (String c text))).
  set (s := of_string (String c text)) in *.
  assert (Hne : code_points s <> []) by discriminate.
  destruct (code_points s) as [|c0 u0] eqn:Hu; [contradiction|].
  rewrite <- Hu. clear Hne Hu c0 u0.
  unfold Unicode.finditer, Re.finditer.
  change Unicode.SRV_REGEX with (map atom_codes Analyze.SRV_REGEX).
  change (@None N) with (option_map N_of_ascii None).
  rewrite (finditer_from_codes Analyze.SRV_REGEX); [| repeat constructor | exact I | exact Hs].
  rewrite !map_map. apply map_ext_in. intros m Hm.
  apply finditer_from_ascii in Hm; [|exact Hs].
  rewrite (lower_codes m Hm). unfold codes. rewrite of_to_string. reflexivity.
Qed.

End AsciiAgreement.

Lemma extract_servers_ascii_agree_witness :
  ascii_text (of_string "see SRV-AB1 and srv-srv-ab1")
  /\ Unicode.extract_servers latin1_letters (codes "see SRV-AB1 and srv-srv-ab1")
     = map codes (Analyze.extract_servers "see SRV-AB1 and srv-srv-ab1").
Proof.
  assert (H : ascii_text (of_string "see SRV-AB1 and srv-srv-ab1"))
    by repeat constructor.
  split; [exact H | apply (extract_servers_ascii_agree latin1_letters _ H)].
Defined.
